(** * Minitel slideshow tool: the image-to-VDT encoder

    A shallow embedding of the encoder half of [minitel_slideshow_tool.py]
    (the primitive encoders, the header builder, the frame chunker, the
    dimension computation of the image normalizer and the batch loop) and
    the properties its specification states about them.

    Conventions.
    - A Python [int] is a [Z]; a [bytes]/[bytearray] value is a [list Z]
      whose elements are meant to lie in [0, 256) ([wf_bytes]).
    - A Python [float] is an IEEE-754 binary64 value, [spec_float] with
      [prec = 53] and [emax = 1024], and its arithmetic is the one of
      [Corelib.Floats.SpecFloat].
    - A call either returns, raises, or runs for ever; [outcome] records
      which.  Loops are run with fuel, and [Diverge] is what is left when
      the fuel is gone. *)

From Stdlib Require Import String.
From Stdlib Require Import ZArith List Bool Lia QArith Qabs Qminmax Lqa.
From Stdlib Require Import SpecFloat.
Import ListNotations.
Local Open Scope Z_scope.

(* ================================================================== *)
(** * Definitions *)
(* ================================================================== *)

(** ** Outcomes of a call *)

Inductive exn : Type :=
| ValueError
| OverflowError
| ZeroDivisionError.

Inductive outcome (A : Type) : Type :=
| Return (a : A)
| Raise (e : exn)
| Diverge.

Arguments Return {A} a.
Arguments Raise {A} e.
Arguments Diverge {A}.

Definition bind {A B : Type} (m : outcome A) (k : A -> outcome B) : outcome B :=
  match m with
  | Return a => k a
  | Raise e => Raise e
  | Diverge => Diverge
  end.

Notation "x <- m ;; k" := (bind m (fun x => k))
  (at level 61, m at next level, right associativity).

(** [while fuel cond body s]: the Python statement [while cond: body], run
    from the state [s] for at most [fuel] evaluations of the condition. *)
Fixpoint while {S : Type} (fuel : nat) (cond : S -> bool) (body : S -> S) (s : S)
  : outcome S :=
  match fuel with
  | O => Diverge
  | S fuel' => if cond s then while fuel' cond body (body s) else Return s
  end.

(** ** Bytes *)

Definition bytes : Type := list Z.

Definition is_byte (b : Z) : Prop := 0 <= b < 256.
Definition wf_bytes (data : bytes) : Prop := Forall is_byte data.

Definition len {A : Type} (l : list A) : Z := Z.of_nat (length l).

(** [data[lo:hi]] for [0 <= lo]. *)
Definition slice {A : Type} (data : list A) (lo hi : Z) : list A :=
  firstn (Z.to_nat (hi - lo)) (skipn (Z.to_nat lo) data).

(** [range(0, stop, step)] for [0 < step]. *)
Definition range_step (stop step : Z) : list Z :=
  map (fun k => Z.of_nat k * step) (seq 0 (Z.to_nat ((stop + step - 1) / step))).

(** [reversed(range(0, stop, step))]. *)
Definition reversed_range_step (stop step : Z) : list Z := rev (range_step stop step).

(** [bytes([n])]: a one-element byte string, [ValueError] outside [range(256)]. *)
Definition bytes_of_int (n : Z) : outcome bytes :=
  if (0 <=? n) && (n <? 256) then Return [n] else Raise ValueError.

(** ** Protocol constants *)

Definition SCREEN_WIDTH : Z := 320.
Definition SCREEN_HEIGHT : Z := 240.

Definition PSA : bytes := [0x20].
Definition PDA : bytes := [0x21].
Definition SCA : bytes := [0x24].
Definition TCA : bytes := [0x25].
Definition RTD : bytes := PSA ++ [0x30].
Definition PDA_LOC : bytes := PDA ++ [0x32].
Definition PDA_PAS : bytes := PDA ++ [0x33].
Definition PDA_PPL : bytes := PDA ++ [0x34].
Definition PDA_CPA : bytes := PDA ++ [0x35].
Definition TME : bytes := TCA ++ [0x30].
Definition PM : Z := 0x23.
Definition PI : Z := 0x40.

(** ** Primitive encoders: length *)

(** The state of the loop of [encode_length]: [(value, first, out)]. *)
Definition length_state : Type := Z * bool * bytes.

Definition encode_length_cond (st : length_state) : bool :=
  let '(value, _, _) := st in negb (value =? 0).

Definition encode_length_body (st : length_state) : length_state :=
  let '(value, first, out) := st in
  let tmp := Z.land value 31 in
  let tmp := Z.lor tmp (Z.shiftl 1 6) in
  let tmp := if negb first then Z.lor tmp (Z.shiftl 1 5) else tmp in
  (Z.shiftr value 5, false, out ++ [tmp]).

Definition encode_length_fuel (fuel : nat) (value : Z) : outcome bytes :=
  st <- while fuel encode_length_cond encode_length_body (value, true, []) ;;
  let '(_, _, out) := st in
  Return (rev (out ++ [0xFF])).

(** Enough fuel for every [value] on which the loop stops
    ([encode_length_fuel_enough]); on a negative [value] no fuel is enough
    ([encode_length_negative_diverges]). *)
Definition encode_length (value : Z) : outcome bytes :=
  encode_length_fuel (S (S (Z.to_nat (Z.log2 value)))) value.

(** Modelled from the spec: the length decoder, which the source does not
    contain.  "A decoder reads past the sentinel then consumes bytes while
    the continuation bit is set, stopping at the first byte lacking it.
    Zero encodes as the sentinel alone."  The digits are base-32,
    most-significant first.  The result is the value and the bytes left. *)
Fixpoint decode_length_digits (bs : bytes) (acc : Z) : option (Z * bytes) :=
  match bs with
  | [] => None
  | b :: rest =>
      let acc' := acc * 32 + Z.land b 31 in
      if Z.testbit b 5 then decode_length_digits rest acc' else Some (acc', rest)
  end.

Definition decode_length (bs : bytes) : option (Z * bytes) :=
  match bs with
  | b :: rest =>
      if b =? 0xFF then
        match rest with
        | [] => Some (0, [])
        | _ => decode_length_digits rest 0
        end
      else None
  | [] => None
  end.

(** ** Primitive encoders: integer *)

Definition fits (number nbits : Z) : bool :=
  (- Z.shiftl 1 (nbits - 1) <=? number) && (number <? Z.shiftl 1 (nbits - 1)).

Definition encode_integer_fuel (fuel : nat) (number : Z) (raw : bool) : outcome bytes :=
  nbits <- while fuel (fun nbits => negb (fits number nbits)) (fun nbits => nbits + 7) 7 ;;
  let number := if number <? 0 then number + Z.shiftl 1 nbits else number in
  data <- (if negb raw
           then (cnt <- bytes_of_int (nbits / 7) ;; Return ([0x40] ++ cnt))
           else Return []) ;;
  Return (data ++ map (fun i => Z.land (Z.shiftr number i) 0x7F)
                      (reversed_range_step nbits 7)).

Definition encode_integer (number : Z) (raw : bool) : outcome bytes :=
  encode_integer_fuel (S (S (Z.to_nat (Z.log2 (Z.abs number))))) number raw.

(** Modelled from the spec: the integer decoder, which the source does not
    contain.  It reads the 2-byte header (tag [0x40], then the byte count),
    then that many big-endian 7-bit digit groups, and reads the [7 * count]
    bits as a two's-complement number. *)
Definition be7_value (ds : bytes) : Z :=
  fold_left (fun acc d => acc * 128 + Z.land d 0x7F) ds 0.

Definition decode_integer (bs : bytes) : option Z :=
  match bs with
  | tag :: cnt :: ds =>
      if (tag =? 0x40) && (len ds =? cnt) then
        let nbits := 7 * cnt in
        let u := be7_value ds in
        Some (if u <? 2 ^ (nbits - 1) then u else u - 2 ^ nbits)
      else None
  | _ => None
  end.

(** ** Primitive encoders: boolean *)

Definition encode_boolean (v : bool) : bytes := [0x45; 0x01; if v then 0x01 else 0x00].

(** ** Python numbers: [int] and binary64 [float] *)

Definition prec : Z := 53.
Definition emax : Z := 1024.

Inductive pynum : Type :=
| PyInt (z : Z)
| PyFloat (f : spec_float).

(** [float(z)]: the nearest binary64 value, ties to even; [OverflowError]
    when [z] is too large. *)
Definition float_of_int (z : Z) : outcome spec_float :=
  match binary_normalize prec emax z 0 false with
  | S754_infinity _ => Raise OverflowError
  | f => Return f
  end.

(** [a / b] on two [int]s: the correctly rounded quotient. *)
Definition int_truediv (a b : Z) : outcome spec_float :=
  if b =? 0 then Raise ZeroDivisionError
  else if a =? 0 then Return (S754_zero (b <? 0))
  else
    match SFdiv prec emax (S754_finite (a <? 0) (Z.to_pos (Z.abs a)) 0)
                          (S754_finite (b <? 0) (Z.to_pos (Z.abs b)) 0) with
    | S754_infinity _ => Raise OverflowError
    | f => Return f
    end.

(** The exact comparison of an [int] with a [float]; [None] on a NaN. *)
Definition cmp_int_float (z : Z) (f : spec_float) : option comparison :=
  match f with
  | S754_nan => None
  | S754_infinity s => Some (if s then Gt else Lt)
  | S754_zero _ => Some (z ?= 0)
  | S754_finite s m e =>
      let fm := cond_Zopp s (Zpos m) in
      Some (if 0 <=? e then z ?= fm * 2 ^ e else z * 2 ^ (- e) ?= fm)
  end.

(** [x < y] and [x <= y]. *)
Definition py_lt (x y : pynum) : bool :=
  match x, y with
  | PyInt a, PyInt b => a <? b
  | PyInt a, PyFloat g => match cmp_int_float a g with Some Lt => true | _ => false end
  | PyFloat f, PyInt b => match cmp_int_float b f with Some Gt => true | _ => false end
  | PyFloat f, PyFloat g => SFltb f g
  end.

Definition py_le (x y : pynum) : bool :=
  match x, y with
  | PyInt a, PyInt b => a <=? b
  | PyInt a, PyFloat g =>
      match cmp_int_float a g with Some (Lt | Eq) => true | _ => false end
  | PyFloat f, PyInt b =>
      match cmp_int_float b f with Some (Gt | Eq) => true | _ => false end
  | PyFloat f, PyFloat g => SFleb f g
  end.

(** [x * y]. *)
Definition py_mul (x y : pynum) : outcome pynum :=
  match x, y with
  | PyInt a, PyInt b => Return (PyInt (a * b))
  | PyInt a, PyFloat g => f <- float_of_int a ;; Return (PyFloat (SFmul prec emax f g))
  | PyFloat f, PyInt b => g <- float_of_int b ;; Return (PyFloat (SFmul prec emax f g))
  | PyFloat f, PyFloat g => Return (PyFloat (SFmul prec emax f g))
  end.

(** The integer nearest to [m * 2^e], ties to the even one. *)
Definition round_half_even (m e : Z) : Z :=
  if 0 <=? e then m * 2 ^ e
  else
    let d := 2 ^ (- e) in
    let q := m / d in
    let r := m mod d in
    match 2 * r ?= d with
    | Lt => q
    | Gt => q + 1
    | Eq => if Z.even q then q else q + 1
    end.

(** [round(x)] with one argument: an [int]. *)
Definition py_round (x : pynum) : outcome Z :=
  match x with
  | PyInt z => Return z
  | PyFloat (S754_zero _) => Return 0
  | PyFloat (S754_finite s m e) => Return (cond_Zopp s (round_half_even (Zpos m) e))
  | PyFloat (S754_infinity _) => Raise OverflowError
  | PyFloat S754_nan => Raise ValueError
  end.

(** [min(a, b, c)]: the first of the smallest. *)
Definition py_min3 (a b c : pynum) : pynum :=
  let best := a in
  let best := if py_lt b best then b else best in
  if py_lt c best then c else best.

(** The literal [0.75]. *)
Definition float_0_75 : spec_float := S754_finite false 6755399441055744 (-53).

(** The value of a finite float as a rational. *)
Definition Qpow2 (e : Z) : Q :=
  if 0 <=? e then inject_Z (2 ^ e) else 1 # Z.to_pos (2 ^ (- e)).

Definition SF2Q (f : spec_float) : Q :=
  match f with
  | S754_finite s m e => (inject_Z (cond_Zopp s (Zpos m)) * Qpow2 e)%Q
  | _ => 0%Q
  end.

Definition is_finite (f : spec_float) : bool :=
  match f with
  | S754_zero _ | S754_finite _ _ _ => true
  | _ => false
  end.

(** [float(1 << 26)]. *)
Definition two_26 : spec_float := S754_finite false 4503599627370496 (-26).

(** A binary64 float with a full mantissa, in the exponent range. *)
Definition normal53 (m : positive) (e : Z) : Prop :=
  2 ^ 52 <= Zpos m < 2 ^ 53 /\ -1074 <= e <= 971.

(** The relative error of a rounding to 53 bits: [2^-52] at most. *)
Definition eps : Q := Qpow2 (-52).

(** The value of a Python number, when it has one. *)
Definition pyval (x : pynum) : option Q :=
  match x with
  | PyInt z => Some (inject_Z z)
  | PyFloat f => if is_finite f then Some (SF2Q f) else None
  end.

(** A well-formed Python number: a float is a canonical binary64 value. *)
Definition wf_pynum (x : pynum) : Prop :=
  match x with
  | PyInt _ => True
  | PyFloat f => valid_binary prec emax f = true
  end.

(** ** Primitive encoders: normalized fraction *)

Definition encode_normalized (value : pynum) : outcome bytes :=
  let nbytes := 4 in
  if negb (py_le (PyInt (-1)) value && py_le value (PyInt 1)) then Raise ValueError
  else
    scaled <- py_mul value (PyInt (Z.shiftl 1 (7 * nbytes - 2))) ;;
    v <- py_round scaled ;;
    let v := if v <? 0
             then v + Z.shiftl 1 (7 * nbytes) - Z.shiftl 1 (7 * nbytes - 2)
             else v in
    Return ([0x42; nbytes]
              ++ map (fun i => Z.land (Z.shiftr v (7 * i)) 0x7F)
                     (reversed_range_step nbytes 1)).

(** Modelled from the spec: the normalized-fraction decoder, which the
    source does not contain.  It reads tag [0x42], byte count [4] and four
    big-endian 7-bit digit groups, takes the bias [2^28 - 2^26] off a value
    that is above the largest unbiased one, [2^26], and scales by [2^-26]. *)
Definition decode_normalized (bs : bytes) : option Q :=
  match bs with
  | [tag; cnt; d3; d2; d1; d0] =>
      if (tag =? 0x42) && (cnt =? 4) then
        let u := be7_value [d3; d2; d1; d0] in
        let v := if 2 ^ 26 <? u then u - (2 ^ 28 - 2 ^ 26) else u in
        Some (inject_Z v / inject_Z (2 ^ 26))%Q
      else None
  | _ => None
  end.

(** ** Image normalizer: the dimensions *)

(** What [resize_image] returns for an image of a given size: the image
    itself, or [im.resize((w, h), Image.LANCZOS)]. *)
Inductive resized : Type :=
| Unchanged
| Resample (w h : Z).

Definition resize_image (width height : Z) : outcome resized :=
  a <- int_truediv SCREEN_WIDTH width ;;
  b <- int_truediv SCREEN_HEIGHT height ;;
  let ratio := py_min3 (PyFloat a) (PyFloat b) (PyInt 1) in
  sw <- py_mul (PyInt width) ratio ;;
  w <- py_round sw ;;
  let w := ((w + 4) / 8) * 8 in
  sh <- py_mul (PyInt height) ratio ;;
  h <- py_round sh ;;
  let h := ((h + 5) / 10) * 10 in
  if (width =? w) && (height =? h) then Return Unchanged
  else Return (Resample w h).

(** The size of the image [resize_image] returns. *)
Definition resized_size (width height : Z) (r : resized) : Z * Z :=
  match r with
  | Unchanged => (width, height)
  | Resample w h => (w, h)
  end.

(** The scale ratio of the spec, exactly: [min(320/width, 240/height, 1)]. *)
Definition scale_ratio (width height : Z) : Q :=
  Qmin (Qmin (inject_Z SCREEN_WIDTH / inject_Z width)
             (inject_Z SCREEN_HEIGHT / inject_Z height)) 1.

(** The ratio the code computes, against an exact ratio [rho]: the [int] 1
    when [rho] is 1, or a normal float within [eps] of [rho], 1 at most. *)
Definition ratio_approx (ratio : pynum) (rho : Q) : Prop :=
  (ratio = PyInt 1 /\ (rho == 1)%Q)
  \/ (exists m e,
         ratio = PyFloat (S754_finite false m e)
         /\ normal53 m e
         /\ -80 <= e <= -40
         /\ (rho * (1 - eps) <= SF2Q (S754_finite false m e) <= rho * (1 + eps))%Q
         /\ (SF2Q (S754_finite false m e) <= 1)%Q).

(** ** Header builder *)

Definition encode_header (x y width height : Z)
    (clear translation reset quantization : bool) : outcome bytes :=
  let h := [] in
  h <- (if reset then Return (h ++ RTD ++ encode_boolean true) else Return h) ;;
  h <- (fx <- int_truediv x SCREEN_WIDTH ;;
        nx <- encode_normalized (PyFloat fx) ;;
        fy <- int_truediv (SCREEN_HEIGHT - height - y) SCREEN_HEIGHT ;;
        fy <- py_mul (PyFloat fy) (PyFloat float_0_75) ;;
        ny <- encode_normalized fy ;;
        Return (h ++ PDA_LOC ++ nx ++ ny)) ;;
  h <- (fw <- int_truediv width SCREEN_WIDTH ;;
        nw <- encode_normalized (PyFloat fw) ;;
        fh <- int_truediv height SCREEN_HEIGHT ;;
        fh <- py_mul (PyFloat fh) (PyFloat float_0_75) ;;
        nh <- encode_normalized fh ;;
        Return (h ++ PDA_PAS ++ nw ++ nh)) ;;
  h <- (i0 <- encode_integer 0 false ;;
        i1 <- encode_integer 0 false ;;
        n0 <- encode_normalized (PyInt 0) ;;
        fh <- int_truediv height SCREEN_HEIGHT ;;
        fh <- py_mul (PyFloat fh) (PyFloat float_0_75) ;;
        nh <- encode_normalized fh ;;
        Return (h ++ PDA_PPL ++ i0 ++ i1 ++ n0 ++ nh)) ;;
  h <- (if clear then Return (h ++ PDA_CPA ++ encode_boolean clear) else Return h) ;;
  h <- (if quantization
        then (i <- encode_integer 0x7F false ;;
              Return (h ++ (SCA ++ [0x31]) ++ [0x44; 0x01; 1] ++ i ++ [0x44; 0x01; 0x03]))
        else Return h) ;;
  h <- (if translation then Return (h ++ TME ++ [0x44; 0x01; 0x02]) else Return h) ;;
  Return h.

(** The header as the spec describes it (section 4.3): an ordered sequence
    of directives, each an opcode and the values it carries.  A Normalized
    value is a computed number, and the computation may raise. *)
Inductive encoded_value : Type :=
| Boolean (b : bool)
| Integer (n : Z)
| Normalized (x : outcome pynum)
| Fixed (bs : bytes).

Definition directive : Type := (bytes * list encoded_value)%type.

Definition encode_value (v : encoded_value) : outcome bytes :=
  match v with
  | Boolean b => Return (encode_boolean b)
  | Integer n => encode_integer n false
  | Normalized x => n <- x ;; encode_normalized n
  | Fixed bs => Return bs
  end.

Fixpoint encode_values (vs : list encoded_value) : outcome bytes :=
  match vs with
  | [] => Return []
  | v :: vs' => b <- encode_value v ;; bs <- encode_values vs' ;; Return (b ++ bs)
  end.

Fixpoint encode_directives (ds : list directive) : outcome bytes :=
  match ds with
  | [] => Return []
  | (opcode, vs) :: ds' =>
      b <- encode_values vs ;; bs <- encode_directives ds' ;; Return (opcode ++ b ++ bs)
  end.

(** A value that can be written. *)
Definition encodes (v : encoded_value) : Prop := exists bs, encode_value v = Return bs.

(** [a / b] and [a / b * 0.75]. *)
Definition fraction (a b : Z) : outcome pynum :=
  f <- int_truediv a b ;; Return (PyFloat f).

Definition fraction_075 (a b : Z) : outcome pynum :=
  f <- int_truediv a b ;; py_mul (PyFloat f) (PyFloat float_0_75).

(** The seven steps of section 4.3, in their order. *)
Definition spec_header_descriptor (x y width height : Z)
    (clear translation reset quantization : bool) : list directive :=
  (if reset then [(RTD, [Boolean true])] else [])
    ++ [(PDA_LOC, [Normalized (fraction x SCREEN_WIDTH);
                   Normalized (fraction_075 (SCREEN_HEIGHT - height - y) SCREEN_HEIGHT)])]
    ++ [(PDA_PAS, [Normalized (fraction width SCREEN_WIDTH);
                   Normalized (fraction_075 height SCREEN_HEIGHT)])]
    ++ [(PDA_PPL, [Integer 0; Integer 0; Normalized (Return (PyInt 0));
                   Normalized (fraction_075 height SCREEN_HEIGHT)])]
    ++ (if clear then [(PDA_CPA, [Boolean clear])] else [])
    ++ (if quantization
        then [(SCA ++ [0x31], [Fixed [0x44; 0x01; 1]; Integer 0x7F; Fixed [0x44; 0x01; 0x03]])]
        else [])
    ++ (if translation then [(TME, [Fixed [0x44; 0x01; 0x02]])] else []).

(** ** Frame chunker *)

(** [split_chunks]: the (chunk, final) pairs the generator yields, in order. *)
Definition split_chunks (data : bytes) (chunk_size : Z) : list (bytes * bool) :=
  if (chunk_size <=? 0) || (len data =? 0) then [(data, true)]
  else
    map (fun pos =>
           let chunk := slice data pos (pos + chunk_size) in
           let final := len data <=? pos + len chunk in
           (chunk, final))
        (range_step (len data) chunk_size).

(** [enumerate(chunk)]. *)
Definition enumerate {A : Type} (l : list A) : list (Z * A) :=
  combine (map Z.of_nat (seq 0 (length l))) l.

(** One turn of the loop of [translate_data] on [chunk = data[pos:pos+3]]:
    the escape byte, then the low six bits of each byte. *)
Definition translate_chunk (chunk : bytes) : bytes :=
  let b0 := Z.shiftl 1 6 in
  let b0 := fold_left
              (fun b0 '(idx, bt) =>
                 Z.lor b0 (Z.shiftl (Z.shiftr bt 6) (4 - Z.shiftl idx 1)))
              (enumerate chunk) b0 in
  [b0] ++ map (fun bt => Z.lor (Z.shiftl 1 6) (Z.land bt 0x3F)) chunk.

Definition translate_data_fuel (fuel : nat) (data : bytes) : outcome bytes :=
  st <- while fuel
          (fun '(pos, res) => pos <? len data)
          (fun '(pos, res) => (pos + 3, res ++ translate_chunk (slice data pos (pos + 3))))
          (0, []) ;;
  Return (snd st).

Definition translate_data (data : bytes) : outcome bytes :=
  translate_data_fuel (S (length data)) data.

(** What [translate_data] returns, group by group
    ([translate_data_groups]): full groups of three bytes, then a short
    group of the one or two bytes left. *)
Fixpoint translate_groups (data : bytes) : bytes :=
  match data with
  | a :: b :: c :: rest => translate_chunk [a; b; c] ++ translate_groups rest
  | short => match short with [] => [] | _ => translate_chunk short end
  end.

(** Modelled from the spec: the inverse of the 6-bit-safe transform, which
    the source does not contain.  Each group is an escape byte and up to
    three bytes; a source byte has its top 2 bits from the escape byte, at
    the offset of its place in the group, and its low 6 bits from its own
    byte. *)
Definition untranslate_group (esc : Z) (lows : bytes) : bytes :=
  map (fun '(idx, b) =>
         Z.lor (Z.shiftl (Z.land (Z.shiftr esc (4 - Z.shiftl idx 1)) 3) 6)
               (Z.land b 0x3F))
      (enumerate lows).

Fixpoint untranslate (bs : bytes) : bytes :=
  match bs with
  | [] => []
  | esc :: a :: b :: c :: rest => untranslate_group esc [a; b; c] ++ untranslate rest
  | esc :: lows => untranslate_group esc lows
  end.

(** The frame both loops of [encode_image] build around a chunk. *)
Definition frame (code : Z) (chunk : bytes) : outcome bytes :=
  l <- encode_length (len chunk + 1) ;;
  Return ([0x1B; 0x70; PM; PI] ++ l ++ [code] ++ chunk).

(** [for x in xs: out.append(f(x))]. *)
Fixpoint for_each {A B : Type} (f : A -> outcome B) (xs : list A) : outcome (list B) :=
  match xs with
  | [] => Return []
  | x :: xs' => y <- f x ;; ys <- for_each f xs' ;; Return (y :: ys)
  end.

Definition encode_image (header image : bytes) (chunk_size : Z) (translation : bool)
  : outcome (list bytes) :=
  out1 <- for_each
            (fun '(chunk, final) =>
               let code := if final : bool then 0x51 else 0x50 in
               frame code chunk)
            (split_chunks header (chunk_size - 1)) ;;
  let chunk_size := if translation then ((chunk_size - 1) * 3) / 4 + 1 else chunk_size in
  out2 <- for_each
            (fun '(chunk, final) =>
               chunk <- (if translation then translate_data chunk else Return chunk) ;;
               let code := if final : bool then 0x53 else 0x52 in
               frame code chunk)
            (split_chunks image chunk_size) ;;
  Return (out1 ++ out2).

(** The frame of the spec for a chunk and an opcode: [ESC, 'p', pageMarker
    0x23, instructionMarker 0x40, Length(chunkLength + 1), opcode,
    chunkBytes]. *)
Definition is_frame (code : Z) (chunk fr : bytes) : Prop :=
  exists l,
    encode_length (len chunk + 1) = Return l
    /\ fr = [0x1B; 0x70; 0x23; 0x40] ++ l ++ [code] ++ chunk.

(** The opcode of a chunk: continue or final, header or payload. *)
Definition header_code (final : bool) : Z := if final then 0x51 else 0x50.
Definition image_code (final : bool) : Z := if final then 0x53 else 0x52.

(** Modelled from the spec: a reader of one frame, which the source does
    not contain.  A frame is [ESC, 'p', pageMarker, instructionMarker,
    Length(chunkLength + 1), opcode, chunkBytes]; the reader gives the
    opcode and the chunk. *)
Definition parse_frame (fr : bytes) : option (Z * bytes) :=
  match fr with
  | esc :: p :: pm :: pi :: rest =>
      if (esc =? 0x1B) && (p =? 0x70) && (pm =? PM) && (pi =? PI) then
        match decode_length rest with
        | Some (n, code :: chunk) =>
            if len chunk + 1 =? n then Some (code, chunk) else None
        | _ => None
        end
      else None
  | _ => None
  end.

Fixpoint parse_frames (frs : list bytes) : option (list (Z * bytes)) :=
  match frs with
  | [] => Some []
  | fr :: frs' =>
      match parse_frame fr, parse_frames frs' with
      | Some f, Some fs => Some (f :: fs)
      | _, _ => None
      end
  end.

(** The chunk payloads of the frames whose opcode is one of [codes],
    concatenated in frame order. *)
Definition payload_of (codes : list Z) (fs : list (Z * bytes)) : bytes :=
  concat (map snd (filter (fun f => existsb (Z.eqb (fst f)) codes) fs)).

(** ** Conversion pipeline: the batch loop *)

(** What [log] writes.  The text of a line is kept as its parts. *)
Inductive log_entry : Type :=
| LogMissingInput                                  (* "Dossier d'entrée introuvable." *)
| LogNoImages                                      (* "Aucune image trouvée." *)
| LogStart (n : nat)                               (* "Conversion {n} images…" *)
| LogConverted (name outname : String.string)      (* "Converti: {name} -> {outname}" *)
| LogPreview (sample : String.string)              (* "Preview hex (first 64 bytes): …" *)
| LogError (name : String.string) (e : String.string) (* "Erreur conversion {name}: {e}" *)
| LogDone.                                         (* "Conversion terminée." *)

(** The world outside the encoder: the file system and the image library.
    An operation of the library or of the file system returns a value or
    the message of the exception it raises. *)
Record platform : Type := {
  world : Type;
  path : Type;
  image : Type;
  p_name : path -> String.string;            (* p.name *)
  out_name : path -> String.string;          (* (out / (p.stem + ".vdt")).name *)
  exn_text : exn -> String.string;           (* str(e) of an exception of the encoder *)
  input_is_dir : world -> bool;              (* inp.exists() and inp.is_dir() *)
  out_mkdir : world -> world * option String.string;
  list_images : world -> list path;          (* sorted, filtered by suffix *)
  Image_open : path -> world -> image + String.string;
  im_width : image -> Z;
  im_height : image -> Z;
  im_resize : image -> Z -> Z -> image + String.string;
  export_image : image -> bytes + String.string;     (* quality=78 *)
  has_qtables : bytes -> bool + String.string;
  write_chunks : path -> list bytes -> world -> world * option String.string;
  read_sample : path -> world -> String.string + String.string
}.

Section Batch.

Variable P : platform.

(** The state a run threads: the world and the log widget's lines. *)
Definition state : Type := world P * list log_entry.

(** What a statement does from a state: return, raise an [Exception], or
    run for ever. *)
Inductive run (A : Type) : Type :=
| Ret (a : A) (s : state)
| Exc (msg : String.string) (s : state)
| Loop.

Arguments Ret {A} a s.
Arguments Exc {A} msg s.
Arguments Loop {A}.

Definition io (A : Type) : Type := state -> run A.

Definition io_ret {A : Type} (a : A) : io A := fun s => Ret a s.

Definition io_bind {A B : Type} (m : io A) (k : A -> io B) : io B :=
  fun s =>
    match m s with
    | Ret a s' => k a s'
    | Exc msg s' => Exc msg s'
    | Loop => Loop
    end.

Notation "x <~ m ;; k" := (io_bind m (fun x => k))
  (at level 61, m at next level, right associativity).

Definition log (entry : log_entry) : io unit :=
  fun '(w, lg) => Ret tt (w, lg ++ [entry]).

(** A call of the encoder. *)
Definition pure {A : Type} (m : outcome A) : io A :=
  fun s =>
    match m with
    | Return a => Ret a s
    | Raise e => Exc (exn_text P e) s
    | Diverge => Loop
    end.

(** A call that reads the world. *)
Definition reading {A : Type} (f : world P -> A + String.string) : io A :=
  fun '(w, lg) =>
    match f w with
    | inl a => Ret a (w, lg)
    | inr msg => Exc msg (w, lg)
    end.

(** A call that changes the world. *)
Definition writing (f : world P -> world P * option String.string) : io unit :=
  fun '(w, lg) =>
    match f w with
    | (w', None) => Ret tt (w', lg)
    | (w', Some msg) => Exc msg (w', lg)
    end.

(** [try: body  except Exception as e: handler(e)]. *)
Definition try_except (body : io unit) (handler : String.string -> io unit) : io unit :=
  fun s =>
    match body s with
    | Ret tt s' => Ret tt s'
    | Exc msg s' => handler msg s'
    | Loop => Loop
    end.

(** [for p in imgs: body(p)]. *)
Fixpoint io_for {A : Type} (xs : list A) (body : A -> io unit) : io unit :=
  match xs with
  | [] => io_ret tt
  | x :: xs' => _ <~ body x ;; io_for xs' body
  end.

(** The body of the [try] statement, for one image. *)
Definition convert_body (preview : bool) (p : path P) : io unit :=
  im <~ reading (Image_open P p) ;;
  r <~ pure (resize_image (im_width P im) (im_height P im)) ;;
  im <~ match r with
        | Unchanged => io_ret im
        | Resample w h => reading (fun _ => im_resize P im w h)
        end ;;
  jpeg <~ reading (fun _ => export_image P im) ;;
  q <~ reading (fun _ => has_qtables P jpeg) ;;
  header <~ pure (encode_header 0 0 (im_width P im) (im_height P im) true false true q) ;;
  chunks <~ pure (encode_image header jpeg 0x100 false) ;;
  _ <~ writing (write_chunks P p chunks) ;;
  _ <~ log (LogConverted (p_name P p) (out_name P p)) ;;
  if preview
  then (sample <~ reading (read_sample P p) ;; log (LogPreview sample))
  else io_ret tt.

Definition convert_one (preview : bool) (p : path P) : io unit :=
  try_except (convert_body preview p)
             (fun e => log (LogError (p_name P p) e)).

Definition convert_images (preview : bool) : io unit :=
  fun s =>
    if negb (input_is_dir P (fst s)) then log LogMissingInput s
    else
      (_ <~ writing (out_mkdir P) ;;
       imgs <~ (fun s => Ret (list_images P (fst s)) s) ;;
       match imgs with
       | [] => log LogNoImages
       | _ =>
           _ <~ log (LogStart (length imgs)) ;;
           _ <~ io_for imgs (convert_one preview) ;;
           log LogDone
       end) s.

(** The lines one image may leave in the log: the line of its conversion,
    then the preview or nothing; or the line of its failure, after the
    line of its conversion when the failure is the preview's. *)
Inductive image_lines (p : path P) : list log_entry -> Prop :=
| lines_converted :
    image_lines p [LogConverted (p_name P p) (out_name P p)]
| lines_previewed sample :
    image_lines p [LogConverted (p_name P p) (out_name P p); LogPreview sample]
| lines_failed e :
    image_lines p [LogError (p_name P p) e]
| lines_preview_failed e :
    image_lines p [LogConverted (p_name P p) (out_name P p); LogError (p_name P p) e].

(** What the batch does, image by image: the body of the [try] returns, or
    it raises and the handler adds the line of the failure; either way the
    next image starts from the state that leaves. *)
Inductive batch_trace (preview : bool) : list (path P) -> state -> state -> Prop :=
| trace_done s :
    batch_trace preview [] s s
| trace_converted p ps s s1 s' :
    convert_body preview p s = Ret tt s1 ->
    batch_trace preview ps s1 s' ->
    batch_trace preview (p :: ps) s s'
| trace_failed p ps s msg s1 s' :
    convert_body preview p s = Exc msg s1 ->
    batch_trace preview ps (fst s1, snd s1 ++ [LogError (p_name P p) msg]) s' ->
    batch_trace preview (p :: ps) s s'.

End Batch.

Arguments Ret {P A} a s.
Arguments Exc {P A} msg s.
Arguments Loop {P A}.

(** A platform to run the batch on: three images, the second of which the
    image library cannot read; the files written are kept in a list. *)
Definition example_platform : platform := {|
  world := list (String.string * list bytes);
  path := nat;
  image := (Z * Z)%type;
  p_name := fun p => match p with
                     | O => "a.png"%string
                     | S O => "b.png"%string
                     | _ => "c.png"%string
                     end;
  out_name := fun p => match p with
                       | O => "a.vdt"%string
                       | S O => "b.vdt"%string
                       | _ => "c.vdt"%string
                       end;
  exn_text := fun e => match e with
                       | ValueError => "ValueError"%string
                       | OverflowError => "OverflowError"%string
                       | ZeroDivisionError => "ZeroDivisionError"%string
                       end;
  input_is_dir := fun _ => true;
  out_mkdir := fun w => (w, None);
  list_images := fun _ => [0%nat; 1%nat; 2%nat];
  Image_open := fun p _ => match p with
                           | S O => inr "cannot identify image file"%string
                           | _ => inl (8, 10)
                           end;
  im_width := fst;
  im_height := snd;
  im_resize := fun _ w h => inl (w, h);
  export_image := fun _ => inl [0xFF; 0xD8; 0xFF; 0xDA; 0xFF; 0xD9];
  has_qtables := fun _ => inl false;
  write_chunks := fun p chunks w =>
                    (w ++ [(match p with
                            | O => "a.vdt"%string
                            | S O => "b.vdt"%string
                            | _ => "c.vdt"%string
                            end, chunks)], None);
  read_sample := fun _ _ => inl ""%string
|}.

(** A call that returns or raises. *)
Definition terminates {A : Type} (m : outcome A) : Prop := m <> Diverge.

(* ================================================================== *)
(** * Definitions: the helpers around the encoder *)
(* ================================================================== *)

(** The byte concatenation the encoders are written with, the JPEG section
    reader behind [export_image] and [has_qtables], the line-wise sender
    and, for the statements about them, a reader of whole artifacts and
    the checks of the sizes the canvas allows. *)

(** ** Byte concatenation *)

(** An argument of [bytescat]: a [bytes] or [bytearray] value, an [int],
    or another iterable of such arguments. *)
#[warnings="-register-all"]
Inductive item : Type :=
| Bytes (b : bytes)
| Int (n : Z)
| Items (es : list item).

(** What one argument [e] adds to [r]: [e] itself, [bytes([e])]
    ([r.append(e)] raises [ValueError] outside [range(256)]), or
    the result of [bytescat] on the items of [e], whose loop is the inner
    [fix]. *)
Fixpoint bytescat_item (e : item) : outcome bytes :=
  match e with
  | Bytes b => Return b
  | Int n => bytes_of_int n
  | Items es =>
      (fix loop (data : list item) (r : bytes) {struct data} : outcome bytes :=
         match data with
         | [] => Return r
         | e :: data' => x <- bytescat_item e ;; loop data' (r ++ x)
         end) es []
  end.

(** The loop of [bytescat] from the accumulator [r]. *)
Fixpoint bytescat_loop (data : list item) (r : bytes) : outcome bytes :=
  match data with
  | [] => Return r
  | e :: data' => x <- bytescat_item e ;; bytescat_loop data' (r ++ x)
  end.

Definition bytescat (data : list item) : outcome bytes := bytescat_loop data [].

(** The bytes of an argument, read left to right. *)
Fixpoint flatten (e : item) : bytes :=
  match e with
  | Bytes b => b
  | Int n => [n]
  | Items es => concat (map flatten es)
  end.

(** Every [int] of an argument is in [range(256)]. *)
Fixpoint ints_in_range (e : item) : bool :=
  match e with
  | Bytes _ => true
  | Int n => (0 <=? n) && (n <? 256)
  | Items es => forallb ints_in_range es
  end.

(** ** JPEG sections *)

Module Jpeg.

(** The exceptions of the section reader: [ValueError("Invalid JPEG")]
    and the [IndexError] of an index past the end. *)
Inductive error : Type :=
| Invalid_JPEG
| IndexError.

(** How a generator ends once its items are taken: it returns, it raises,
    or it is still running when the fuel is gone. *)
Inductive ending : Type :=
| Stop
| Throw (e : error)
| Starved.

(** A call returns, raises, or runs for ever. *)
Inductive result (A : Type) : Type :=
| Done (a : A)
| Failed (e : error)
| Unfinished.

Arguments Done {A} a.
Arguments Failed {A} e.
Arguments Unfinished {A}.

(** [data[pos]] for [0 <= pos]; [None] is [IndexError]. *)
Definition item_at (data : bytes) (pos : Z) : option Z := nth_error data (Z.to_nat pos).

(** [data[-2:]]. *)
Definition last2 (data : bytes) : bytes := skipn (length data - 2) data.

(** What follows the loop of [iter_jpeg_sections]: the check of the scan
    marker and of the end marker, then the last section. *)
Definition scan_section (data : bytes) (pos : Z) : list (Z * Z) * ending :=
  if list_eq_dec Z.eq_dec (slice data pos (pos + 2)) [0xFF; 0xDA] then
    if list_eq_dec Z.eq_dec (last2 data) [0xFF; 0xD9] then ([(pos, len data)], Stop)
    else ([], Throw Invalid_JPEG)
  else ([], Throw Invalid_JPEG).

(** The loop of [iter_jpeg_sections] from [pos], and what follows it: the
    sections yielded, in order, and how the generator ends. *)
Fixpoint sections_from (fuel : nat) (data : bytes) (pos : Z) : list (Z * Z) * ending :=
  match fuel with
  | O => ([], Starved)
  | S fuel' =>
      match item_at data pos with
      | None => ([], Throw IndexError)
      | Some b0 =>
          if b0 =? 0xFF then
            match item_at data (pos + 1) with
            | None => ([], Throw IndexError)
            | Some b1 =>
                if negb (b1 =? 0xDA) then
                  match item_at data (pos + 2), item_at data (pos + 3) with
                  | Some hi, Some lo =>
                      let length := Z.lor (Z.shiftl hi 8) lo in
                      let '(rest, e) := sections_from fuel' data (pos + length + 2) in
                      ((pos, pos + length + 2) :: rest, e)
                  | _, _ => ([], Throw IndexError)
                  end
                else scan_section data pos
            end
          else scan_section data pos
      end
  end.

(** [iter_jpeg_sections(data)].  Each turn of the loop moves [pos] forward
    by two bytes at least, so the fuel is enough
    ([jpeg_reader_terminates]). *)
Definition iter_jpeg_sections (data : bytes) : list (Z * Z) * ending :=
  if list_eq_dec Z.eq_dec (slice data 0 2) [0xFF; 0xD8]
  then sections_from (S (length data)) data 2
  else ([], Throw Invalid_JPEG).

(** [data[b:b+2] in (b'\xFF\xDA', b'\xFF\xC0', b'\xFF\xDB')]. *)
Definition kept (marker : bytes) : bool :=
  if list_eq_dec Z.eq_dec marker [0xFF; 0xDA] then true
  else if list_eq_dec Z.eq_dec marker [0xFF; 0xC0] then true
  else if list_eq_dec Z.eq_dec marker [0xFF; 0xDB] then true
  else false.

(** The loop of [trim_jpeg] over the sections yielded. *)
Definition trim_sections (data : bytes) (sections : list (Z * Z)) (res : bytes) : bytes :=
  fold_left
    (fun res '(b, e) => if kept (slice data b (b + 2)) then res ++ slice data b e else res)
    sections res.

(** [trim_jpeg(data)]: the [for] statement takes every section before it
    sees how the generator ends. *)
Definition trim_jpeg (data : bytes) : result bytes :=
  match iter_jpeg_sections data with
  | (sections, Stop) => Done (trim_sections data sections [0xFF; 0xD8])
  | (_, Throw e) => Failed e
  | (_, Starved) => Unfinished
  end.

(** [data[b:b+2] == b'\xFF\xDB']. *)
Definition is_dqt (marker : bytes) : bool :=
  if list_eq_dec Z.eq_dec marker [0xFF; 0xDB] then true else false.

(** [any(... for b,e in sections)]: [any] stops at the first section that
    answers [True], and sees how the generator ends only when none does. *)
Fixpoint any_dqt (data : bytes) (sections : list (Z * Z)) (e : ending) : result bool :=
  match sections with
  | (b, _) :: rest =>
      if is_dqt (slice data b (b + 2)) then Done true else any_dqt data rest e
  | [] =>
      match e with
      | Stop => Done false
      | Throw x => Failed x
      | Starved => Unfinished
      end
  end.

Definition has_qtables (data : bytes) : result bool :=
  let '(sections, e) := iter_jpeg_sections data in any_dqt data sections e.

(** A marker segment: [0xFF], a marker other than the scan's, a 16-bit
    big-endian length, and the bytes the length counts after itself. *)
Definition is_segment (s : bytes) : Prop :=
  exists m hi lo body,
    s = 0xFF :: m :: hi :: lo :: body
    /\ m <> 0xDA
    /\ len s = Z.lor (Z.shiftl hi 8) lo + 2.

(** The scan: its marker and all that follows. *)
Definition is_scan (s : bytes) : Prop := exists body, s = 0xFF :: 0xDA :: body.

(** The sections of the segments [segs], laid out from [pos]. *)
Fixpoint segment_spans (pos : Z) (segs : list bytes) : list (Z * Z) :=
  match segs with
  | [] => []
  | s :: segs' => (pos, pos + len s) :: segment_spans (pos + len s) segs'
  end.

(** The first two bytes of a section. *)
Definition marker (s : bytes) : bytes := firstn 2 s.

End Jpeg.

(** ** Sending a page line by line *)

(** [data.split(b"\n")]. *)
Fixpoint split_lines (data : bytes) : list bytes :=
  match data with
  | [] => [[]]
  | b :: rest =>
      if b =? 0x0A then [] :: split_lines rest
      else match split_lines rest with
           | line :: lines => (b :: line) :: lines
           | [] => [[b]]
           end
  end.

(** One turn of the loop of [send_vdt] on the state [(chunk, count, sent)],
    [sent] being the messages given to [ws_conn.send] so far. *)
Definition send_vdt_step (st : bytes * Z * list bytes) (line : bytes)
  : bytes * Z * list bytes :=
  let '(chunk, count, sent) := st in
  let chunk := chunk ++ (line ++ [0x0A]) in
  let count := count + 1 in
  if 10 <=? count then ([], 0, sent ++ [chunk]) else (chunk, count, sent).

(** [send_vdt(ws_conn, data)]: the messages given to [ws_conn.send], in
    order, when every [send] returns. *)
Definition send_vdt (data : bytes) : list bytes :=
  let '(chunk, _, sent) := fold_left send_vdt_step (split_lines data) ([], 0, []) in
  match chunk with
  | [] => sent
  | _ => sent ++ [chunk]
  end.

(** The number of line ends in a message. *)
Definition newlines (msg : bytes) : Z := len (filter (Z.eqb 0x0A) msg).

(** ** Reading an artifact *)

(** Modelled from the spec: a reader of a whole artifact, frames written
    back to back, which the source does not contain.  It reads the four
    bytes [ESC, 'p', pageMarker, instructionMarker], the Length field, then
    as many bytes as the Length says: the opcode and the chunk; and so on
    to the end of the artifact. *)
Fixpoint parse_stream (fuel : nat) (bs : bytes) : option (list (Z * bytes)) :=
  match fuel with
  | O => None
  | S fuel' =>
      match bs with
      | [] => Some []
      | esc :: p :: pm :: pi :: rest =>
          if (esc =? 0x1B) && (p =? 0x70) && (pm =? PM) && (pi =? PI) then
            match decode_length rest with
            | Some (n, tail) =>
                if (1 <=? n) && (n <=? len tail) then
                  match firstn (Z.to_nat n) tail with
                  | code :: chunk =>
                      match parse_stream fuel' (skipn (Z.to_nat n) tail) with
                      | Some fs => Some ((code, chunk) :: fs)
                      | None => None
                      end
                  | [] => None
                  end
                else None
            | None => None
            end
          else None
      | _ => None
      end
  end.

(** The chunks of the payload frames, each one put through the inverse of
    the 6-bit-safe transform, concatenated in frame order. *)
Definition untranslated_payload (fs : list (Z * bytes)) : bytes :=
  concat (map (fun f => untranslate (snd f))
              (filter (fun f => existsb (Z.eqb (fst f)) [0x52; 0x53]) fs)).

(** ** Sizes inside the canvas *)

(** The float [1.0]. *)
Definition float_one : spec_float := S754_finite false 4503599627370496 (-52).

Definition is_one (f : spec_float) : bool :=
  match f with
  | S754_finite false m e => (Zpos m =? 4503599627370496) && (e =? -52)
  | _ => false
  end.

(** A side [D] of an image against the side [L] of the canvas: the
    quotient [L / D] is [1.0] or more than 1, and [D * 1.0] rounds to [D]. *)
Definition side_fits (L D : Z) : bool :=
  match int_truediv L D with
  | Return a => is_one a || py_lt (PyInt 1) (PyFloat a)
  | _ => false
  end
  && match (s <- py_mul (PyInt D) (PyFloat float_one) ;; py_round s) with
     | Return z => z =? D
     | _ => false
     end.

(** A coordinate [a] over the side [L] of the canvas is written as a
    normalized fraction of six bytes. *)
Definition fraction_fits (a L : Z) : bool :=
  match (n <- fraction a L ;; encode_normalized n) with
  | Return bs => len bs =? 6
  | _ => false
  end.

Definition fraction_075_fits (a L : Z) : bool :=
  match (n <- fraction_075 a L ;; encode_normalized n) with
  | Return bs => len bs =? 6
  | _ => false
  end.

(* ================================================================== *)
(** * Theorems *)
(* ================================================================== *)

(** ** Loops and fuel *)

Lemma while_fuel_mono {S : Type} (cond : S -> bool) (body : S -> S) :
  forall fuel fuel' s s',
    (fuel <= fuel')%nat ->
    while fuel cond body s = Return s' ->
    while fuel' cond body s = Return s'.
Proof.
  induction fuel as [|fuel IH]; intros fuel' s s' Hle Hrun; [discriminate|].
  destruct fuel' as [|fuel']; [lia|].
  cbn in *. destruct (cond s); [|assumption].
  apply IH; [lia|assumption].
Qed.

Lemma while_no_raise {S : Type} (cond : S -> bool) (body : S -> S) :
  forall fuel s e, while fuel cond body s <> Raise e.
Proof.
  induction fuel as [|fuel IH]; intros s e; cbn; [discriminate|].
  destruct (cond s); [apply IH|discriminate].
Qed.

Lemma while_exit {S : Type} (cond : S -> bool) (body : S -> S) :
  forall fuel s s', while fuel cond body s = Return s' -> cond s' = false.
Proof.
  induction fuel as [|fuel IH]; intros s s' Hrun; cbn in Hrun; [discriminate|].
  destruct (cond s) eqn:Hc; [eauto|].
  injection Hrun as <-. assumption.
Qed.

(** ** Length field *)

Lemma base32_split (v : Z) : v = Z.shiftr v 5 * 32 + Z.land v 31.
Proof.
  rewrite Z.shiftr_div_pow2 by lia.
  change 31 with (Z.ones 5). rewrite Z.land_ones by lia.
  change (2 ^ 5) with 32. pose proof (Z.div_mod v 32). lia.
Qed.

Lemma land31_bounds (v : Z) : 0 <= Z.land v 31 < 32.
Proof.
  change 31 with (Z.ones 5). rewrite Z.land_ones by lia.
  apply Z.mod_pos_bound. reflexivity.
Qed.

Lemma last_digit_low (v : Z) :
  Z.land (Z.lor (Z.land v 31) (Z.shiftl 1 6)) 31 = Z.land v 31.
Proof.
  rewrite Z.land_lor_distr_l, <- Z.land_assoc.
  change (Z.land 31 31) with 31. change (Z.land (Z.shiftl 1 6) 31) with 0.
  apply Z.lor_0_r.
Qed.

Lemma last_digit_stops (v : Z) :
  Z.testbit (Z.lor (Z.land v 31) (Z.shiftl 1 6)) 5 = false.
Proof.
  rewrite Z.lor_spec, Z.land_spec.
  change (Z.testbit 31 5) with false. change (Z.testbit (Z.shiftl 1 6) 5) with false.
  rewrite andb_false_r. reflexivity.
Qed.

Lemma cont_digit_low (v : Z) :
  Z.land (Z.lor (Z.lor (Z.land v 31) (Z.shiftl 1 6)) (Z.shiftl 1 5)) 31 = Z.land v 31.
Proof.
  rewrite Z.land_lor_distr_l, last_digit_low.
  change (Z.land (Z.shiftl 1 5) 31) with 0. apply Z.lor_0_r.
Qed.

Lemma cont_digit_continues (v : Z) :
  Z.testbit (Z.lor (Z.lor (Z.land v 31) (Z.shiftl 1 6)) (Z.shiftl 1 5)) 5 = true.
Proof.
  rewrite Z.lor_spec. change (Z.testbit (Z.shiftl 1 5) 5) with true.
  apply orb_true_r.
Qed.

Lemma digit_is_byte (v : Z) (first : bool) :
  is_byte (let tmp := Z.lor (Z.land v 31) (Z.shiftl 1 6) in
           if negb first then Z.lor tmp (Z.shiftl 1 5) else tmp).
Proof.
  pose proof (land31_bounds v) as Hb.
  assert (Hcases : exists k, (k < 32)%nat /\ Z.land v 31 = Z.of_nat k).
  { exists (Z.to_nat (Z.land v 31)). lia. }
  destruct Hcases as (k & Hk & ->). unfold is_byte.
  do 32 (destruct k as [|k]; [destruct first; cbn; lia|]). lia.
Qed.

(** The loop after its first turn: every digit it appends carries the
    continuation bit, and a decoder that has read [acc] reads them as the
    base-32 digits of [value]. *)
Lemma encode_length_loop_cont :
  forall n value out,
    0 <= value < 32 ^ Z.of_nat n ->
    exists ds,
      while (S n) encode_length_cond encode_length_body (value, false, out)
        = Return (0, false, out ++ ds)
      /\ Forall is_byte ds
      /\ forall acc tail,
          decode_length_digits (rev ds ++ tail) acc
          = decode_length_digits tail (acc * 32 ^ len ds + value).
Proof.
  induction n as [|n IH]; intros value out Hv.
  - assert (value = 0) by (cbn in Hv; lia). subst value.
    exists []. cbn. rewrite app_nil_r. repeat split; [constructor|].
    intros acc tail. f_equal. unfold len. cbn. lia.
  - destruct (Z.eq_dec value 0) as [->|Hnz].
    + exists []. cbn. rewrite app_nil_r. repeat split; [constructor|].
      intros acc tail. f_equal. unfold len. cbn. lia.
    + assert (Hstep : while (S (S n)) encode_length_cond encode_length_body (value, false, out)
                      = while (S n) encode_length_cond encode_length_body
                          (encode_length_body (value, false, out))).
      { change (while (S (S n)) encode_length_cond encode_length_body (value, false, out))
          with (if encode_length_cond (value, false, out)
                then while (S n) encode_length_cond encode_length_body
                       (encode_length_body (value, false, out))
                else Return (value, false, out)).
        unfold encode_length_cond at 1. destruct (Z.eqb_spec value 0); [contradiction|reflexivity]. }
      rewrite Hstep. unfold encode_length_body at 2.
      set (d := Z.lor (Z.lor (Z.land value 31) (Z.shiftl 1 6)) (Z.shiftl 1 5)).
      cbn [negb].
      assert (Hq : 0 <= Z.shiftr value 5 < 32 ^ Z.of_nat n).
      { rewrite Z.shiftr_div_pow2 by lia. change (2 ^ 5) with 32.
        rewrite Nat2Z.inj_succ, Z.pow_succ_r in Hv by lia.
        split; [apply Z.div_pos; lia|apply Z.div_lt_upper_bound; lia]. }
      destruct (IH (Z.shiftr value 5) (out ++ [d]) Hq) as (ds & Hrun & Hbytes & Hdec).
      exists (d :: ds). split; [|split].
      * etransitivity; [exact Hrun|]. f_equal. f_equal. rewrite <- app_assoc. reflexivity.
      * constructor; [|assumption]. apply (digit_is_byte value false).
      * intros acc tail. cbn [rev]. rewrite <- app_assoc. rewrite Hdec.
        cbn [app decode_length_digits]. unfold d.
        rewrite cont_digit_continues, cont_digit_low. f_equal.
        unfold len. cbn [length]. rewrite Nat2Z.inj_succ, Z.pow_succ_r by lia.
        pose proof (base32_split value). unfold len in *. lia.
Qed.

Lemma log2_fuel (value : Z) :
  0 <= value -> value < 32 ^ Z.of_nat (S (Z.to_nat (Z.log2 value))).
Proof.
  intros Hv. destruct (Z.eq_dec value 0) as [->|Hnz]; [reflexivity|].
  pose proof (Z.log2_nonneg value) as Hl.
  pose proof (Z.log2_spec value ltac:(lia)) as [_ Hub].
  rewrite Nat2Z.inj_succ, Z2Nat.id by lia.
  eapply Z.lt_le_trans; [exact Hub|].
  change 32 with (2 ^ 5). rewrite <- Z.pow_mul_r by lia.
  apply Z.pow_le_mono_r; lia.
Qed.

(** The encoding of a positive length: the sentinel, the digits that carry
    the continuation bit, then the least-significant digit, which does not;
    and what the decoder makes of it at the head of a stream. *)
Lemma encode_length_positive (value : Z) :
  0 < value ->
  exists bs,
    encode_length value = Return bs
    /\ wf_bytes bs
    /\ forall tail, decode_length (bs ++ tail) = Some (value, tail).
Proof.
  intros Hpos. unfold encode_length, encode_length_fuel.
  set (n := S (Z.to_nat (Z.log2 value))).
  change (while (S n) encode_length_cond encode_length_body (value, true, []))
    with (if encode_length_cond (value, true, [])
          then while n encode_length_cond encode_length_body
                 (encode_length_body (value, true, []))
          else Return (value, true, [])).
  unfold encode_length_cond at 1. destruct (Z.eqb_spec value 0) as [|_]; [lia|].
  cbn [negb]. unfold encode_length_body at 2. cbn [negb app].
  set (d0 := Z.lor (Z.land value 31) (Z.shiftl 1 6)).
  assert (Hq : 0 <= Z.shiftr value 5 < 32 ^ Z.of_nat (Z.to_nat (Z.log2 value))).
  { rewrite Z.shiftr_div_pow2 by lia. change (2 ^ 5) with 32.
    pose proof (log2_fuel value ltac:(lia)) as Hub.
    rewrite Nat2Z.inj_succ, Z.pow_succ_r in Hub by lia.
    split; [apply Z.div_pos; lia|apply Z.div_lt_upper_bound; lia]. }
  destruct (encode_length_loop_cont _ _ [d0] Hq) as (ds & Hrun & Hbytes & Hdec).
  exists (rev (([d0] ++ ds) ++ [0xFF])). split.
  { etransitivity; [apply f_equal2; [exact Hrun|reflexivity]|reflexivity]. }
  rewrite !rev_app_distr. cbn [rev app]. split.
  - constructor; [unfold is_byte; lia|].
    apply Forall_app. split; [apply Forall_rev; assumption|].
    constructor; [apply (digit_is_byte value true)|constructor].
  - intros tail. unfold decode_length. cbn [app Z.eqb Pos.eqb].
    assert (Hgo : decode_length_digits ((rev ds ++ [d0]) ++ tail) 0 = Some (value, tail)).
    { rewrite <- app_assoc, Hdec. cbn [app decode_length_digits]. unfold d0.
      rewrite last_digit_stops, last_digit_low. f_equal. f_equal.
      pose proof (base32_split value). lia. }
    destruct ((rev ds ++ [d0]) ++ tail) eqn:Hshape; [|exact Hgo].
    destruct (rev ds); discriminate.
Qed.

Lemma encode_length_zero : encode_length 0 = Return [0xFF].
Proof. reflexivity. Qed.

(** On a negative [value] the loop never stops: [value >> 5] stays negative. *)
Lemma encode_length_negative_diverges (fuel : nat) (value : Z) :
  value < 0 -> encode_length_fuel fuel value = Diverge.
Proof.
  intros Hneg. unfold encode_length_fuel.
  assert (Hloop : forall fuel v first out,
             v < 0 -> while fuel encode_length_cond encode_length_body (v, first, out) = Diverge).
  { clear. induction fuel as [|fuel IH]; intros v first out Hv; [reflexivity|].
    cbn [while encode_length_cond encode_length_body].
    destruct (Z.eqb_spec v 0); [lia|]. cbn [negb]. apply IH.
    apply Z.shiftr_neg. assumption. }
  rewrite Hloop by assumption. reflexivity.
Qed.

(** Whatever fuel lets the loop stop gives the result of [encode_length]. *)
Lemma encode_length_fuel_enough (fuel : nat) (value : Z) (bs : bytes) :
  encode_length_fuel fuel value = Return bs -> encode_length value = Return bs.
Proof.
  intros Hrun.
  destruct (Z.ltb_spec value 0) as [Hneg|Hnn].
  { rewrite encode_length_negative_diverges in Hrun by assumption. discriminate. }
  unfold encode_length, encode_length_fuel in *.
  destruct (while fuel _ _ _) as [st| |] eqn:Hw; try discriminate.
  assert (Hret : exists st', while (S (S (Z.to_nat (Z.log2 value))))
                   encode_length_cond encode_length_body (value, true, []) = Return st').
  { destruct (Z.eq_dec value 0) as [->|Hnz]; [eexists; reflexivity|].
    destruct (encode_length_positive value ltac:(lia)) as (bs' & Hbs & _).
    unfold encode_length, encode_length_fuel in Hbs.
    destruct (while (S (S (Z.to_nat (Z.log2 value)))) encode_length_cond
                encode_length_body (value, true, [])) as [st'| |];
      [eauto|discriminate|discriminate]. }
  destruct Hret as (st' & Hst').
  destruct (Nat.le_ge_cases fuel (S (S (Z.to_nat (Z.log2 value))))) as [Hle|Hge].
  - rewrite (while_fuel_mono _ _ _ _ _ _ Hle Hw). exact Hrun.
  - rewrite Hst'. rewrite (while_fuel_mono _ _ _ _ _ _ Hge Hst') in Hw.
    injection Hw as ->. exact Hrun.
Qed.

(** C1.  For every non-negative integer [v] the length encoder returns, and
    the decoder (skip the sentinel [0xFF], then read base-32 digits,
    most-significant first, while the continuation bit [0x20] is set) reads
    [v] back from its output, with nothing left; the encoding of [0] is the
    single byte [0xFF]. *)
Theorem encode_length_roundtrip (v : Z) (Hv : 0 <= v) :
  (exists bs,
      encode_length v = Return bs
      /\ wf_bytes bs
      /\ decode_length bs = Some (v, []))
  /\ encode_length 0 = Return [0xFF].
Proof.
  split; [|reflexivity].
  destruct (Z.eq_dec v 0) as [->|Hnz].
  - exists [0xFF]. repeat split.
    constructor; [unfold is_byte; lia|constructor].
  - destruct (encode_length_positive v ltac:(lia)) as (bs & Henc & Hwf & Hdec).
    exists bs. repeat split; try assumption.
    specialize (Hdec []). rewrite app_nil_r in Hdec. exact Hdec.
Qed.

Lemma encode_length_roundtrip_witness :
  (exists bs,
      encode_length 257 = Return bs
      /\ wf_bytes bs
      /\ decode_length bs = Some (257, []))
  /\ encode_length 0 = Return [0xFF].
Proof. apply (encode_length_roundtrip 257). lia. Defined.

(** ** Integer *)

Lemma fits_spec (number nbits : Z) :
  fits number nbits = true <-> - 2 ^ (nbits - 1) <= number < 2 ^ (nbits - 1).
Proof.
  unfold fits. rewrite Z.shiftl_1_l, andb_true_iff, Z.leb_le, Z.ltb_lt. tauto.
Qed.

Lemma fits_mono (number nbits nbits' : Z) :
  1 <= nbits <= nbits' -> fits number nbits = true -> fits number nbits' = true.
Proof.
  rewrite !fits_spec. intros Hle Hfit.
  assert (2 ^ (nbits - 1) <= 2 ^ (nbits' - 1)) by (apply Z.pow_le_mono_r; lia).
  lia.
Qed.

(** The search of the bit width: from [nbits], in steps of 7, the loop stops
    at the first width that fits. *)
Lemma find_nbits (number : Z) :
  forall fuel nbits,
    1 <= nbits ->
    fits number (nbits + 7 * Z.of_nat fuel) = true ->
    exists r,
      while (S fuel) (fun nbits => negb (fits number nbits)) (fun nbits => nbits + 7) nbits
        = Return r
      /\ nbits <= r
      /\ (r - nbits) mod 7 = 0
      /\ fits number r = true
      /\ forall m, nbits <= m < r -> (m - nbits) mod 7 = 0 -> fits number m = false.
Proof.
  assert (Hself : forall b, (b - b) mod 7 = 0)
    by (intros b; rewrite Z.sub_diag; reflexivity).
  induction fuel as [|fuel IH]; intros nbits Hpos Hfit.
  - replace (nbits + 7 * Z.of_nat 0) with nbits in Hfit by lia.
    exists nbits. cbn [while]. rewrite Hfit. cbn [negb].
    split; [reflexivity|]. split; [lia|]. split; [apply Hself|].
    split; [first [assumption|reflexivity]|]. intros m Hm. lia.
  - cbn [while]. destruct (fits number nbits) eqn:Hhere; cbn [negb].
    + exists nbits.
      split; [reflexivity|]. split; [lia|]. split; [apply Hself|].
      split; [first [assumption|reflexivity]|]. intros m Hm. lia.
    + destruct (IH (nbits + 7)) as (r & Hrun & Hle & Hmod & Hr & Hmin).
      * lia.
      * rewrite <- Hfit. f_equal. lia.
      * exists r. split; [exact Hrun|]. split; [lia|]. split; [|split].
        -- replace (r - nbits) with ((r - (nbits + 7)) + 1 * 7) by lia.
           rewrite Z.mod_add by lia. assumption.
        -- assumption.
        -- intros m Hm Hmm. destruct (Z.eq_dec m nbits) as [->|Hne]; [assumption|].
           assert (Hk : exists k, m - nbits = 7 * k).
           { exists ((m - nbits) / 7). pose proof (Z.div_mod (m - nbits) 7). lia. }
           destruct Hk as (k & Hk).
           apply Hmin; [lia|].
           replace (m - (nbits + 7)) with ((k - 1) * 7) by lia.
           apply Z.mod_mul. lia.
Qed.

Lemma abs_fits (number : Z) :
  fits number (7 + 7 * Z.of_nat (S (Z.to_nat (Z.log2 (Z.abs number))))) = true.
Proof.
  apply fits_spec.
  pose proof (Z.log2_nonneg (Z.abs number)) as Hl.
  rewrite Nat2Z.inj_succ, Z2Nat.id by lia.
  set (e := 7 + 7 * Z.succ (Z.log2 (Z.abs number)) - 1).
  assert (Hub : Z.abs number < 2 ^ e).
  { destruct (Z.eq_dec (Z.abs number) 0) as [->|Hnz].
    - apply Z.pow_pos_nonneg; unfold e; lia.
    - pose proof (Z.log2_spec (Z.abs number) ltac:(lia)) as [_ Hub].
      eapply Z.lt_le_trans; [exact Hub|].
      apply Z.pow_le_mono_r; unfold e; lia. }
  lia.
Qed.

(** The positions [reversed(range(0, 7 * k, 7))]. *)
Lemma reversed_range_step_7 (k : nat) :
  reversed_range_step (7 * Z.of_nat k) 7 = rev (map (fun j => Z.of_nat j * 7) (seq 0 k)).
Proof.
  unfold reversed_range_step, range_step. do 3 f_equal.
  replace (7 * Z.of_nat k + 7 - 1) with (6 + Z.of_nat k * 7) by lia.
  rewrite Z.div_add by lia. change (6 / 7) with 0. lia.
Qed.

(** The big-endian 7-bit digit groups of [u] hold [u] on [7 * k] bits. *)
Lemma be7_digits (u : Z) :
  forall k acc,
    fold_left (fun acc d => acc * 128 + Z.land d 0x7F)
      (map (fun i => Z.land (Z.shiftr u i) 0x7F)
         (rev (map (fun j => Z.of_nat j * 7) (seq 0 k))))
      acc
    = acc * 2 ^ (7 * Z.of_nat k) + u mod 2 ^ (7 * Z.of_nat k).
Proof.
  induction k as [|k IH]; intros acc.
  - cbn. rewrite Z.mod_1_r. lia.
  - rewrite seq_S, map_app, rev_app_distr. cbn [map rev app fold_left Nat.add].
    rewrite IH. rewrite <- Z.land_assoc. change (Z.land 127 127) with 127.
    change 127 with (Z.ones 7). rewrite Z.land_ones by lia.
    rewrite Z.shiftr_div_pow2 by lia.
    replace (7 * Z.of_nat (S k)) with (7 * Z.of_nat k + 7) by lia.
    rewrite Z.pow_add_r by lia.
    rewrite (Z.rem_mul_r u (2 ^ (7 * Z.of_nat k)) (2 ^ 7)) by (try apply Z.pow_nonzero; lia).
    replace (Z.of_nat k * 7) with (7 * Z.of_nat k) by lia. ring.
Qed.

Lemma be7_digits_bytes (u : Z) (positions : list Z) :
  wf_bytes (map (fun i => Z.land (Z.shiftr u i) 0x7F) positions).
Proof.
  apply Forall_forall. intros b Hb. apply in_map_iff in Hb as (i & <- & _).
  change 127 with (Z.ones 7). rewrite Z.land_ones by lia.
  pose proof (Z.mod_pos_bound (Z.shiftr u i) (2 ^ 7) ltac:(lia)).
  unfold is_byte. change (2 ^ 7) with 128 in *. lia.
Qed.

(** What [encode_integer] does with the width the loop finds. *)
Lemma encode_integer_with (number : Z) (raw : bool) :
  exists k : nat,
    let nbits := 7 * Z.of_nat k in
    (1 <= k)%nat
    /\ - 2 ^ (nbits - 1) <= number < 2 ^ (nbits - 1)
    /\ (forall m, m mod 7 = 0 -> - 2 ^ (m - 1) <= number < 2 ^ (m - 1) -> nbits <= m)
    /\ encode_integer number raw =
       (let u := if number <? 0 then number + 2 ^ nbits else number in
        data <- (if negb raw
                 then (cnt <- bytes_of_int (nbits / 7) ;; Return ([0x40] ++ cnt))
                 else Return []) ;;
        Return (data ++ map (fun i => Z.land (Z.shiftr u i) 0x7F)
                          (rev (map (fun j => Z.of_nat j * 7) (seq 0 k))))).
Proof.
  destruct (find_nbits number (S (Z.to_nat (Z.log2 (Z.abs number)))) 7 ltac:(lia)
              (abs_fits number)) as (r & Hrun & Hle & Hmod & Hfit & Hmin).
  assert (Hk : r = 7 * Z.of_nat (Z.to_nat (r / 7))).
  { pose proof (Z.div_mod r 7 ltac:(lia)) as Hdm.
    replace (r mod 7) with 0 in Hdm.
    - assert (0 <= r / 7) by (apply Z.div_pos; lia). lia.
    - replace r with ((r - 7) + 1 * 7) by lia. rewrite Z.mod_add by lia. lia. }
  exists (Z.to_nat (r / 7)). cbv zeta. rewrite <- Hk.
  split; [lia|]. split; [apply fits_spec; assumption|]. split.
  - intros m Hm Hrange.
    destruct (Z.le_gt_cases r m) as [|Hlt]; [assumption|exfalso].
    assert (Hm1 : 1 <= m).
    { destruct (Z.le_gt_cases 1 m) as [|Hm0]; [assumption|].
      rewrite Z.pow_neg_r in Hrange by lia. lia. }
    assert (Hm7 : 7 <= m).
    { pose proof (Z.div_mod m 7 ltac:(lia)) as Hdm. rewrite Hm in Hdm.
      assert (1 <= m / 7) by lia. lia. }
    apply fits_spec in Hrange. rewrite Hmin in Hrange; [discriminate|lia|].
    replace (m - 7) with (m + (-1) * 7) by lia. rewrite Z.mod_add by lia. assumption.
  - unfold encode_integer, encode_integer_fuel. rewrite Hrun. cbn [bind].
    rewrite Z.shiftl_1_l.
    replace (reversed_range_step r 7)
      with (reversed_range_step (7 * Z.of_nat (Z.to_nat (r / 7))) 7)
      by (rewrite <- Hk; reflexivity).
    rewrite reversed_range_step_7. reflexivity.
Qed.

Lemma twos_complement_wrap (number nbits : Z) :
  1 <= nbits ->
  - 2 ^ (nbits - 1) <= number < 2 ^ (nbits - 1) ->
  let u := if number <? 0 then number + 2 ^ nbits else number in
  0 <= u < 2 ^ nbits
  /\ (if u <? 2 ^ (nbits - 1) then u else u - 2 ^ nbits) = number.
Proof.
  intros Hpos Hrange.
  assert (Hdouble : 2 ^ nbits = 2 * 2 ^ (nbits - 1)).
  { replace nbits with (Z.succ (nbits - 1)) at 1 by lia. apply Z.pow_succ_r. lia. }
  assert (0 < 2 ^ (nbits - 1)) by (apply Z.pow_pos_nonneg; lia).
  cbv zeta. destruct (Z.ltb_spec number 0).
  - split; [lia|]. destruct (Z.ltb_spec (number + 2 ^ nbits) (2 ^ (nbits - 1))); lia.
  - split; [lia|]. destruct (Z.ltb_spec number (2 ^ (nbits - 1))); lia.
Qed.

(** The raw form: the digit groups alone, for every integer. *)
Lemma encode_integer_raw (number : Z) :
  exists ds, encode_integer number true = Return ds /\ wf_bytes ds.
Proof.
  destruct (encode_integer_with number true) as (k & _ & _ & _ & Henc).
  cbv zeta in Henc. cbn [negb bind app] in Henc.
  eexists. split; [exact Henc|]. apply be7_digits_bytes.
Qed.

(** A number that needs more than 255 digit groups has no header: the byte
    count does not fit a byte. *)
Lemma encode_integer_too_wide (number : Z) :
  number < - 2 ^ 1784 \/ 2 ^ 1784 <= number ->
  encode_integer number false = Raise ValueError.
Proof.
  intros Hwide.
  destruct (encode_integer_with number false) as (k & Hk & Hrange & _ & Henc).
  cbv zeta in Henc, Hrange. rewrite Henc. cbn [negb].
  replace (7 * Z.of_nat k / 7) with (Z.of_nat k)
    by (rewrite Z.mul_comm, Z.div_mul; lia).
  assert (Hbig : 256 <= Z.of_nat k).
  { destruct (Z.le_gt_cases 256 (Z.of_nat k)) as [|Hsmall]; [assumption|exfalso].
    assert (2 ^ (7 * Z.of_nat k - 1) <= 2 ^ 1784) by (apply Z.pow_le_mono_r; lia).
    lia. }
  unfold bytes_of_int. destruct (Z.ltb_spec (Z.of_nat k) 256); [lia|].
  rewrite andb_false_r. reflexivity.
Qed.

(** C2 as the spec states it, for every integer, fails at [2^1784], which
    needs 256 digit groups. *)
Lemma encode_integer_roundtrip_counterexample :
  ~ exists bs, encode_integer (2 ^ 1784) false = Return bs
               /\ decode_integer bs = Some (2 ^ 1784).
Proof.
  intros (bs & Henc & _).
  rewrite encode_integer_too_wide in Henc by (right; lia). discriminate.
Qed.

(** C2 (amended).  For every integer [n] with [-2^1784 <= n < 2^1784] the
    non-raw encoder returns the header [0x40], the count [nbits / 7] and
    [nbits / 7] big-endian 7-bit digit groups, where [nbits] is the smallest
    multiple of 7 with [n] in [[-2^(nbits-1), 2^(nbits-1))], and the decoder
    (header, then the digit groups read as a two's-complement number of
    [nbits] bits) gives [n] back. *)
Theorem encode_integer_roundtrip (n : Z) (Hn : - 2 ^ 1784 <= n < 2 ^ 1784) :
  exists nbits ds,
    encode_integer n false = Return (0x40 :: nbits / 7 :: ds)
    /\ wf_bytes (0x40 :: nbits / 7 :: ds)
    /\ len ds = nbits / 7
    /\ nbits mod 7 = 0
    /\ - 2 ^ (nbits - 1) <= n < 2 ^ (nbits - 1)
    /\ (forall m, m mod 7 = 0 -> - 2 ^ (m - 1) <= n < 2 ^ (m - 1) -> nbits <= m)
    /\ decode_integer (0x40 :: nbits / 7 :: ds) = Some n.
Proof.
  destruct (encode_integer_with n false) as (k & Hk & Hrange & Hmin & Henc).
  cbv zeta in Henc, Hrange, Hmin.
  set (nbits := 7 * Z.of_nat k) in *.
  assert (Hdiv : nbits / 7 = Z.of_nat k)
    by (unfold nbits; rewrite Z.mul_comm, Z.div_mul; lia).
  assert (Hsmall : nbits <= 1785).
  { apply (Hmin 1785); [reflexivity|]. change (1785 - 1) with 1784. lia. }
  set (u := if n <? 0 then n + 2 ^ nbits else n) in *.
  set (ds := map (fun i => Z.land (Z.shiftr u i) 0x7F)
               (rev (map (fun j => Z.of_nat j * 7) (seq 0 k)))) in *.
  assert (Hlen : len ds = Z.of_nat k).
  { unfold len, ds. rewrite length_map, length_rev, length_map, length_seq. reflexivity. }
  exists nbits, ds. rewrite Hdiv.
  assert (Hcount : bytes_of_int (Z.of_nat k) = Return [Z.of_nat k]).
  { unfold bytes_of_int. destruct (Z.leb_spec 0 (Z.of_nat k)); [|lia].
    destruct (Z.ltb_spec (Z.of_nat k) 256); [reflexivity|lia]. }
  split; [|split; [|split; [|split; [|split; [|split]]]]].
  - rewrite Henc, Hdiv. cbn [negb]. rewrite Hcount. reflexivity.
  - constructor; [unfold is_byte; lia|]. constructor; [unfold is_byte; lia|].
    apply be7_digits_bytes.
  - exact Hlen.
  - unfold nbits. rewrite Z.mul_comm. apply Z.mod_mul. lia.
  - exact Hrange.
  - exact Hmin.
  - unfold decode_integer. rewrite Hlen, !Z.eqb_refl. cbn [andb].
    fold nbits.
    destruct (twos_complement_wrap n nbits ltac:(lia) Hrange) as [Hu Hback].
    fold u in Hu, Hback.
    assert (Hval : be7_value ds = u).
    { unfold be7_value, ds. rewrite be7_digits. fold nbits.
      rewrite Z.mod_small by exact Hu. lia. }
    rewrite Hval, Hback. reflexivity.
Qed.

Lemma encode_integer_roundtrip_witness :
  exists nbits ds,
    encode_integer (-12345) false = Return (0x40 :: nbits / 7 :: ds)
    /\ wf_bytes (0x40 :: nbits / 7 :: ds)
    /\ len ds = nbits / 7
    /\ nbits mod 7 = 0
    /\ - 2 ^ (nbits - 1) <= -12345 < 2 ^ (nbits - 1)
    /\ (forall m, m mod 7 = 0 -> - 2 ^ (m - 1) <= -12345 < 2 ^ (m - 1) -> nbits <= m)
    /\ decode_integer (0x40 :: nbits / 7 :: ds) = Some (-12345).
Proof.
  apply (encode_integer_roundtrip (-12345)).
  split; [apply Z.leb_le; vm_compute; reflexivity|apply Z.ltb_lt; vm_compute; reflexivity].
Defined.

(** ** The 6-bit-safe transform *)

(** A property of bytes that holds on the 256 of them holds on a byte. *)
Lemma byte_cases (P : Z -> bool) :
  forallb P (map Z.of_nat (seq 0 256)) = true ->
  forall b, is_byte b -> P b = true.
Proof.
  intros Hall b Hb. rewrite forallb_forall in Hall. apply Hall.
  apply in_map_iff. exists (Z.to_nat b). split; [unfold is_byte in Hb; lia|].
  apply in_seq. unfold is_byte in Hb. lia.
Qed.

Lemma top2_bounds (b : Z) : is_byte b -> 0 <= Z.shiftr b 6 < 4.
Proof.
  intros Hb.
  pose proof (byte_cases (fun b => (0 <=? Z.shiftr b 6) && (Z.shiftr b 6 <? 4))
                ltac:(vm_compute; reflexivity) b Hb) as H.
  cbv beta in H. apply andb_true_iff in H as [H1 H2].
  apply Z.leb_le in H1. apply Z.ltb_lt in H2. lia.
Qed.

Lemma low6_range (b : Z) :
  is_byte b -> 0x40 <= Z.lor (Z.shiftl 1 6) (Z.land b 0x3F) <= 0x7F.
Proof.
  intros Hb.
  pose proof (byte_cases
                (fun b => (0x40 <=? Z.lor (Z.shiftl 1 6) (Z.land b 0x3F))
                          && (Z.lor (Z.shiftl 1 6) (Z.land b 0x3F) <=? 0x7F))
                ltac:(vm_compute; reflexivity) b Hb) as H.
  cbv beta in H. apply andb_true_iff in H as [H1 H2].
  apply Z.leb_le in H1. apply Z.leb_le in H2. lia.
Qed.

(** A byte is its top 2 bits and the low 6 bits its own output byte keeps. *)
Lemma byte_rebuild (b : Z) :
  is_byte b ->
  Z.lor (Z.shiftl (Z.shiftr b 6) 6) (Z.land (Z.lor (Z.shiftl 1 6) (Z.land b 0x3F)) 0x3F) = b.
Proof.
  intros Hb.
  pose proof (byte_cases
                (fun b => Z.lor (Z.shiftl (Z.shiftr b 6) 6)
                            (Z.land (Z.lor (Z.shiftl 1 6) (Z.land b 0x3F)) 0x3F) =? b)
                ltac:(vm_compute; reflexivity) b Hb) as H.
  cbv beta in H. apply Z.eqb_eq in H. exact H.
Qed.

Ltac four_cases t H :=
  let E := fresh in
  assert (E : t = 0 \/ t = 1 \/ t = 2 \/ t = 3) by lia;
  clear H; destruct E as [-> | [-> | [-> | ->]]].

(** The escape byte of a group: marker bit [0x40], the top 2 bits of the
    first byte at bits 4-5, of the second at bits 2-3, of the third at
    bits 0-1. *)
Lemma escape_fields (t0 t1 t2 : Z) :
  0 <= t0 < 4 -> 0 <= t1 < 4 -> 0 <= t2 < 4 ->
  let esc := Z.lor (Z.lor (Z.lor (Z.shiftl 1 6) (Z.shiftl t0 4)) (Z.shiftl t1 2))
               (Z.shiftl t2 0) in
  Z.land (Z.shiftr esc 4) 3 = t0
  /\ Z.land (Z.shiftr esc 2) 3 = t1
  /\ Z.land (Z.shiftr esc 0) 3 = t2
  /\ 0x40 <= esc <= 0x7F.
Proof.
  intros H0 H1 H2.
  four_cases t0 H0; four_cases t1 H1; four_cases t2 H2; vm_compute;
    intuition (try reflexivity; discriminate).
Qed.

Lemma translate_chunk_3 (a b c : Z) :
  translate_chunk [a; b; c] =
  [Z.lor (Z.lor (Z.lor (Z.shiftl 1 6) (Z.shiftl (Z.shiftr a 6) 4))
            (Z.shiftl (Z.shiftr b 6) 2)) (Z.shiftl (Z.shiftr c 6) 0);
   Z.lor (Z.shiftl 1 6) (Z.land a 0x3F);
   Z.lor (Z.shiftl 1 6) (Z.land b 0x3F);
   Z.lor (Z.shiftl 1 6) (Z.land c 0x3F)].
Proof. reflexivity. Qed.

Lemma translate_chunk_2 (a b : Z) :
  translate_chunk [a; b] =
  [Z.lor (Z.lor (Z.shiftl 1 6) (Z.shiftl (Z.shiftr a 6) 4)) (Z.shiftl (Z.shiftr b 6) 2);
   Z.lor (Z.shiftl 1 6) (Z.land a 0x3F);
   Z.lor (Z.shiftl 1 6) (Z.land b 0x3F)].
Proof. reflexivity. Qed.

Lemma translate_chunk_1 (a : Z) :
  translate_chunk [a] =
  [Z.lor (Z.shiftl 1 6) (Z.shiftl (Z.shiftr a 6) 4);
   Z.lor (Z.shiftl 1 6) (Z.land a 0x3F)].
Proof. reflexivity. Qed.

(** The escape byte of a short group is the one of the group filled up
    with zero bytes: the places of the missing bytes hold zero bits. *)
Lemma escape_short_2 (t0 t1 : Z) :
  Z.lor (Z.lor (Z.shiftl 1 6) (Z.shiftl t0 4)) (Z.shiftl t1 2)
  = Z.lor (Z.lor (Z.lor (Z.shiftl 1 6) (Z.shiftl t0 4)) (Z.shiftl t1 2)) (Z.shiftl 0 0).
Proof. change (Z.shiftl 0 0) with 0. rewrite Z.lor_0_r. reflexivity. Qed.

Lemma escape_short_1 (t0 : Z) :
  Z.lor (Z.shiftl 1 6) (Z.shiftl t0 4)
  = Z.lor (Z.lor (Z.lor (Z.shiftl 1 6) (Z.shiftl t0 4)) (Z.shiftl 0 2)) (Z.shiftl 0 0).
Proof.
  change (Z.shiftl 0 0) with 0. change (Z.shiftl 0 2) with 0.
  rewrite !Z.lor_0_r. reflexivity.
Qed.

(** Induction on a byte string, three bytes at a time. *)
Lemma list_ind3 {A : Type} (P : list A -> Prop) :
  P [] ->
  (forall a, P [a]) ->
  (forall a b, P [a; b]) ->
  (forall a b c rest, P rest -> P (a :: b :: c :: rest)) ->
  forall l, P l.
Proof.
  intros H0 H1 H2 H3.
  assert (Hall : forall n l, (length l <= n)%nat -> P l).
  { induction n as [|n IH]; intros l Hl.
    - destruct l; [exact H0|cbn in Hl; lia].
    - destruct l as [|a [|b [|c rest]]]; auto.
      apply H3. apply IH. cbn in Hl. lia. }
  intros l. apply (Hall (length l)). lia.
Qed.

Lemma untranslate_full_group (a b c : Z) (rest : bytes) :
  wf_bytes [a; b; c] ->
  untranslate (translate_chunk [a; b; c] ++ rest) = [a; b; c] ++ untranslate rest.
Proof.
  intros Hwf.
  apply Forall_cons_iff in Hwf as [Ha Hwf]. apply Forall_cons_iff in Hwf as [Hb Hwf].
  apply Forall_cons_iff in Hwf as [Hc _].
  rewrite translate_chunk_3. cbn [app untranslate]. f_equal.
  destruct (escape_fields _ _ _ (top2_bounds a Ha) (top2_bounds b Hb) (top2_bounds c Hc))
    as (E0 & E1 & E2 & _).
  unfold untranslate_group, enumerate. cbn [length seq map combine].
  change (4 - Z.shiftl (Z.of_nat 0) 1) with 4.
  change (4 - Z.shiftl (Z.of_nat 1) 1) with 2.
  change (4 - Z.shiftl (Z.of_nat 2) 1) with 0.
  rewrite E0, E1, E2.
  rewrite !byte_rebuild by assumption. reflexivity.
Qed.

Lemma untranslate_short_2 (a b : Z) :
  wf_bytes [a; b] -> untranslate (translate_chunk [a; b]) = [a; b].
Proof.
  intros Hwf.
  apply Forall_cons_iff in Hwf as [Ha Hwf]. apply Forall_cons_iff in Hwf as [Hb _].
  rewrite translate_chunk_2, escape_short_2. cbn [untranslate].
  destruct (escape_fields _ _ 0 (top2_bounds a Ha) (top2_bounds b Hb) ltac:(lia))
    as (E0 & E1 & _).
  unfold untranslate_group, enumerate. cbn [length seq map combine].
  change (4 - Z.shiftl (Z.of_nat 0) 1) with 4.
  change (4 - Z.shiftl (Z.of_nat 1) 1) with 2.
  rewrite E0, E1.
  rewrite !byte_rebuild by assumption. reflexivity.
Qed.

Lemma untranslate_short_1 (a : Z) :
  wf_bytes [a] -> untranslate (translate_chunk [a]) = [a].
Proof.
  intros Hwf. apply Forall_cons_iff in Hwf as [Ha _].
  rewrite translate_chunk_1, escape_short_1. cbn [untranslate].
  destruct (escape_fields _ 0 0 (top2_bounds a Ha) ltac:(lia) ltac:(lia)) as (E0 & _).
  unfold untranslate_group, enumerate. cbn [length seq map combine].
  change (4 - Z.shiftl (Z.of_nat 0) 1) with 4.
  rewrite E0.
  rewrite !byte_rebuild by assumption. reflexivity.
Qed.

(** The inverse transform undoes the transform, short last group or not. *)
Lemma untranslate_translate_groups (data : bytes) :
  wf_bytes data -> untranslate (translate_groups data) = data.
Proof.
  induction data as [|a|a b|a b c rest IH] using list_ind3; intros Hwf.
  - reflexivity.
  - apply untranslate_short_1. assumption.
  - apply untranslate_short_2. assumption.
  - cbn [translate_groups].
    assert (Hhead : wf_bytes [a; b; c] /\ wf_bytes rest).
    { change (a :: b :: c :: rest) with ([a; b; c] ++ rest) in Hwf.
      apply Forall_app in Hwf. exact Hwf. }
    destruct Hhead as [Hhead Hrest].
    rewrite untranslate_full_group by assumption. rewrite IH by assumption.
    reflexivity.
Qed.

Lemma translate_chunk_range (chunk : bytes) :
  wf_bytes chunk -> (0 < length chunk <= 3)%nat ->
  Forall (fun b => 0x40 <= b <= 0x7F) (translate_chunk chunk).
Proof.
  intros Hwf Hlen.
  destruct chunk as [|a [|b [|c [|d rest]]]]; cbn in Hlen; try lia.
  - apply Forall_cons_iff in Hwf as [Ha _].
    rewrite translate_chunk_1, escape_short_1.
    destruct (escape_fields _ 0 0 (top2_bounds a Ha) ltac:(lia) ltac:(lia)) as (_ & _ & _ & E).
    repeat constructor; try apply low6_range; try assumption; apply E.
  - apply Forall_cons_iff in Hwf as [Ha Hwf]. apply Forall_cons_iff in Hwf as [Hb _].
    rewrite translate_chunk_2, escape_short_2.
    destruct (escape_fields _ _ 0 (top2_bounds a Ha) (top2_bounds b Hb) ltac:(lia))
      as (_ & _ & _ & E).
    repeat constructor; try apply low6_range; try assumption; apply E.
  - apply Forall_cons_iff in Hwf as [Ha Hwf]. apply Forall_cons_iff in Hwf as [Hb Hwf].
    apply Forall_cons_iff in Hwf as [Hc _].
    rewrite translate_chunk_3.
    destruct (escape_fields _ _ _ (top2_bounds a Ha) (top2_bounds b Hb) (top2_bounds c Hc))
      as (_ & _ & _ & E).
    repeat constructor; try apply low6_range; try assumption; apply E.
Qed.

Lemma translate_groups_range (data : bytes) :
  wf_bytes data -> Forall (fun b => 0x40 <= b <= 0x7F) (translate_groups data).
Proof.
  induction data as [|a|a b|a b c rest IH] using list_ind3; intros Hwf.
  - constructor.
  - apply translate_chunk_range; [assumption|cbn; lia].
  - apply translate_chunk_range; [assumption|cbn; lia].
  - cbn [translate_groups].
    change (a :: b :: c :: rest) with ([a; b; c] ++ rest) in Hwf.
    apply Forall_app in Hwf as [Hhead Hrest].
    apply Forall_app. split; [|apply IH; assumption].
    apply translate_chunk_range; [assumption|cbn; lia].
Qed.

Lemma translate_groups_length (data : bytes) :
  len (translate_groups data)
  = 4 * (len data / 3) + (if len data mod 3 =? 0 then 0 else len data mod 3 + 1).
Proof.
  induction data as [|a|a b|a b c rest IH] using list_ind3.
  - reflexivity.
  - reflexivity.
  - reflexivity.
  - cbn [translate_groups]. rewrite translate_chunk_3.
    unfold len in *. cbn [length app]. rewrite !Nat2Z.inj_succ.
    replace (Z.succ (Z.succ (Z.succ (Z.of_nat (length rest)))))
      with (Z.of_nat (length rest) + 1 * 3) by lia.
    rewrite Z.div_add, Z.mod_add by lia.
    rewrite IH. lia.
Qed.

(** The loop of [translate_data], from the position [len done]. *)
Lemma translate_loop (data : bytes) :
  forall fuel done rest res,
    data = done ++ rest ->
    (length rest < fuel)%nat ->
    exists pos,
      while fuel
        (fun '(pos, res) => pos <? len data)
        (fun '(pos, res) => (pos + 3, res ++ translate_chunk (slice data pos (pos + 3))))
        (len done, res)
      = Return (pos, res ++ translate_groups rest).
Proof.
  induction fuel as [|fuel IH]; intros done rest res Hdata Hfuel; [lia|].
  assert (Hslice : slice data (len done) (len done + 3) = firstn 3 rest).
  { unfold slice, len. subst data.
    replace (Z.to_nat (Z.of_nat (length done) + 3 - Z.of_nat (length done))) with 3%nat by lia.
    rewrite Nat2Z.id, skipn_app, Nat.sub_diag, skipn_all. reflexivity. }
  assert (Hlen : len data = len done + len rest).
  { unfold len. subst data. rewrite length_app. lia. }
  cbn [while]. destruct rest as [|a rest1].
  - destruct (Z.ltb_spec (len done) (len data)) as [Hlt|_].
    + unfold len in *. cbn [length] in *. lia.
    + exists (len done). rewrite app_nil_r. reflexivity.
  - destruct (Z.ltb_spec (len done) (len data)) as [_|Hge].
    2:{ unfold len in *. cbn [length] in *. lia. }
    rewrite Hslice.
    destruct rest1 as [|b [|c rest3]].
    + (* one byte left *)
      destruct fuel as [|fuel]; [cbn in Hfuel; lia|]. cbn [while].
      destruct (Z.ltb_spec (len done + 3) (len data)) as [Hlt|_].
      * unfold len in *. cbn [length] in *. lia.
      * eexists. reflexivity.
    + (* two bytes left *)
      destruct fuel as [|fuel]; [cbn in Hfuel; lia|]. cbn [while].
      destruct (Z.ltb_spec (len done + 3) (len data)) as [Hlt|_].
      * unfold len in *. cbn [length] in *. lia.
      * eexists. reflexivity.
    + (* a full group *)
      cbn [firstn].
      destruct (IH (done ++ [a; b; c]) rest3 (res ++ translate_chunk [a; b; c]))
        as (pos & Hrun).
      * rewrite <- app_assoc. exact Hdata.
      * cbn [length] in Hfuel. lia.
      * exists pos.
        replace (len done + 3) with (len (done ++ [a; b; c]))
          by (unfold len; rewrite length_app; cbn [length]; lia).
        rewrite Hrun. cbn [translate_groups]. rewrite app_assoc. reflexivity.
Qed.

(** [translate_data] is total, and its result is the groups' translation. *)
Lemma translate_data_groups (data : bytes) :
  translate_data data = Return (translate_groups data).
Proof.
  unfold translate_data, translate_data_fuel.
  destruct (translate_loop data (S (length data)) [] data [] eq_refl ltac:(lia))
    as (pos & Hrun).
  change (len []) with 0 in Hrun. rewrite Hrun. reflexivity.
Qed.

(** The bytes after the full groups: the translation of the bytes after the
    full groups of three. *)
Lemma translate_groups_tail (data : bytes) :
  skipn (Z.to_nat (4 * (len data / 3))) (translate_groups data)
  = translate_groups (skipn (Z.to_nat (3 * (len data / 3))) data)
  /\ len (skipn (Z.to_nat (3 * (len data / 3))) data) = len data mod 3.
Proof.
  induction data as [|a|a b|a b c rest IH] using list_ind3.
  - split; reflexivity.
  - split; reflexivity.
  - split; reflexivity.
  - assert (Hdiv : len (a :: b :: c :: rest) / 3 = len rest / 3 + 1
                   /\ len (a :: b :: c :: rest) mod 3 = len rest mod 3).
    { unfold len. cbn [length]. rewrite !Nat2Z.inj_succ.
      replace (Z.succ (Z.succ (Z.succ (Z.of_nat (length rest)))))
        with (Z.of_nat (length rest) + 1 * 3) by lia.
      rewrite Z.div_add, Z.mod_add by lia. split; reflexivity. }
    destruct Hdiv as [-> ->].
    assert (Hq : 0 <= len rest / 3) by (apply Z.div_pos; unfold len; lia).
    replace (Z.to_nat (4 * (len rest / 3 + 1)))
      with (4 + Z.to_nat (4 * (len rest / 3)))%nat by lia.
    replace (Z.to_nat (3 * (len rest / 3 + 1)))
      with (3 + Z.to_nat (3 * (len rest / 3)))%nat by lia.
    cbn [translate_groups]. rewrite translate_chunk_3.
    cbn [Nat.add skipn app]. exact IH.
Qed.

Lemma translate_groups_short (tail : bytes) :
  (0 < length tail < 3)%nat -> translate_groups tail = translate_chunk tail.
Proof.
  intros Hlen. destruct tail as [|a [|b [|c rest]]]; cbn in Hlen; try lia; reflexivity.
Qed.

(** The escape byte of a short group has zero bits at the places of the
    bytes the group does not have. *)
Lemma escape_short_unused (tail : bytes) :
  wf_bytes tail ->
  (0 < length tail < 3)%nat ->
  exists esc,
    translate_chunk tail
    = esc :: map (fun bt => Z.lor (Z.shiftl 1 6) (Z.land bt 0x3F)) tail
    /\ Z.land esc (Z.ones (2 * (3 - len tail))) = 0.
Proof.
  intros Hwf Hlen. destruct tail as [|a [|b [|c rest]]]; cbn in Hlen; try lia.
  - apply Forall_cons_iff in Hwf as [Ha _].
    eexists. split; [reflexivity|].
    pose proof (top2_bounds a Ha) as Ht. cbn [enumerate fold_left combine map seq length].
    change (4 - Z.shiftl (Z.of_nat 0) 1) with 4.
    change (Z.ones (2 * (3 - len [a]))) with 15.
    four_cases (Z.shiftr a 6) Ht; reflexivity.
  - apply Forall_cons_iff in Hwf as [Ha Hwf]. apply Forall_cons_iff in Hwf as [Hb _].
    eexists. split; [reflexivity|].
    pose proof (top2_bounds a Ha) as Hta. pose proof (top2_bounds b Hb) as Htb.
    cbn [enumerate fold_left combine map seq length].
    change (4 - Z.shiftl (Z.of_nat 0) 1) with 4.
    change (4 - Z.shiftl (Z.of_nat 1) 1) with 2.
    change (Z.ones (2 * (3 - len [a; b]))) with 3.
    four_cases (Z.shiftr a 6) Hta; four_cases (Z.shiftr b 6) Htb; reflexivity.
Qed.

(** C7.  For every byte string whose length is divisible by 3, the inverse
    6-bit-safe transform (top 2 bits of a source byte from the escape byte
    of its group, low 6 bits from its own byte) applied to the output of
    [translate_data] gives the byte string back. *)
Theorem untranslate_translate (data : bytes)
    (Hwf : wf_bytes data) (Hlen : len data mod 3 = 0) :
  exists out,
    translate_data data = Return out
    /\ len out = 4 * (len data / 3)
    /\ untranslate out = data.
Proof.
  exists (translate_groups data). split; [apply translate_data_groups|]. split.
  - rewrite translate_groups_length, Hlen. cbn. lia.
  - apply untranslate_translate_groups. assumption.
Qed.

Lemma untranslate_translate_witness :
  exists out,
    translate_data [0xFF; 0x80; 0x41; 0xC0; 0x3F; 0x00] = Return out
    /\ len out = 4 * (len [0xFF; 0x80; 0x41; 0xC0; 0x3F; 0x00] / 3)
    /\ untranslate out = [0xFF; 0x80; 0x41; 0xC0; 0x3F; 0x00].
Proof.
  apply (untranslate_translate [0xFF; 0x80; 0x41; 0xC0; 0x3F; 0x00]).
  - repeat constructor; unfold is_byte; lia.
  - reflexivity.
Defined.

(** C10.  On every byte string, of length [n], [translate_data] returns;
    its output has 4 bytes for each of the [n / 3] full groups and, when
    [r = n mod 3] is not zero, a last group of [r + 1] bytes: an escape
    byte whose bits at the places of the missing bytes are zero, then the
    [r] bytes that carry the low 6 bits; every output byte lies in
    [[0x40, 0x7F]]; and the inverse transform gives the input back. *)
Theorem translate_data_total (data : bytes) (Hwf : wf_bytes data) :
  let n := len data in
  let r := n mod 3 in
  exists out,
    translate_data data = Return out
    /\ len out = 4 * (n / 3) + (if r =? 0 then 0 else r + 1)
    /\ (r <> 0 ->
        exists esc,
          skipn (Z.to_nat (4 * (n / 3))) out
          = esc :: map (fun bt => Z.lor (Z.shiftl 1 6) (Z.land bt 0x3F))
                     (skipn (Z.to_nat (3 * (n / 3))) data)
          /\ len (skipn (Z.to_nat (3 * (n / 3))) data) = r
          /\ Z.land esc (Z.ones (2 * (3 - r))) = 0)
    /\ Forall (fun b => 0x40 <= b <= 0x7F) out
    /\ untranslate out = data.
Proof.
  cbv zeta. exists (translate_groups data).
  split; [apply translate_data_groups|].
  split; [apply translate_groups_length|].
  split; [|split; [apply translate_groups_range; assumption
                  |apply untranslate_translate_groups; assumption]].
  intros Hr.
  destruct (translate_groups_tail data) as [Htail Hrest].
  set (tail := skipn (Z.to_nat (3 * (len data / 3))) data) in *.
  pose proof (Z.mod_pos_bound (len data) 3 ltac:(lia)) as Hbound.
  assert (Hshort : (0 < length tail < 3)%nat).
  { assert (0 < len tail < 3) by lia. unfold len in *. lia. }
  assert (Hwft : wf_bytes tail).
  { unfold wf_bytes in *. rewrite <- (firstn_skipn (Z.to_nat (3 * (len data / 3))) data) in Hwf.
    apply Forall_app in Hwf. apply Hwf. }
  destruct (escape_short_unused tail Hwft Hshort) as (esc & Hchunk & Hzero).
  exists esc. rewrite Htail. split; [|split].
  - rewrite <- Hchunk. apply translate_groups_short. exact Hshort.
  - exact Hrest.
  - rewrite <- Hrest. exact Hzero.
Qed.

Lemma translate_data_total_witness :
  let n := len [0xFF; 0x80; 0x41; 0xC0; 0x3F] in
  let r := n mod 3 in
  exists out,
    translate_data [0xFF; 0x80; 0x41; 0xC0; 0x3F] = Return out
    /\ len out = 4 * (n / 3) + (if r =? 0 then 0 else r + 1)
    /\ (r <> 0 ->
        exists esc,
          skipn (Z.to_nat (4 * (n / 3))) out
          = esc :: map (fun bt => Z.lor (Z.shiftl 1 6) (Z.land bt 0x3F))
                     (skipn (Z.to_nat (3 * (n / 3))) [0xFF; 0x80; 0x41; 0xC0; 0x3F])
          /\ len (skipn (Z.to_nat (3 * (n / 3))) [0xFF; 0x80; 0x41; 0xC0; 0x3F]) = r
          /\ Z.land esc (Z.ones (2 * (3 - r))) = 0)
    /\ Forall (fun b => 0x40 <= b <= 0x7F) out
    /\ untranslate out = [0xFF; 0x80; 0x41; 0xC0; 0x3F].
Proof.
  apply (translate_data_total [0xFF; 0x80; 0x41; 0xC0; 0x3F]).
  repeat constructor; unfold is_byte; lia.
Defined.

(** ** Frame chunker: the chunks *)

Lemma split_chunks_whole (data : bytes) (chunk_size : Z) :
  chunk_size <= 0 \/ data = [] -> split_chunks data chunk_size = [(data, true)].
Proof.
  intros [Hcs | ->]; unfold split_chunks.
  - destruct (Z.leb_spec chunk_size 0); [reflexivity|lia].
  - rewrite orb_true_r. reflexivity.
Qed.

Lemma slice_nat {A : Type} (data : list A) (k c : nat) :
  slice data (Z.of_nat k) (Z.of_nat k + Z.of_nat c) = firstn c (skipn k data).
Proof.
  unfold slice. rewrite Nat2Z.id. f_equal. lia.
Qed.

(** The generator, unfolded once: a chunk that is not the last, then the
    chunks of the rest. *)
Lemma split_chunks_step (data : bytes) (chunk_size : Z) :
  0 < chunk_size < len data ->
  split_chunks data chunk_size
  = (firstn (Z.to_nat chunk_size) data, false)
      :: split_chunks (skipn (Z.to_nat chunk_size) data) chunk_size.
Proof.
  intros Hcs. set (c := Z.to_nat chunk_size).
  assert (Hc : chunk_size = Z.of_nat c) by lia.
  assert (Hlen' : len (skipn c data) = len data - chunk_size).
  { unfold len in *. rewrite length_skipn. lia. }
  unfold split_chunks.
  destruct (Z.leb_spec chunk_size 0); [lia|].
  destruct (Z.eqb_spec (len data) 0); [lia|].
  destruct (Z.eqb_spec (len (skipn c data)) 0); [lia|].
  cbn [orb]. unfold range_step.
  replace (len data + chunk_size - 1) with ((len (skipn c data) + chunk_size - 1) + 1 * chunk_size) by lia.
  rewrite Z.div_add by lia.
  assert (Hq : 0 <= (len (skipn c data) + chunk_size - 1) / chunk_size) by (apply Z.div_pos; lia).
  rewrite Z2Nat.inj_add by lia. change (Z.to_nat 1) with 1%nat.
  rewrite Nat.add_comm. cbn [Nat.add seq map]. f_equal.
  - rewrite Z.mul_0_l, !Z.add_0_l. unfold slice. cbn [Z.to_nat skipn].
    rewrite Z.sub_0_r. fold c. f_equal.
    apply Z.leb_gt. unfold len in *. rewrite length_firstn. lia.
  - rewrite <- seq_shift, !map_map. apply map_ext. intros k.
    replace (Z.of_nat (S k) * chunk_size) with (Z.of_nat (c + k * c)) by nia.
    replace (Z.of_nat k * chunk_size) with (Z.of_nat (k * c)) by nia.
    rewrite Hc, !slice_nat.
    rewrite skipn_skipn.
    replace (k * c + c)%nat with (c + k * c)%nat by lia.
    f_equal. rewrite Hlen'.
    destruct (Z.leb_spec (len data) (Z.of_nat (c + k * c) + len (firstn c (skipn (c + k * c) data))));
      destruct (Z.leb_spec (len data - chunk_size)
                  (Z.of_nat (k * c) + len (firstn c (skipn (c + k * c) data)))); try reflexivity; lia.
Qed.

(** The generator on a buffer that fits one chunk. *)
Lemma split_chunks_last (data : bytes) (chunk_size : Z) :
  len data <= chunk_size -> split_chunks data chunk_size = [(data, true)].
Proof.
  intros Hfit.
  destruct (Z.leb_spec chunk_size 0) as [Hcs|Hcs];
    [apply split_chunks_whole; left; assumption|].
  destruct data as [|b data]; [apply split_chunks_whole; right; reflexivity|].
  unfold split_chunks.
  destruct (Z.leb_spec chunk_size 0); [lia|].
  destruct (Z.eqb_spec (len (b :: data)) 0) as [Hz|_]; [unfold len in Hz; cbn in Hz; lia|].
  cbn [orb]. unfold range_step.
  assert (Hone : (len (b :: data) + chunk_size - 1) / chunk_size = 1).
  { assert (0 < len (b :: data)) by (unfold len; cbn [length]; lia).
    symmetry. apply Z.div_unique with (r := len (b :: data) - 1); lia. }
  rewrite Hone. change (Z.to_nat 1) with 1%nat. cbn [seq map].
  rewrite Z.mul_0_l, !Z.add_0_l. unfold slice. cbn [Z.to_nat skipn]. rewrite Z.sub_0_r.
  rewrite firstn_all2 by (unfold len in Hfit; lia).
  destruct (Z.leb_spec (len (b :: data)) (len (b :: data))); [reflexivity|lia].
Qed.

(** The chunks of a buffer: they make up the buffer, only the last one is
    final, and each has at most [chunk_size] bytes when [chunk_size] is
    positive. *)
Lemma split_chunks_spec (chunk_size : Z) :
  forall (n : nat) (data : bytes),
    (length data <= n)%nat ->
    concat (map fst (split_chunks data chunk_size)) = data
    /\ (exists init last,
           split_chunks data chunk_size = init ++ [(last, true)]
           /\ Forall (fun c => snd c = false) init)
    /\ (0 < chunk_size ->
        Forall (fun c => len (fst c) <= chunk_size) (split_chunks data chunk_size)).
Proof.
  destruct (Z.leb_spec chunk_size 0) as [Hcs|Hcs].
  { intros n data _. rewrite split_chunks_whole by (left; assumption).
    cbn [map fst concat]. rewrite app_nil_r. split; [reflexivity|]. split; [|lia].
    exists [], data. split; [reflexivity|constructor]. }
  induction n as [|n IH]; intros data Hn.
  - destruct data; [|cbn in Hn; lia]. rewrite split_chunks_whole by (right; reflexivity).
    split; [reflexivity|]. split.
    + exists [], []. split; [reflexivity|constructor].
    + intros _. constructor; [unfold len; cbn; lia|constructor].
  - destruct (Z.le_gt_cases (len data) chunk_size) as [Hfit|Hmore].
    + rewrite split_chunks_last by assumption. cbn [map fst concat]. rewrite app_nil_r.
      split; [reflexivity|]. split.
      * exists [], data. split; [reflexivity|constructor].
      * intros _. constructor; [assumption|constructor].
    + rewrite split_chunks_step by lia.
      set (c := Z.to_nat chunk_size).
      destruct (IH (skipn c data)) as (Hcat & (init & last & Hsplit & Hinit) & Hsize).
      { rewrite length_skipn. unfold len in Hmore. lia. }
      cbn [map fst concat]. rewrite Hcat, firstn_skipn.
      split; [reflexivity|]. split.
      * exists ((firstn c data, false) :: init), last. rewrite Hsplit.
        split; [reflexivity|]. constructor; [reflexivity|assumption].
      * intros _. constructor; [|apply Hsize; assumption].
        cbn [fst]. unfold len. rewrite length_firstn. lia.
Qed.

Lemma split_chunks_concat (data : bytes) (chunk_size : Z) :
  concat (map fst (split_chunks data chunk_size)) = data.
Proof. apply (split_chunks_spec chunk_size (length data) data). lia. Qed.

(** ** Frame chunker: the frames *)

Lemma frame_returns (code : Z) (chunk : bytes) :
  exists l,
    encode_length (len chunk + 1) = Return l
    /\ frame code chunk = Return ([0x1B; 0x70; 0x23; 0x40] ++ l ++ [code] ++ chunk)
    /\ parse_frame ([0x1B; 0x70; 0x23; 0x40] ++ l ++ [code] ++ chunk) = Some (code, chunk).
Proof.
  destruct (encode_length_positive (len chunk + 1) ltac:(unfold len; lia))
    as (l & Henc & _ & Hdec).
  exists l. split; [exact Henc|]. split.
  - unfold frame. rewrite Henc. reflexivity.
  - unfold parse_frame. cbn [app]. change (0x1B =? 0x1B) with true.
    change (0x70 =? 0x70) with true. change (0x23 =? PM) with true.
    change (0x40 =? PI) with true. cbn [andb].
    rewrite Hdec, Z.eqb_refl. reflexivity.
Qed.

Lemma for_each_Forall2 {A B : Type} (f : A -> outcome B) (R : A -> B -> Prop) (xs : list A) :
  (forall x, In x xs -> exists y, f x = Return y /\ R x y) ->
  exists ys, for_each f xs = Return ys /\ Forall2 R xs ys.
Proof.
  induction xs as [|x xs IH]; intros Hall.
  - exists []. split; [reflexivity|constructor].
  - destruct (Hall x (or_introl eq_refl)) as (y & Hy & HR).
    destruct IH as (ys & Hys & HF); [intros x' Hin; apply Hall; right; assumption|].
    exists (y :: ys). cbn [for_each]. rewrite Hy. cbn [bind]. rewrite Hys.
    split; [reflexivity|constructor; assumption].
Qed.

Lemma frames_of_chunks (code : bool -> Z) (tr : bytes -> outcome bytes)
    (chunks : list (bytes * bool)) :
  (forall chunk, exists body, tr chunk = Return body) ->
  exists frames,
    for_each (fun '(chunk, final) => chunk <- tr chunk ;; frame (code final) chunk) chunks
    = Return frames
    /\ Forall2 (fun '(chunk, final) fr =>
                  exists body,
                    tr chunk = Return body
                    /\ is_frame (code final) body fr
                    /\ parse_frame fr = Some (code final, body))
         chunks frames.
Proof.
  intros Htr. apply for_each_Forall2. intros [chunk final] _.
  destruct (Htr chunk) as (body & Hbody).
  destruct (frame_returns (code final) body) as (l & Hl & Hframe & Hparse).
  eexists. rewrite Hbody. cbn [bind]. split; [exact Hframe|].
  exists body. split; [reflexivity|]. split; [|exact Hparse].
  exists l. split; [exact Hl|reflexivity].
Qed.

Lemma parse_frames_app (frs1 frs2 : list bytes) (fs1 fs2 : list (Z * bytes)) :
  parse_frames frs1 = Some fs1 -> parse_frames frs2 = Some fs2 ->
  parse_frames (frs1 ++ frs2) = Some (fs1 ++ fs2).
Proof.
  revert fs1. induction frs1 as [|fr frs1 IH]; intros fs1 H1 H2.
  - injection H1 as <-. exact H2.
  - cbn [parse_frames app] in *. destruct (parse_frame fr) as [f|]; [|discriminate].
    destruct (parse_frames frs1) as [fs|]; [|discriminate].
    injection H1 as <-. rewrite (IH fs eq_refl H2). reflexivity.
Qed.

(** The frames of one segment, read back: the chunks, each under the
    opcode of its place. *)
Lemma parse_segment (code : bool -> Z) (tr : bytes -> outcome bytes)
    (chunks : list (bytes * bool)) (frames : list bytes) :
  Forall2 (fun '(chunk, final) fr =>
             exists body,
               tr chunk = Return body
               /\ is_frame (code final) body fr
               /\ parse_frame fr = Some (code final, body))
    chunks frames ->
  (forall chunk, tr chunk = Return chunk) ->
  parse_frames frames = Some (map (fun c => (code (snd c), fst c)) chunks).
Proof.
  intros HF Hid. induction HF as [|[chunk final] fr chunks frames Hhead _ IH].
  - reflexivity.
  - destruct Hhead as (body & Hbody & _ & Hparse).
    rewrite Hid in Hbody. injection Hbody as <-.
    cbn [parse_frames map fst snd]. rewrite Hparse, IH. reflexivity.
Qed.

Lemma payload_of_segment (code : bool -> Z) (codes : list Z) (chunks : list (bytes * bool)) :
  (forall final, existsb (Z.eqb (code final)) codes = true) ->
  payload_of codes (map (fun c => (code (snd c), fst c)) chunks) = concat (map fst chunks).
Proof.
  intros Hin. unfold payload_of. induction chunks as [|[chunk final] chunks IH].
  - reflexivity.
  - cbn [map filter fst snd]. rewrite Hin. cbn [map snd concat]. rewrite IH. reflexivity.
Qed.

Lemma payload_of_other (code : bool -> Z) (codes : list Z) (chunks : list (bytes * bool)) :
  (forall final, existsb (Z.eqb (code final)) codes = false) ->
  payload_of codes (map (fun c => (code (snd c), fst c)) chunks) = [].
Proof.
  intros Hout. unfold payload_of. induction chunks as [|[chunk final] chunks IH].
  - reflexivity.
  - cbn [map filter fst snd]. rewrite Hout. exact IH.
Qed.

Lemma payload_of_app (codes : list Z) (fs1 fs2 : list (Z * bytes)) :
  payload_of codes (fs1 ++ fs2) = payload_of codes fs1 ++ payload_of codes fs2.
Proof. unfold payload_of. rewrite filter_app, map_app, concat_app. reflexivity. Qed.

(** [encode_image] returns: the frames of the header chunks, then the
    frames of the payload chunks. *)
Lemma encode_image_returns (header image : bytes) (chunk_size : Z) (translation : bool) :
  exists hframes pframes,
    encode_image header image chunk_size translation = Return (hframes ++ pframes)
    /\ Forall2 (fun '(chunk, final) fr =>
                  exists body,
                    Return chunk = Return body
                    /\ is_frame (header_code final) body fr
                    /\ parse_frame fr = Some (header_code final, body))
         (split_chunks header (chunk_size - 1)) hframes
    /\ Forall2 (fun '(chunk, final) fr =>
                  exists body,
                    (if translation then translate_data chunk else Return chunk) = Return body
                    /\ is_frame (image_code final) body fr
                    /\ parse_frame fr = Some (image_code final, body))
         (split_chunks image
            (if translation then (chunk_size - 1) * 3 / 4 + 1 else chunk_size))
         pframes.
Proof.
  destruct (frames_of_chunks header_code (fun chunk => Return chunk)
              (split_chunks header (chunk_size - 1)))
    as (hframes & Hrun1 & HF1); [intros chunk; eexists; reflexivity|].
  destruct (frames_of_chunks image_code
              (fun chunk => if translation then translate_data chunk else Return chunk)
              (split_chunks image
                 (if translation then (chunk_size - 1) * 3 / 4 + 1 else chunk_size)))
    as (pframes & Hrun2 & HF2).
  { intros chunk. destruct translation; [|eexists; reflexivity].
    exists (translate_groups chunk). apply translate_data_groups. }
  exists hframes, pframes. split; [|split; assumption].
  unfold encode_image.
  match goal with
  | |- bind ?m _ = _ => assert (E1 : m = Return hframes) by exact Hrun1; rewrite E1
  end.
  cbn [bind].
  match goal with
  | |- bind ?m _ = _ => assert (E2 : m = Return pframes) by exact Hrun2; rewrite E2
  end.
  reflexivity.
Qed.

(** C5 as the spec states it, for every chunk size, fails at chunk size 1: the header is not split
    into chunks of at most [1 - 1] bytes, it is one frame. *)
Lemma encode_image_frames_counterexample :
  encode_image [1; 2; 3] [] 1 false
  = Return [[0x1B; 0x70; 0x23; 0x40; 0xFF; 0x44; 0x51; 1; 2; 3];
            [0x1B; 0x70; 0x23; 0x40; 0xFF; 0x41; 0x53]]
  /\ ~ Forall (fun c => len (fst c) <= 1 - 1) (split_chunks [1; 2; 3] (1 - 1)).
Proof.
  split; [reflexivity|].
  intros H. apply Forall_inv in H. vm_compute in H. apply H. reflexivity.
Qed.

(** C5 (amended).  For every header, payload, chunk size and translation
    flag, [encode_image] returns the frames of the header chunks followed by
    the frames of the payload chunks.  A chunk becomes the frame [ESC, 'p',
    0x23, 0x40, Length(chunkLength + 1), opcode, chunkBytes] (the chunk bytes
    translated first, for a payload chunk under translation), with opcode
    [0x50]/[0x51] for a continue/final header chunk and [0x52]/[0x53] for a
    continue/final payload chunk; in each segment the last chunk, and only
    it, is final.  The header chunks have at most [chunk_size - 1] bytes
    when [chunk_size >= 2]; when [chunk_size <= 1] the whole header is one
    final chunk. *)
Theorem encode_image_frames (header image : bytes) (chunk_size : Z) (translation : bool) :
  let hchunks := split_chunks header (chunk_size - 1) in
  let pchunks :=
    split_chunks image (if translation then (chunk_size - 1) * 3 / 4 + 1 else chunk_size) in
  exists hframes pframes,
    encode_image header image chunk_size translation = Return (hframes ++ pframes)
    /\ Forall2 (fun '(chunk, final) fr =>
                  is_frame (if final : bool then 0x51 else 0x50) chunk fr)
         hchunks hframes
    /\ Forall2 (fun '(chunk, final) fr =>
                  exists body,
                    (if translation then translate_data chunk else Return chunk) = Return body
                    /\ is_frame (if final : bool then 0x53 else 0x52) body fr)
         pchunks pframes
    /\ concat (map fst hchunks) = header
    /\ concat (map fst pchunks) = image
    /\ (exists init last,
           hchunks = init ++ [(last, true)] /\ Forall (fun c => snd c = false) init)
    /\ (exists init last,
           pchunks = init ++ [(last, true)] /\ Forall (fun c => snd c = false) init)
    /\ (2 <= chunk_size -> Forall (fun c => len (fst c) <= chunk_size - 1) hchunks)
    /\ (chunk_size <= 1 -> hchunks = [(header, true)]).
Proof.
  cbv zeta.
  destruct (encode_image_returns header image chunk_size translation)
    as (hframes & pframes & Hrun & HF1 & HF2).
  exists hframes, pframes. split; [exact Hrun|].
  split; [|split; [|split; [|split; [|split; [|split; [|split]]]]]].
  - eapply Forall2_impl; [|exact HF1]. intros [chunk final] fr (body & Hbody & Hfr & _).
    injection Hbody as <-. exact Hfr.
  - eapply Forall2_impl; [|exact HF2]. intros [chunk final] fr (body & Hbody & Hfr & _).
    exists body. split; assumption.
  - apply split_chunks_concat.
  - apply split_chunks_concat.
  - apply (split_chunks_spec (chunk_size - 1) (length header) header). lia.
  - apply (split_chunks_spec _ (length image) image). lia.
  - intros Hcs. apply (split_chunks_spec (chunk_size - 1) (length header) header); lia.
  - intros Hcs. apply split_chunks_whole. left. lia.
Qed.

(** C6.  For every header and payload buffer (the empty one too) and every
    chunk size (so every chunk size [>= 1]), with translation disabled, the
    frames [encode_image] emits read back as opcodes and chunks, and the
    chunk payloads concatenated in frame order, whatever the escape prefix,
    the length field and the opcode of a frame, are the buffers: the header
    frames give the header, the payload frames give the payload. *)
Theorem encode_image_reassembles (header image : bytes) (chunk_size : Z) :
  exists frames parsed,
    encode_image header image chunk_size false = Return frames
    /\ parse_frames frames = Some parsed
    /\ concat (map snd parsed) = header ++ image
    /\ payload_of [0x50; 0x51] parsed = header
    /\ payload_of [0x52; 0x53] parsed = image
    /\ concat (map fst (split_chunks image chunk_size)) = image.
Proof.
  destruct (encode_image_returns header image chunk_size false)
    as (hframes & pframes & Hrun & HF1 & HF2).
  pose proof (parse_segment header_code (fun chunk => Return chunk) _ _ HF1
                ltac:(reflexivity)) as Hp1.
  pose proof (parse_segment image_code (fun chunk => Return chunk) _ _ HF2
                ltac:(reflexivity)) as Hp2.
  eexists. eexists. split; [exact Hrun|].
  split; [apply parse_frames_app; [exact Hp1|exact Hp2]|].
  split; [|split; [|split]].
  - rewrite map_app, concat_app, !map_map. cbn [snd].
    rewrite !split_chunks_concat. reflexivity.
  - rewrite payload_of_app.
    rewrite (payload_of_segment header_code) by (intros []; reflexivity).
    rewrite (payload_of_other image_code) by (intros []; reflexivity).
    rewrite app_nil_r. apply split_chunks_concat.
  - rewrite payload_of_app.
    rewrite (payload_of_other header_code) by (intros []; reflexivity).
    rewrite (payload_of_segment image_code) by (intros []; reflexivity).
    apply split_chunks_concat.
  - apply split_chunks_concat.
Qed.

(** ** Calls of the encoder that cannot run for ever *)

Lemma bind_terminates {A B : Type} (m : outcome A) (k : A -> outcome B) :
  terminates m -> (forall a, terminates (k a)) -> terminates (bind m k).
Proof.
  unfold terminates. intros Hm Hk. destruct m as [a| |]; cbn; auto. discriminate.
Qed.

Lemma float_of_int_terminates (z : Z) : terminates (float_of_int z).
Proof. unfold terminates, float_of_int. destruct (binary_normalize _ _ _ _ _); discriminate. Qed.

Lemma int_truediv_terminates (a b : Z) : terminates (int_truediv a b).
Proof.
  unfold terminates, int_truediv.
  destruct (b =? 0); [discriminate|]. destruct (a =? 0); [discriminate|].
  destruct (SFdiv _ _ _ _); discriminate.
Qed.

Lemma py_mul_terminates (x y : pynum) : terminates (py_mul x y).
Proof.
  destruct x, y; cbn [py_mul]; try discriminate;
    (apply bind_terminates; [apply float_of_int_terminates|discriminate]).
Qed.

Lemma py_round_terminates (x : pynum) : terminates (py_round x).
Proof. destruct x as [z|[s|s| |s m e]]; discriminate. Qed.

Lemma encode_normalized_terminates (value : pynum) : terminates (encode_normalized value).
Proof.
  unfold encode_normalized. destruct (negb _); [discriminate|].
  apply bind_terminates; [apply py_mul_terminates|intros scaled].
  apply bind_terminates; [apply py_round_terminates|discriminate].
Qed.

Lemma encode_integer_terminates (number : Z) (raw : bool) :
  terminates (encode_integer number raw).
Proof.
  destruct (encode_integer_with number raw) as (k & _ & _ & _ & ->). cbv zeta.
  apply bind_terminates; [|discriminate].
  destruct raw; cbn [negb]; [discriminate|].
  apply bind_terminates; [|discriminate].
  unfold bytes_of_int. destruct (_ && _); discriminate.
Qed.

Ltac terminates_step :=
  first
    [ apply int_truediv_terminates
    | apply py_mul_terminates
    | apply py_round_terminates
    | apply encode_normalized_terminates
    | apply encode_integer_terminates
    | apply float_of_int_terminates
    | discriminate
    | apply bind_terminates; [|intros ?]
    | match goal with
      | |- terminates (if ?b then _ else _) => destruct b
      end ].

Lemma resize_image_terminates (width height : Z) : terminates (resize_image width height).
Proof. unfold resize_image. repeat terminates_step. Qed.

Lemma encode_header_terminates (x y width height : Z)
    (clear translation reset quantization : bool) :
  terminates (encode_header x y width height clear translation reset quantization).
Proof. unfold encode_header. repeat terminates_step. Qed.

Lemma encode_image_terminates (header image : bytes) (chunk_size : Z) (translation : bool) :
  terminates (encode_image header image chunk_size translation).
Proof.
  destruct (encode_image_returns header image chunk_size translation)
    as (hframes & pframes & -> & _). discriminate.
Qed.

(** ** The batch loop *)

Section BatchProofs.

Variable P : platform.

(** The body of the [try] for one image never runs for ever, and the log
    it leaves is the old one and the lines of this image: when it returns,
    the line of the conversion, and the preview's if asked; when it raises,
    nothing, or the line of the conversion if the preview raised. *)
Lemma convert_body_lines (preview : bool) (p : path P) (w : world P) (lg : list log_entry) :
  match convert_body P preview p (w, lg) with
  | Ret _ (_, lg') =>
      lg' = lg ++ [LogConverted (p_name P p) (out_name P p)]
      \/ exists sample,
          lg' = lg ++ [LogConverted (p_name P p) (out_name P p); LogPreview sample]
  | Exc _ (_, lg') =>
      lg' = lg \/ lg' = lg ++ [LogConverted (p_name P p) (out_name P p)]
  | Loop => False
  end.
Proof.
  unfold convert_body.
  unfold io_bind at 1. unfold reading at 1.
  destruct (Image_open P p w) as [im|msg]; [|left; reflexivity].
  unfold io_bind at 1. unfold pure at 1.
  destruct (resize_image (im_width P im) (im_height P im)) as [r|e|] eqn:Hr;
    [|left; reflexivity|exact (resize_image_terminates _ _ Hr)].
  unfold io_bind at 1.
  assert (Hresized :
            match r with
            | Unchanged => io_ret P im
            | Resample rw rh => reading P (fun _ => im_resize P im rw rh)
            end (w, lg)
            = match r with
              | Unchanged => Ret im (w, lg)
              | Resample rw rh =>
                  match im_resize P im rw rh with
                  | inl a => Ret a (w, lg)
                  | inr msg => Exc msg (w, lg)
                  end
              end) by (destruct r; reflexivity).
  rewrite Hresized. clear Hresized.
  assert (Hcases : (exists im', match r with
                                | Unchanged => Ret im (w, lg)
                                | Resample rw rh =>
                                    match im_resize P im rw rh with
                                    | inl a => Ret a (w, lg)
                                    | inr msg => Exc msg (w, lg)
                                    end
                                end = Ret im' (w, lg))
                   \/ (exists msg, match r with
                                   | Unchanged => Ret im (w, lg)
                                   | Resample rw rh =>
                                       match im_resize P im rw rh with
                                       | inl a => Ret a (w, lg)
                                       | inr msg => Exc msg (w, lg)
                                       end
                                   end = Exc msg (w, lg))).
  { destruct r as [|rw rh]; [left; eauto|].
    destruct (im_resize P im rw rh); [left|right]; eauto. }
  destruct Hcases as [(im' & ->) | (msg & ->)]; [|left; reflexivity].
  unfold io_bind at 1. unfold reading at 1.
  destruct (export_image P im') as [jpeg|msg]; [|left; reflexivity].
  unfold io_bind at 1. unfold reading at 1.
  destruct (has_qtables P jpeg) as [q|msg]; [|left; reflexivity].
  unfold io_bind at 1. unfold pure at 1.
  destruct (encode_header 0 0 (im_width P im') (im_height P im') true false true q)
    as [header|e|] eqn:Hh; [|left; reflexivity|exact (encode_header_terminates _ _ _ _ _ _ _ _ Hh)].
  unfold io_bind at 1. unfold pure at 1.
  destruct (encode_image header jpeg 256 false)
    as [chunks|e|] eqn:Hc; [|left; reflexivity|exact (encode_image_terminates _ _ _ _ Hc)].
  unfold io_bind at 1. unfold writing at 1.
  destruct (write_chunks P p chunks w) as [w' [msg|]]; [left; reflexivity|].
  unfold io_bind at 1. unfold log at 1.
  destruct preview.
  - unfold io_bind at 1. unfold reading at 1.
    destruct (read_sample P p w') as [sample|msg]; [|right; reflexivity].
    unfold log. right. exists sample. rewrite <- app_assoc. reflexivity.
  - unfold io_ret. left. reflexivity.
Qed.

(** One turn of the loop: it returns, with the lines of the image added to
    the log; the handler has turned a failure of the body into the line of
    the failure. *)
Lemma convert_one_catches (preview : bool) (p : path P) (s : state P) :
  exists s' lines,
    convert_one P preview p s = Ret tt s'
    /\ snd s' = snd s ++ lines
    /\ image_lines P p lines
    /\ (convert_body P preview p s = Ret tt s'
        \/ exists msg s1,
            convert_body P preview p s = Exc msg s1
            /\ s' = (fst s1, snd s1 ++ [LogError (p_name P p) msg])).
Proof.
  destruct s as [w lg]. pose proof (convert_body_lines preview p w lg) as Hlines.
  unfold convert_one, try_except.
  destruct (convert_body P preview p (w, lg)) as [[] [w1 lg1]|msg [w1 lg1]|];
    [| |contradiction].
  - exists (w1, lg1). cbn [snd].
    destruct Hlines as [-> | (sample & ->)]; eexists;
      (split; [reflexivity|]); (split; [reflexivity|]);
      (split; [constructor|left; reflexivity]).
  - exists (w1, lg1 ++ [LogError (p_name P p) msg]). cbn [snd log].
    destruct Hlines as [-> | ->].
    + exists [LogError (p_name P p) msg].
      split; [reflexivity|]. split; [reflexivity|]. split; [constructor|].
      right. exists msg, (w1, lg). split; reflexivity.
    + exists [LogConverted (p_name P p) (out_name P p); LogError (p_name P p) msg].
      split; [reflexivity|]. split; [rewrite <- app_assoc; reflexivity|].
      split; [constructor|].
      right. eexists msg, (w1, _). split; reflexivity.
Qed.

(** The log after the loop. *)
Lemma io_for_convert_one_log (preview : bool) (imgs : list (path P)) (s : state P) :
  exists s' lines,
    io_for P imgs (convert_one P preview) s = Ret tt s'
    /\ snd s' = snd s ++ concat lines
    /\ Forall2 (image_lines P) imgs lines.
Proof.
  revert s. induction imgs as [|p ps IH]; intros s.
  - exists s, []. cbn. rewrite app_nil_r. repeat split; constructor.
  - destruct (convert_one_catches preview p s) as (s1 & l1 & Hone & Hlog1 & Hl1 & _).
    destruct (IH s1) as (s' & lines & Hrun & Hlog & Hall).
    exists s', (l1 :: lines). cbn [io_for]. unfold io_bind. rewrite Hone.
    split; [exact Hrun|]. split; [|constructor; assumption].
    rewrite Hlog, Hlog1. cbn [concat]. rewrite app_assoc. reflexivity.
Qed.

(** C9.  For every ordered batch of images and every state the loop starts
    from, the loop returns: no failure of an image leaves it.  Image by
    image, in order, either the body of the [try] returned, or it raised
    and the handler logged the failure with the name of the image and the
    text of the exception, and the next image was processed from there
    ([batch_trace]).  The log grows by the lines of each image in turn, and
    those are the line of its conversion (and preview), or a line of
    failure that names it. *)
Theorem convert_images_isolates_failures (preview : bool) (imgs : list (path P)) (s : state P) :
  exists s' lines,
    io_for P imgs (convert_one P preview) s = Ret tt s'
    /\ batch_trace P preview imgs s s'
    /\ snd s' = snd s ++ concat lines
    /\ Forall2 (image_lines P) imgs lines.
Proof.
  revert s. induction imgs as [|p ps IH]; intros s.
  - exists s, []. cbn. rewrite app_nil_r. repeat split; constructor.
  - destruct (convert_one_catches preview p s) as (s1 & l1 & Hone & Hlog1 & Hl1 & Hbody).
    destruct (IH s1) as (s' & lines & Hrun & Htrace & Hlog & Hall).
    exists s', (l1 :: lines). cbn [io_for]. unfold io_bind. rewrite Hone.
    split; [exact Hrun|]. split; [|split; [|constructor; assumption]].
    + destruct Hbody as [Hret | (msg & s0 & Hexc & ->)].
      * eapply trace_converted; eassumption.
      * eapply trace_failed; eassumption.
    + rewrite Hlog, Hlog1. cbn [concat]. rewrite app_assoc. reflexivity.
Qed.

(** The whole of [convert_images], once the input folder is there, the
    output folder is made and there is an image: the first line, the lines
    of each image in turn, the last line. *)
Lemma convert_images_log (preview : bool) (w w1 : world P) (lg : list log_entry) :
  input_is_dir P w = true ->
  out_mkdir P w = (w1, None) ->
  list_images P w1 <> [] ->
  exists s' lines,
    convert_images P preview (w, lg) = Ret tt s'
    /\ snd s' = lg ++ [LogStart (length (list_images P w1))] ++ concat lines ++ [LogDone]
    /\ Forall2 (image_lines P) (list_images P w1) lines.
Proof.
  intros Hdir Hmk Himgs.
  unfold convert_images. cbn [fst]. rewrite Hdir. cbn [negb].
  unfold io_bind at 1. unfold writing. rewrite Hmk.
  unfold io_bind at 1. cbn [fst].
  destruct (list_images P w1) as [|p ps] eqn:Hlist; [contradiction|].
  unfold io_bind at 1. unfold log at 1.
  destruct (io_for_convert_one_log preview (p :: ps)
              (w1, lg ++ [LogStart (length (p :: ps))]))
    as (s' & lines & Hrun & Hlog & Hall).
  unfold io_bind at 1. rewrite Hrun. destruct s' as [w' lg'].
  exists (w', lg' ++ [LogDone]), lines. split; [reflexivity|].
  split; [|assumption].
  cbn [snd] in *. rewrite Hlog, <- !app_assoc. reflexivity.
Qed.

End BatchProofs.

(** A batch of three images, the second of which cannot be read: two
    artifacts are written, the failure of the second is logged, and the
    third image is converted all the same. *)
Example convert_images_second_corrupt :
  match convert_images example_platform false ([], []) with
  | Ret _ (files, lg) =>
      lg = [LogStart 3;
            LogConverted "a.png" "a.vdt";
            LogError "b.png" "cannot identify image file";
            LogConverted "c.png" "c.vdt";
            LogDone]
      /\ map fst files = ["a.vdt"%string; "c.vdt"%string]
  | _ => False
  end.
Proof. vm_compute. split; reflexivity. Qed.


(** ** Binary64 arithmetic: digits, shifts, rounding *)

Lemma digits2_pos_spec (p : positive) :
  2 ^ (Zpos (digits2_pos p) - 1) <= Zpos p < 2 ^ Zpos (digits2_pos p).
Proof.
  induction p as [p IH|p IH|]; cbn [digits2_pos].
  - rewrite Pos2Z.inj_succ.
    replace (Z.succ (Zpos (digits2_pos p)) - 1) with (Z.succ (Zpos (digits2_pos p) - 1)) by lia.
    rewrite !Z.pow_succ_r by lia. lia.
  - rewrite Pos2Z.inj_succ.
    replace (Z.succ (Zpos (digits2_pos p)) - 1) with (Z.succ (Zpos (digits2_pos p) - 1)) by lia.
    rewrite !Z.pow_succ_r by lia. lia.
  - cbn. lia.
Qed.

Lemma Zdigits2_unique (m d : Z) :
  2 ^ (d - 1) <= m < 2 ^ d -> 0 < m -> Zdigits2 m = d.
Proof.
  intros Hm Hpos. destruct m as [|p|p]; try lia. cbn [Zdigits2].
  pose proof (digits2_pos_spec p) as Hp.
  set (d' := Zpos (digits2_pos p)) in *.
  assert (0 < d).
  { destruct (Z.le_gt_cases d 0) as [Hd0|]; [exfalso|assumption].
    destruct (Z.eq_dec d 0) as [->|]; [cbn in Hm; lia|].
    rewrite (Z.pow_neg_r 2 d) in Hm by lia. lia. }
  destruct (Z.lt_trichotomy d' d) as [Hlt|[Heq|Hgt]]; [exfalso| assumption |exfalso].
  - assert (2 ^ d' <= 2 ^ (d - 1)) by (apply Z.pow_le_mono_r; lia). lia.
  - assert (2 ^ d <= 2 ^ (d' - 1)) by (apply Z.pow_le_mono_r; lia). lia.
Qed.

Lemma Zdigits2_spec (m : Z) :
  0 < m -> 2 ^ (Zdigits2 m - 1) <= m < 2 ^ Zdigits2 m.
Proof. intros Hm. destruct m; try lia. apply digits2_pos_spec. Qed.

Lemma shr_1_m (mrs : shr_record) :
  0 <= shr_m mrs -> shr_m (shr_1 mrs) = shr_m mrs / 2.
Proof.
  destruct mrs as [m r s]. cbn [shr_m]. intros Hm.
  destruct m as [|[p|p|]|p]; cbn [shr_1 shr_m]; try lia.
  - reflexivity.
  - rewrite Pos2Z.inj_xI. apply Z.div_unique with (r := 1); lia.
  - rewrite Pos2Z.inj_xO. apply Z.div_unique with (r := 0); lia.
  - reflexivity.
Qed.

Lemma shr_1_nonneg (mrs : shr_record) : 0 <= shr_m mrs -> 0 <= shr_m (shr_1 mrs).
Proof. intros H. rewrite shr_1_m by assumption. apply Z.div_pos; lia. Qed.

Lemma pow2_xO (p : positive) : 2 ^ Zpos p~0 = 2 ^ Zpos p * 2 ^ Zpos p.
Proof.
  replace (Zpos p~0) with (Zpos p + Zpos p) by lia. apply Z.pow_add_r; lia.
Qed.

Lemma pow2_xI (p : positive) : 2 ^ Zpos p~1 = 2 * (2 ^ Zpos p * 2 ^ Zpos p).
Proof.
  replace (Zpos p~1) with (1 + (Zpos p + Zpos p)) by lia.
  rewrite Z.pow_add_r, Z.pow_add_r by lia. reflexivity.
Qed.

Lemma iter_shr_1_m (p : positive) :
  forall mrs, 0 <= shr_m mrs ->
              shr_m (iter_pos shr_1 p mrs) = shr_m mrs / 2 ^ Zpos p.
Proof.
  induction p as [p IH|p IH|]; intros mrs Hm; cbn [iter_pos].
  - assert (H1 : 0 <= shr_m (shr_1 mrs)) by (apply shr_1_nonneg; assumption).
    assert (H2 : 0 <= shr_m (iter_pos shr_1 p (shr_1 mrs))).
    { rewrite IH by assumption. apply Z.div_pos; lia. }
    rewrite IH, IH, shr_1_m by assumption.
    rewrite !Z.div_div by lia. f_equal. rewrite pow2_xI. ring.
  - assert (H2 : 0 <= shr_m (iter_pos shr_1 p mrs)).
    { rewrite IH by assumption. apply Z.div_pos; lia. }
    rewrite IH, IH by assumption.
    rewrite !Z.div_div by lia. f_equal. rewrite pow2_xO. ring.
  - apply shr_1_m. assumption.
Qed.

(** [shr] divides the mantissa by [2^n], rounding down, and adds [n] to
    the exponent. *)
Lemma shr_spec (mrs : shr_record) (e n : Z) :
  0 <= shr_m mrs ->
  shr_m (fst (shr mrs e n)) = shr_m mrs / 2 ^ Z.max n 0
  /\ snd (shr mrs e n) = e + Z.max n 0.
Proof.
  intros Hm. destruct n as [|p|p]; cbn [shr fst snd].
  - cbn. rewrite Z.div_1_r. lia.
  - rewrite iter_shr_1_m by assumption. rewrite Z.max_l by lia. lia.
  - cbn. rewrite Z.div_1_r. lia.
Qed.

Lemma shr_1_even (k : Z) :
  0 <= k ->
  shr_1 {| shr_m := 2 * k; shr_r := false; shr_s := false |}
  = {| shr_m := k; shr_r := false; shr_s := false |}.
Proof. intros Hk. destruct k; try lia; reflexivity. Qed.

(** Shifting out zero bits loses nothing. *)
Lemma iter_shr_1_exact (p : positive) :
  forall k, 0 <= k ->
            iter_pos shr_1 p {| shr_m := k * 2 ^ Zpos p; shr_r := false; shr_s := false |}
            = {| shr_m := k; shr_r := false; shr_s := false |}.
Proof.
  induction p as [p IH|p IH|]; intros k Hk; cbn [iter_pos].
  - replace (k * 2 ^ Zpos p~1) with (2 * ((k * 2 ^ Zpos p) * 2 ^ Zpos p)).
    + rewrite shr_1_even by (apply Z.mul_nonneg_nonneg; [apply Z.mul_nonneg_nonneg|]; lia).
      rewrite IH by (apply Z.mul_nonneg_nonneg; lia). apply IH. assumption.
    + rewrite pow2_xI. ring.
  - replace (k * 2 ^ Zpos p~0) with ((k * 2 ^ Zpos p) * 2 ^ Zpos p).
    + rewrite IH by (apply Z.mul_nonneg_nonneg; lia). apply IH. assumption.
    + rewrite pow2_xO. ring.
  - change (2 ^ 1) with 2. rewrite Z.mul_comm. apply shr_1_even. assumption.
Qed.

Lemma fexp_b64 (k : Z) : fexp prec emax k = Z.max (k - 53) (-1074).
Proof. reflexivity. Qed.

(** Rounding what needs no rounding: when the bits [shr_fexp] shifts out of
    an exact mantissa are zero, [binary_round_aux] keeps the value. *)
Lemma binary_round_aux_exact (s : bool) (m : positive) (e : Z) (k n : Z) :
  n = fexp prec emax (Zdigits2 (Zpos m) + e) - e ->
  0 <= n ->
  Zpos m = k * 2 ^ n ->
  e + n <= 971 ->
  binary_round_aux prec emax s (Zpos m) e loc_Exact
  = S754_finite s (Z.to_pos k) (e + n).
Proof.
  intros Hn Hn0 Hk Hmax.
  assert (Hkpos : 0 < k).
  { assert (0 < 2 ^ n) by (apply Z.pow_pos_nonneg; lia). nia. }
  assert (Hdk : Zdigits2 k = Zdigits2 (Zpos m) - n).
  { apply Zdigits2_unique; [|assumption].
    pose proof (Zdigits2_spec (Zpos m) ltac:(lia)) as Hd.
    set (d := Zdigits2 (Zpos m)) in *.
    assert (Hdn : n < d).
    { destruct (Z.lt_ge_cases n d) as [|Hge]; [assumption|exfalso].
      assert (2 ^ d <= 2 ^ n) by (apply Z.pow_le_mono_r; lia).
      assert (1 * 2 ^ n <= k * 2 ^ n) by (apply Z.mul_le_mono_nonneg_r; lia). lia. }
    replace d with ((d - n) + n) in Hd at 2 by lia.
    replace (d - 1) with ((d - n - 1) + n) in Hd by lia.
    rewrite !Z.pow_add_r in Hd by lia. rewrite Hk in Hd.
    assert (0 < 2 ^ n) by (apply Z.pow_pos_nonneg; lia).
    split; [apply Z.mul_le_mono_pos_r with (p := 2 ^ n); lia
           |apply Z.mul_lt_mono_pos_r with (p := 2 ^ n); lia]. }
  unfold binary_round_aux, shr_fexp. rewrite <- Hn.
  assert (Hfirst : shr (shr_record_of_loc (Zpos m) loc_Exact) e n
                   = ({| shr_m := k; shr_r := false; shr_s := false |}, e + n)).
  { cbn [shr_record_of_loc]. destruct n as [|p|p]; try lia; cbn [shr].
    - rewrite Z.add_0_r. cbn in Hk. rewrite Z.mul_1_r in Hk. rewrite Hk. reflexivity.
    - rewrite Hk. rewrite iter_shr_1_exact by lia. reflexivity. }
  rewrite Hfirst. cbn [shr_m loc_of_shr_record round_nearest_even].
  assert (Hn2 : fexp prec emax (Zdigits2 k + (e + n)) - (e + n) = 0).
  { rewrite Hdk. replace (Zdigits2 (Zpos m) - n + (e + n)) with (Zdigits2 (Zpos m) + e) by lia.
    lia. }
  rewrite Hn2. cbn [shr shr_record_of_loc shr_m].
  destruct k as [|pk|pk]; try lia.
  destruct (Z.leb_spec (e + n) (emax - prec)) as [_|Hbad]; [reflexivity|].
  unfold emax, prec in Hbad. lia.
Qed.

(** ** Values of floats as rationals *)

Lemma Qpow2_nonneg_eq (e : Z) : 0 <= e -> Qpow2 e = inject_Z (2 ^ e).
Proof. intros He. unfold Qpow2. destruct (Z.leb_spec 0 e); [reflexivity|lia]. Qed.

Lemma Qpow2_neg_eq (e : Z) : e < 0 -> Qpow2 e = 1 # Z.to_pos (2 ^ (- e)).
Proof. intros He. unfold Qpow2. destruct (Z.leb_spec 0 e); [lia|reflexivity]. Qed.

Lemma Qpow2_pos (e : Z) : (0 < Qpow2 e)%Q.
Proof.
  unfold Qpow2. destruct (Z.leb_spec 0 e).
  - unfold Qlt. cbn. pose proof (Z.pow_pos_nonneg 2 e). lia.
  - reflexivity.
Qed.

(** [2^e * 2^(-e) = 1]. *)
Lemma Qpow2_inv (e : Z) : e < 0 -> (Qpow2 e * inject_Z (2 ^ (- e)) == 1)%Q.
Proof.
  intros He. rewrite Qpow2_neg_eq by assumption.
  assert (Hp : 0 < 2 ^ (- e)) by (apply Z.pow_pos_nonneg; lia).
  unfold Qeq, Qmult, inject_Z. cbn [Qnum Qden].
  rewrite Pos2Z.inj_mul, Z2Pos.id by assumption. lia.
Qed.

Lemma Qpow2_add (a b : Z) : (Qpow2 (a + b) == Qpow2 a * Qpow2 b)%Q.
Proof.
  assert (Hgen : forall x y, 0 <= x -> y < 0 ->
                             (Qpow2 (x + y) == Qpow2 x * Qpow2 y)%Q).
  { intros x y Hx Hy.
    assert (Hpy : 0 < 2 ^ (- y)) by (apply Z.pow_pos_nonneg; lia).
    rewrite (Qpow2_nonneg_eq x), (Qpow2_neg_eq y) by assumption.
    destruct (Z.le_gt_cases 0 (x + y)).
    - rewrite Qpow2_nonneg_eq by assumption.
      unfold Qeq, Qmult, inject_Z. cbn [Qnum Qden].
      rewrite Pos2Z.inj_mul, Z2Pos.id by assumption.
      replace (2 ^ x) with (2 ^ ((x + y) + (- y))) by (f_equal; lia).
      rewrite (Z.pow_add_r 2 (x + y) (- y)) by lia. lia.
    - rewrite Qpow2_neg_eq by assumption.
      assert (0 < 2 ^ (- (x + y))) by (apply Z.pow_pos_nonneg; lia).
      unfold Qeq, Qmult, inject_Z. cbn [Qnum Qden].
      rewrite Pos2Z.inj_mul, !Z2Pos.id by assumption.
      replace (- y) with (x + - (x + y)) by lia.
      rewrite (Z.pow_add_r 2 x (- (x + y))) by lia. lia. }
  destruct (Z.le_gt_cases 0 a) as [Ha|Ha]; destruct (Z.le_gt_cases 0 b) as [Hb|Hb].
  - rewrite !Qpow2_nonneg_eq by lia. rewrite Z.pow_add_r by lia.
    unfold Qeq, Qmult, inject_Z. cbn [Qnum Qden]. lia.
  - apply Hgen; assumption.
  - rewrite Z.add_comm, Qmult_comm. apply Hgen; assumption.
  - rewrite !Qpow2_neg_eq by lia.
    assert (0 < 2 ^ (- a)) by (apply Z.pow_pos_nonneg; lia).
    assert (0 < 2 ^ (- b)) by (apply Z.pow_pos_nonneg; lia).
    assert (0 < 2 ^ (- (a + b))) by (apply Z.pow_pos_nonneg; lia).
    unfold Qeq, Qmult. cbn [Qnum Qden].
    rewrite Pos2Z.inj_mul, !Z2Pos.id by assumption.
    replace (- (a + b)) with (- a + - b) by lia.
    rewrite (Z.pow_add_r 2 (- a) (- b)) by lia. lia.
Qed.

(** The comparison of an [int] with a finite float is the comparison of
    their values. *)
Lemma cmp_int_float_value (z : Z) (f : spec_float) :
  is_finite f = true -> cmp_int_float z f = Some (inject_Z z ?= SF2Q f)%Q.
Proof.
  destruct f as [s|s| |s m e]; try discriminate; intros _; cbn [cmp_int_float SF2Q].
  - unfold Qcompare. cbn [Qnum Qden inject_Z]. rewrite Z.mul_1_r. reflexivity.
  - f_equal. destruct (Z.leb_spec 0 e) as [He|He].
    + rewrite Qpow2_nonneg_eq by assumption.
      unfold Qcompare, Qmult, inject_Z. cbn [Qnum Qden]. rewrite !Z.mul_1_r. reflexivity.
    + rewrite Qpow2_neg_eq by assumption.
      assert (0 < 2 ^ (- e)) by (apply Z.pow_pos_nonneg; lia).
      unfold Qcompare, Qmult, inject_Z. cbn [Qnum Qden].
      rewrite Pos.mul_1_l, Z2Pos.id, !Z.mul_1_r by assumption. reflexivity.
Qed.

(** The guard of [encode_normalized] on a number that has a value. *)
Lemma normalized_guard (x : pynum) (q : Q) :
  pyval x = Some q ->
  (py_le (PyInt (-1)) x && py_le x (PyInt 1) = true <-> (-1 <= q <= 1)%Q).
Proof.
  destruct x as [z|f]; cbn [pyval].
  - intros [= <-]. cbn [py_le]. rewrite andb_true_iff, !Z.leb_le.
    unfold Qle, inject_Z. cbn [Qnum Qden]. lia.
  - destruct (is_finite f) eqn:Hfin; [|discriminate]. intros [= <-].
    cbn [py_le]. rewrite !cmp_int_float_value by assumption.
    rewrite andb_true_iff.
    change (inject_Z (-1)) with (-1)%Q. change (inject_Z 1) with 1%Q.
    rewrite (Qle_alt (-1) (SF2Q f)), (Qle_alt (SF2Q f) 1).
    rewrite <- (Qcompare_antisym 1 (SF2Q f)).
    destruct (-1 ?= SF2Q f)%Q; destruct (1 ?= SF2Q f)%Q; cbn;
      intuition (try discriminate; try congruence).
Qed.

(** A number that has no value: a NaN or an infinity. *)
Lemma normalized_guard_no_value (x : pynum) :
  pyval x = None -> py_le (PyInt (-1)) x && py_le x (PyInt 1) = false.
Proof.
  destruct x as [z|[s|[|]| |s m e]]; cbn; try discriminate; reflexivity.
Qed.

(** ** Rounding to the nearest integer *)

(** [round_half_even m e] is an integer nearest to [m * 2^e], and the even
    one of the two when [m * 2^e] is halfway; here with [d = 2^(-e)]. *)
Lemma round_half_even_scaled (m e : Z) :
  0 < m -> e < 0 ->
  let d := 2 ^ (- e) in
  let v := round_half_even m e in
  0 <= v
  /\ 2 * Z.abs (v * d - m) <= d
  /\ (2 * Z.abs (v * d - m) = d -> Z.even v = true).
Proof.
  intros Hm He d v.
  assert (Hd : 0 < d) by (apply Z.pow_pos_nonneg; lia).
  pose proof (Z.div_mod m d ltac:(lia)) as Hdm.
  pose proof (Z.mod_pos_bound m d Hd) as Hr.
  assert (Hq : 0 <= m / d) by (apply Z.div_pos; lia).
  unfold v, round_half_even. destruct (Z.leb_spec 0 e); [lia|]. fold d.
  destruct (Z.compare_spec (2 * (m mod d)) d) as [Heq|Hlt|Hgt].
  - destruct (Z.even (m / d)) eqn:Hev.
    + split; [lia|]. split; [nia|]. intros _. assumption.
    + split; [lia|]. split; [nia|]. intros _.
      rewrite Z.even_add, Hev. reflexivity.
  - split; [lia|]. split; [nia|]. intros Habs. exfalso. nia.
  - split; [lia|]. split; [nia|]. intros Habs. exfalso. nia.
Qed.

(** The same, on values. *)
Lemma round_half_even_value (s : bool) (m : positive) (e : Z) :
  let v := cond_Zopp s (round_half_even (Zpos m) e) in
  let y := SF2Q (S754_finite s m e) in
  (Qabs (inject_Z v - y) <= 1 # 2)%Q
  /\ ((Qabs (inject_Z v - y) == 1 # 2)%Q -> Z.even v = true).
Proof.
  cbv zeta. cbn [SF2Q].
  destruct (Z.leb_spec 0 e) as [He|He].
  - (* an integer *)
    assert (Hv : round_half_even (Zpos m) e = Zpos m * 2 ^ e).
    { unfold round_half_even. destruct (Z.leb_spec 0 e); [reflexivity|lia]. }
    rewrite Hv, Qpow2_nonneg_eq by assumption.
    assert (Hzero : (inject_Z (cond_Zopp s (Zpos m * 2 ^ e))
                     - inject_Z (cond_Zopp s (Zpos m)) * inject_Z (2 ^ e) == 0)%Q).
    { rewrite <- inject_Z_mult.
      replace (cond_Zopp s (Zpos m) * 2 ^ e) with (cond_Zopp s (Zpos m * 2 ^ e))
        by (destruct s; cbn [cond_Zopp]; lia).
      unfold Qeq, Qminus, Qplus, Qopp, inject_Z. cbn [Qnum Qden]. lia. }
    rewrite Hzero. split; [discriminate|]. intros Habs. discriminate Habs.
  - destruct (round_half_even_scaled (Zpos m) e ltac:(lia) He) as (Hv0 & Hnear & Htie).
    cbv zeta in Hnear, Htie.
    set (v := round_half_even (Zpos m) e) in *.
    set (d := 2 ^ (- e)) in *.
    assert (Hd : 0 < d) by (apply Z.pow_pos_nonneg; lia).
    rewrite Qpow2_neg_eq by assumption. fold d.
    assert (Hdist : (Qabs (inject_Z (cond_Zopp s v)
                           - inject_Z (cond_Zopp s (Zpos m)) * (1 # Z.to_pos d))
                     == Z.abs (v * d - Zpos m) # Z.to_pos d)%Q).
    { unfold Qeq, Qabs, Qminus, Qplus, Qopp, Qmult, inject_Z. cbn [Qnum Qden].
      rewrite !Pos.mul_1_l, !Z.mul_1_r, Z2Pos.id by assumption.
      f_equal. destruct s; cbn [cond_Zopp]; lia. }
    rewrite Hdist. split.
    + unfold Qle. cbn [Qnum Qden]. rewrite Z2Pos.id by assumption. lia.
    + intros Habs.
      assert (Hexact : 2 * Z.abs (v * d - Zpos m) = d).
      { unfold Qeq in Habs. cbn [Qnum Qden] in Habs.
        rewrite Z2Pos.id in Habs by assumption. lia. }
      destruct s; cbn [cond_Zopp]; [rewrite Z.even_opp|]; apply Htie; assumption.
Qed.

(** ** Normalized fraction *)

Lemma cond_Zopp_mul (s : bool) (a b : Z) : cond_Zopp s (a * b) = cond_Zopp s a * b.
Proof. destruct s; cbn [cond_Zopp]; lia. Qed.

(** A float in [[-1, 1]] has no positive exponent. *)
Lemma in_range_exponent (s : bool) (m : positive) (e : Z) :
  (-1 <= SF2Q (S754_finite s m e) <= 1)%Q -> e <= 0.
Proof.
  intros [Hlo Hhi]. destruct (Z.le_gt_cases e 0) as [|He]; [assumption|exfalso].
  cbn [SF2Q] in *. rewrite Qpow2_nonneg_eq in * by lia.
  assert (Hp : 2 ^ 1 <= 2 ^ e) by (apply Z.pow_le_mono_r; lia).
  change (2 ^ 1) with 2 in Hp.
  unfold Qle, Qmult, inject_Z in *. cbn [Qnum Qden] in *.
  destruct s; cbn [cond_Zopp] in *; nia.
Qed.

Lemma float_of_int_2_26 : float_of_int (Z.shiftl 1 26) = Return two_26.
Proof. reflexivity. Qed.

(** The product of a canonical float of [[-1, 1]] by [2^26] is exact. *)
Lemma scale_by_2_26 (s : bool) (m : positive) (e : Z) :
  valid_binary prec emax (S754_finite s m e) = true ->
  e <= 0 ->
  exists m' e',
    SFmul prec emax (S754_finite s m e) two_26 = S754_finite s m' e'
    /\ (SF2Q (S754_finite s m' e') == SF2Q (S754_finite s m e) * inject_Z (2 ^ 26))%Q.
Proof.
  intros Hvalid He.
  cbn [valid_binary] in Hvalid. unfold bounded, canonical_mantissa in Hvalid.
  apply andb_true_iff in Hvalid as [Hcanon _]. apply Z.eqb_eq in Hcanon.
  rewrite fexp_b64 in Hcanon.
  set (d := Zpos (digits2_pos m)) in *.
  pose proof (digits2_pos_spec m) as Hd. fold d in Hd.
  assert (Hdpos : 0 < d) by (unfold d; lia).
  assert (Hdig : Zdigits2 (Zpos (m * 4503599627370496)) = d + 52).
  { apply Zdigits2_unique; [|lia]. rewrite Pos2Z.inj_mul.
    change (Zpos 4503599627370496) with (2 ^ 52).
    replace (d + 52 - 1) with ((d - 1) + 52) by lia.
    rewrite !Z.pow_add_r by lia. nia. }
  set (n := fexp prec emax (d + 52 + (e + -26)) - (e + -26)).
  assert (Hn : 26 <= n <= 52) by (unfold n; rewrite fexp_b64; lia).
  set (k := Zpos m * 2 ^ (52 - n)).
  assert (Hk : Zpos (m * 4503599627370496) = k * 2 ^ n).
  { unfold k. rewrite Pos2Z.inj_mul. change (Zpos 4503599627370496) with (2 ^ 52).
    rewrite <- Z.mul_assoc, <- Z.pow_add_r by lia. do 2 f_equal. lia. }
  assert (Hkpos : 0 < k) by (unfold k; apply Z.mul_pos_pos; [lia|apply Z.pow_pos_nonneg; lia]).
  exists (Z.to_pos k), (e + -26 + n). split.
  - unfold two_26. cbn [SFmul]. rewrite xorb_false_r.
    apply binary_round_aux_exact; [rewrite Hdig; reflexivity|lia|exact Hk|lia].
  - cbn [SF2Q]. rewrite Z2Pos.id by assumption. unfold k.
    rewrite cond_Zopp_mul, inject_Z_mult.
    rewrite <- (Qpow2_nonneg_eq (52 - n)) by lia.
    rewrite <- (Qpow2_nonneg_eq 26) by lia.
    rewrite <- !Qmult_assoc, <- !Qpow2_add.
    replace (52 - n + (e + -26 + n)) with (e + 26) by lia. reflexivity.
Qed.

(** The four digit groups hold the 28 bits of the biased value. *)
Lemma normalized_digits (u : Z) :
  0 <= u < 2 ^ 28 ->
  let ds := map (fun i => Z.land (Z.shiftr u (7 * i)) 0x7F) (reversed_range_step 4 1) in
  ds = [Z.land (Z.shiftr u 21) 0x7F; Z.land (Z.shiftr u 14) 0x7F;
        Z.land (Z.shiftr u 7) 0x7F; Z.land (Z.shiftr u 0) 0x7F]
  /\ Forall (fun d => 0 <= d < 128) ds
  /\ be7_value ds = u.
Proof.
  intros Hu. cbv zeta. split; [reflexivity|]. split.
  - apply Forall_forall. intros b Hb. apply in_map_iff in Hb as (i & <- & _).
    change 127 with (Z.ones 7). rewrite Z.land_ones by lia.
    apply Z.mod_pos_bound. reflexivity.
  - pose proof (be7_digits u 4 0) as Hval.
    change (7 * Z.of_nat 4) with 28 in Hval.
    rewrite Z.mod_small in Hval by exact Hu.
    exact Hval.
Qed.

(** From the rounded value on: the bias, the bytes, and the decoder. *)
Lemma normalized_bytes (v : Z) (q : Q) :
  (-1 <= q <= 1)%Q ->
  (Qabs (inject_Z v - q * inject_Z (2 ^ 26)) <= 1 # 2)%Q ->
  let u := if v <? 0 then v + Z.shiftl 1 (7 * 4) - Z.shiftl 1 (7 * 4 - 2) else v in
  let ds := map (fun i => Z.land (Z.shiftr u (7 * i)) 0x7F) (reversed_range_step 4 1) in
  exists d3 d2 d1 d0,
    ds = [d3; d2; d1; d0]
    /\ Forall (fun d => 0 <= d < 128) [d3; d2; d1; d0]
    /\ be7_value [d3; d2; d1; d0] = (if v <? 0 then v + (2 ^ 28 - 2 ^ 26) else v)
    /\ exists y,
        decode_normalized ([0x42; 4] ++ [d3; d2; d1; d0]) = Some y
        /\ (Qabs (y - q) <= Qpow2 (-26))%Q.
Proof.
  intros [Hlo Hhi] Hnear. cbv zeta.
  apply Qabs_Qle_condition in Hnear as [Hn1 Hn2].
  change (inject_Z (2 ^ 26)) with (67108864 # 1)%Q in *.
  assert (Hv : - 2 ^ 26 <= v <= 2 ^ 26).
  { assert (H1 : (inject_Z v <= (67108864 # 1) + (1 # 2))%Q) by lra.
    assert (H2 : (- (67108864 # 1) - (1 # 2) <= inject_Z v)%Q) by lra.
    unfold Qle, Qplus, Qminus, Qopp, inject_Z in H1, H2. cbn in H1, H2.
    change (2 ^ 26) with 67108864. lia. }
  change (Z.shiftl 1 (7 * 4)) with (2 ^ 28). change (Z.shiftl 1 (7 * 4 - 2)) with (2 ^ 26).
  set (u := if v <? 0 then v + 2 ^ 28 - 2 ^ 26 else v).
  assert (Hu : 0 <= u < 2 ^ 28).
  { unfold u. change (2 ^ 28) with 268435456. change (2 ^ 26) with 67108864 in *.
    destruct (Z.ltb_spec v 0); lia. }
  destruct (normalized_digits u Hu) as (Hds & Hrange & Hval). cbv zeta in Hds, Hrange, Hval.
  rewrite Hds in *.
  eexists _, _, _, _. split; [reflexivity|]. split; [exact Hrange|]. split.
  { rewrite Hval. unfold u. destruct (v <? 0); lia. }
  exists (inject_Z v / inject_Z (2 ^ 26))%Q. split.
  - unfold decode_normalized. cbn [app].
    change (0x42 =? 0x42) with true. change (4 =? 4) with true. cbn [andb].
    rewrite Hval.
    assert (Hback : (if 2 ^ 26 <? u then u - (2 ^ 28 - 2 ^ 26) else u) = v).
    { unfold u. change (2 ^ 28) with 268435456. change (2 ^ 26) with 67108864 in *.
      destruct (Z.ltb_spec v 0).
      - destruct (Z.ltb_spec 67108864 (v + 268435456 - 67108864)); lia.
      - destruct (Z.ltb_spec 67108864 v); lia. }
    rewrite Hback. reflexivity.
  - change (inject_Z (2 ^ 26)) with (67108864 # 1)%Q.
    change (Qpow2 (-26)) with (1 # 67108864)%Q.
    apply Qabs_Qle_condition.
    assert (Hy : (inject_Z v / (67108864 # 1) == inject_Z v * (1 # 67108864))%Q)
      by reflexivity.
    rewrite Hy. split; lra.
Qed.

(** What [encode_normalized] computes once the guard has let the number
    through and the product and the rounding have returned [v]. *)
Lemma encode_normalized_after_round (x scaled : pynum) (v : Z) :
  py_le (PyInt (-1)) x && py_le x (PyInt 1) = true ->
  py_mul x (PyInt (Z.shiftl 1 26)) = Return scaled ->
  py_round scaled = Return v ->
  encode_normalized x
  = Return ([0x42; 4]
              ++ map (fun i => Z.land (Z.shiftr
                                         (if v <? 0
                                          then v + Z.shiftl 1 (7 * 4) - Z.shiftl 1 (7 * 4 - 2)
                                          else v) (7 * i)) 0x7F)
                     (reversed_range_step 4 1)).
Proof.
  intros Hguard Hmul Hround. unfold encode_normalized. rewrite Hguard. cbn [negb].
  change (Z.shiftl 1 (7 * 4 - 2)) with (Z.shiftl 1 26) at 1.
  rewrite Hmul. cbn [bind]. rewrite Hround. reflexivity.
Qed.

(** C3.  For every number [x] (an [int], or a canonical binary64 float):
    when [x] has a value in [[-1, 1]] the encoder returns tag [0x42], byte
    count [4] and four big-endian 7-bit digit groups that hold [v], biased
    by [2^28 - 2^26] when negative, where [v] is the integer nearest to
    [x * 2^26] (the even one on a tie), and the decoder recovers a value
    within [2^-26] of [x]; when [x] has a value outside [[-1, 1]], or is a
    NaN or an infinity, the encoder raises [ValueError] (the spec's
    DomainError) and returns no bytes. *)
Theorem encode_normalized_spec (x : pynum) (Hwf : wf_pynum x) :
  match pyval x with
  | Some q =>
      ((-1 <= q <= 1)%Q ->
       exists v d3 d2 d1 d0,
         encode_normalized x = Return [0x42; 4; d3; d2; d1; d0]
         /\ (Qabs (inject_Z v - q * inject_Z (2 ^ 26)) <= 1 # 2)%Q
         /\ ((Qabs (inject_Z v - q * inject_Z (2 ^ 26)) == 1 # 2)%Q -> Z.even v = true)
         /\ Forall (fun d => 0 <= d < 128) [d3; d2; d1; d0]
         /\ be7_value [d3; d2; d1; d0] = (if v <? 0 then v + (2 ^ 28 - 2 ^ 26) else v)
         /\ exists y,
             decode_normalized [0x42; 4; d3; d2; d1; d0] = Some y
             /\ (Qabs (y - q) <= Qpow2 (-26))%Q)
      /\ (~ (-1 <= q <= 1)%Q -> encode_normalized x = Raise ValueError)
  | None => encode_normalized x = Raise ValueError
  end.
Proof.
  destruct (pyval x) as [q|] eqn:Hval.
  2:{ unfold encode_normalized. rewrite normalized_guard_no_value by assumption.
      reflexivity. }
  pose proof (normalized_guard x q Hval) as Hguard.
  split.
  2:{ intros Hout. unfold encode_normalized.
      destruct (py_le (PyInt (-1)) x && py_le x (PyInt 1)); [|reflexivity].
      exfalso. apply Hout. apply Hguard. reflexivity. }
  intros Hin. pose proof (proj2 Hguard Hin) as Hpass.
  (* the product by 2^26 and its rounding: an integer nearest to q * 2^26 *)
  assert (Hround : exists scaled v,
             py_mul x (PyInt (Z.shiftl 1 26)) = Return scaled
             /\ py_round scaled = Return v
             /\ (Qabs (inject_Z v - q * inject_Z (2 ^ 26)) <= 1 # 2)%Q
             /\ ((Qabs (inject_Z v - q * inject_Z (2 ^ 26)) == 1 # 2)%Q
                 -> Z.even v = true)).
  { destruct x as [z|f]; cbn [pyval] in Hval.
    - injection Hval as <-. exists (PyInt (z * Z.shiftl 1 26)), (z * Z.shiftl 1 26).
      split; [reflexivity|]. split; [reflexivity|].
      assert (Hzero : (inject_Z (z * Z.shiftl 1 26) - inject_Z z * inject_Z (2 ^ 26) == 0)%Q).
      { rewrite <- inject_Z_mult. change (Z.shiftl 1 26) with (2 ^ 26).
        unfold Qeq, Qminus, Qplus, Qopp, inject_Z. cbn [Qnum Qden]. lia. }
      rewrite Hzero. split; [discriminate|]. intros Habs. discriminate Habs.
    - destruct (is_finite f) eqn:Hfin; [|discriminate]. injection Hval as <-.
      destruct f as [s|s| |s m e]; try discriminate.
      + exists (PyFloat (S754_zero s)), 0.
        split; [destruct s; reflexivity|]. split; [reflexivity|].
        split; [discriminate|]. intros Habs. discriminate Habs.
      + destruct (scale_by_2_26 s m e Hwf (in_range_exponent s m e Hin))
          as (m' & e' & Hmul & Hvalue).
        exists (PyFloat (S754_finite s m' e')),
          (cond_Zopp s (round_half_even (Zpos m') e')).
        split.
        { cbn [py_mul]. rewrite float_of_int_2_26. cbn [bind]. rewrite Hmul. reflexivity. }
        split; [reflexivity|].
        pose proof (round_half_even_value s m' e') as Hnear. cbv zeta in Hnear.
        rewrite Hvalue in Hnear. exact Hnear. }
  destruct Hround as (scaled & v & Hmul & Hrd & Hnear & Htie).
  destruct (normalized_bytes v q Hin Hnear) as (d3 & d2 & d1 & d0 & Hds & Hrange & Hbe & Hdec).
  cbv zeta in Hds.
  exists v, d3, d2, d1, d0.
  split.
  { rewrite (encode_normalized_after_round x scaled v Hpass Hmul Hrd), Hds. reflexivity. }
  split; [exact Hnear|]. split; [exact Htie|]. split; [exact Hrange|].
  split; [exact Hbe|exact Hdec].
Qed.

Lemma encode_normalized_spec_witness :
  match pyval (PyFloat (S754_finite true 6004799503160661 (-54))) with
  | Some q =>
      ((-1 <= q <= 1)%Q ->
       exists v d3 d2 d1 d0,
         encode_normalized (PyFloat (S754_finite true 6004799503160661 (-54)))
         = Return [0x42; 4; d3; d2; d1; d0]
         /\ (Qabs (inject_Z v - q * inject_Z (2 ^ 26)) <= 1 # 2)%Q
         /\ ((Qabs (inject_Z v - q * inject_Z (2 ^ 26)) == 1 # 2)%Q -> Z.even v = true)
         /\ Forall (fun d => 0 <= d < 128) [d3; d2; d1; d0]
         /\ be7_value [d3; d2; d1; d0] = (if v <? 0 then v + (2 ^ 28 - 2 ^ 26) else v)
         /\ exists y,
             decode_normalized [0x42; 4; d3; d2; d1; d0] = Some y
             /\ (Qabs (y - q) <= Qpow2 (-26))%Q)
      /\ (~ (-1 <= q <= 1)%Q
          -> encode_normalized (PyFloat (S754_finite true 6004799503160661 (-54)))
             = Raise ValueError)
  | None =>
      encode_normalized (PyFloat (S754_finite true 6004799503160661 (-54)))
      = Raise ValueError
  end.
Proof.
  apply (encode_normalized_spec (PyFloat (S754_finite true 6004799503160661 (-54)))).
  reflexivity.
Defined.

(** ** Rounding error *)

Lemma round_nearest_even_cases (m : Z) (l : location) :
  round_nearest_even m l = m \/ round_nearest_even m l = m + 1.
Proof.
  destruct l as [|[| |]]; cbn [round_nearest_even]; auto.
  destruct (Z.even m); auto.
Qed.

Lemma shr_record_of_loc_m (m : Z) (l : location) : shr_m (shr_record_of_loc m l) = m.
Proof. destruct l as [|[| |]]; reflexivity. Qed.

Lemma shr_fexp_spec (m e : Z) (l : location) :
  0 <= m ->
  let n := Z.max (fexp prec emax (Zdigits2 m + e) - e) 0 in
  shr_m (fst (shr_fexp prec emax m e l)) = m / 2 ^ n
  /\ snd (shr_fexp prec emax m e l) = e + n.
Proof.
  intros Hm. cbv zeta. unfold shr_fexp.
  destruct (shr_spec (shr_record_of_loc m l) e (fexp prec emax (Zdigits2 m + e) - e))
    as [H1 H2]; [rewrite shr_record_of_loc_m; assumption|].
  rewrite shr_record_of_loc_m in H1. split; assumption.
Qed.

Lemma normal53_valid (s : bool) (m : positive) (e : Z) :
  normal53 m e -> valid_binary prec emax (S754_finite s m e) = true.
Proof.
  intros [Hm He]. cbn [valid_binary]. unfold bounded, canonical_mantissa.
  assert (Hd : Zdigits2 (Zpos m) = 53) by (apply Zdigits2_unique; [exact Hm|lia]).
  cbn [Zdigits2] in Hd. rewrite Hd, fexp_b64.
  apply andb_true_iff. split; [apply Z.eqb_eq; lia|apply Z.leb_le; unfold emax, prec; lia].
Qed.

(** The mantissa [binary_round_aux] keeps: the top 53 bits of [mz], or one
    more.  [mz] has at least 53 bits and the result is in the exponent
    range of the normal numbers. *)
Lemma binary_round_aux_mantissa (s : bool) (mz e : Z) (l : location) :
  0 < mz ->
  let n := Zdigits2 mz - 53 in
  0 <= n ->
  -1074 <= e + n ->
  e + n + 1 <= 971 ->
  exists m' e',
    binary_round_aux prec emax s mz e l = S754_finite s m' e'
    /\ normal53 m' e'
    /\ e + n <= e' <= e + n + 1
    /\ mz / 2 ^ n <= Zpos m' * 2 ^ (e' - e - n) <= mz / 2 ^ n + 1.
Proof.
  intros Hmz n Hn Hlo Hhi.
  pose proof (Zdigits2_spec mz Hmz) as Hd.
  assert (Hdig : Zdigits2 mz = n + 53) by (unfold n; lia).
  rewrite Hdig in Hd.
  set (m0 := mz / 2 ^ n).
  assert (Hpn : 0 < 2 ^ n) by (apply Z.pow_pos_nonneg; lia).
  assert (Hm0 : 2 ^ 52 <= m0 < 2 ^ 53).
  { unfold m0. replace (n + 53 - 1) with (52 + n) in Hd by lia.
    replace (n + 53) with (53 + n) in Hd by lia.
    rewrite !Z.pow_add_r in Hd by lia.
    split; [apply Z.div_le_lower_bound; lia|apply Z.div_lt_upper_bound; lia]. }
  unfold binary_round_aux.
  destruct (shr_fexp_spec mz e l ltac:(lia)) as [Hs1 He1]. cbv zeta in Hs1, He1.
  rewrite Hdig, fexp_b64 in Hs1, He1.
  replace (Z.max (Z.max (n + 53 + e - 53) (-1074) - e) 0) with n in Hs1, He1 by lia.
  fold m0 in Hs1.
  destruct (shr_fexp prec emax mz e l) as [mrs1 e1]. cbn [fst snd] in Hs1, He1.
  rewrite Hs1. subst e1.
  set (m1 := round_nearest_even m0 (loc_of_shr_record mrs1)).
  assert (Hm1 : m1 = m0 \/ m1 = m0 + 1) by apply round_nearest_even_cases.
  destruct (shr_fexp_spec m1 (e + n) loc_Exact ltac:(lia)) as [Hs2 He2].
  cbv zeta in Hs2, He2.
  destruct (Z.eq_dec m1 (2 ^ 53)) as [Htop|Hin].
  - (* the rounding carried into a 54th bit *)
    assert (Hd1 : Zdigits2 m1 = 54) by (rewrite Htop; reflexivity).
    rewrite Hd1, fexp_b64 in Hs2, He2.
    replace (Z.max (Z.max (54 + (e + n) - 53) (-1074) - (e + n)) 0) with 1 in Hs2, He2 by lia.
    destruct (shr_fexp prec emax m1 (e + n) loc_Exact) as [mrs2 e2]. cbn [fst snd] in Hs2, He2.
    rewrite Hs2, Htop. change (2 ^ 53 / 2 ^ 1) with (Zpos 4503599627370496). subst e2.
    destruct (Z.leb_spec (e + n + 1) (emax - prec)) as [_|Hbad];
      [|unfold emax, prec in Hbad; lia].
    exists 4503599627370496%positive, (e + n + 1).
    split; [reflexivity|]. split; [split; [cbn; lia|lia]|]. split; [lia|].
    replace (e + n + 1 - e - n) with 1 by lia.
    change (Zpos 4503599627370496 * 2 ^ 1) with (2 ^ 53). lia.
  - assert (Hd1 : Zdigits2 m1 = 53) by (apply Zdigits2_unique; lia).
    rewrite Hd1, fexp_b64 in Hs2, He2.
    replace (Z.max (Z.max (53 + (e + n) - 53) (-1074) - (e + n)) 0) with 0 in Hs2, He2 by lia.
    destruct (shr_fexp prec emax m1 (e + n) loc_Exact) as [mrs2 e2]. cbn [fst snd] in Hs2, He2.
    rewrite Hs2. change (2 ^ 0) with 1. rewrite Z.div_1_r. subst e2. rewrite Z.add_0_r.
    destruct m1 as [|p1|p1]; try lia.
    destruct (Z.leb_spec (e + n) (emax - prec)) as [_|Hbad];
      [|unfold emax, prec in Hbad; lia].
    exists p1, (e + n).
    split; [reflexivity|]. split; [split; lia|]. split; [lia|].
    replace (e + n - e - n) with 0 by lia. change (2 ^ 0) with 1. lia.
Qed.

Lemma rounding_error (T U X V : Q) :
  (0 < U)%Q ->
  (inject_Z (2 ^ 52) * U <= T)%Q ->
  (T <= V <= T + U)%Q ->
  (T <= X <= T + U)%Q ->
  (X * (1 - eps) <= V <= X * (1 + eps))%Q.
Proof.
  unfold eps. change (Qpow2 (-52)) with (1 # 4503599627370496)%Q.
  change (inject_Z (2 ^ 52)) with (4503599627370496 # 1)%Q.
  intros HU HT [HV1 HV2] [HX1 HX2]. split; lra.
Qed.

(** [binary_round_aux], on values: the result is within [eps] of whatever
    lies between [mz * 2^e] and [(mz + 1) * 2^e]. *)
Lemma binary_round_aux_error (s : bool) (mz e : Z) (l : location) (X : Q) :
  0 < mz ->
  let n := Zdigits2 mz - 53 in
  0 <= n ->
  -1074 <= e + n ->
  e + n + 1 <= 971 ->
  (inject_Z mz * Qpow2 e <= X <= inject_Z (mz + 1) * Qpow2 e)%Q ->
  exists m' e',
    binary_round_aux prec emax s mz e l = S754_finite s m' e'
    /\ normal53 m' e'
    /\ e + n <= e' <= e + n + 1
    /\ (X * (1 - eps) <= inject_Z (Zpos m') * Qpow2 e' <= X * (1 + eps))%Q.
Proof.
  intros Hmz n Hn Hlo Hhi [HX1 HX2].
  destruct (binary_round_aux_mantissa s mz e l Hmz Hn Hlo Hhi)
    as (m' & e' & Hres & Hnormal & He' & Hm').
  fold n in Hm'.
  exists m', e'. split; [exact Hres|]. split; [exact Hnormal|]. split; [exact He'|].
  pose proof (Zdigits2_spec mz Hmz) as Hd.
  assert (Hdig : Zdigits2 mz = n + 53) by (unfold n; lia).
  rewrite Hdig in Hd.
  assert (Hpn : 0 < 2 ^ n) by (apply Z.pow_pos_nonneg; lia).
  set (m0 := mz / 2 ^ n) in *.
  assert (Hm0 : 2 ^ 52 <= m0).
  { unfold m0. replace (n + 53 - 1) with (52 + n) in Hd by lia.
    rewrite Z.pow_add_r in Hd by lia. apply Z.div_le_lower_bound; lia. }
  assert (Hfloor : m0 * 2 ^ n <= mz /\ mz + 1 <= (m0 + 1) * 2 ^ n).
  { pose proof (Z.div_mod mz (2 ^ n) ltac:(lia)) as Hdm.
    pose proof (Z.mod_pos_bound mz (2 ^ n) Hpn). fold m0 in Hdm. nia. }
  set (U := Qpow2 (e + n)).
  assert (HU : (0 < U)%Q) by apply Qpow2_pos.
  assert (HUe : (Qpow2 e * inject_Z (2 ^ n) == U)%Q).
  { unfold U. rewrite Qpow2_add, (Qpow2_nonneg_eq n) by lia. reflexivity. }
  assert (HV : (inject_Z (Zpos m') * Qpow2 e' == inject_Z (Zpos m' * 2 ^ (e' - e - n)) * U)%Q).
  { unfold U. rewrite inject_Z_mult, <- (Qpow2_nonneg_eq (e' - e - n)) by lia.
    rewrite <- Qmult_assoc, <- Qpow2_add.
    replace (e' - e - n + (e + n)) with e' by lia. reflexivity. }
  assert (Hscale : forall a b : Z, a <= b -> (inject_Z a * U <= inject_Z b * U)%Q).
  { intros a b Hab. apply Qmult_le_compat_r; [|apply Qlt_le_weak; exact HU].
    rewrite <- Zle_Qle. exact Hab. }
  assert (Hscale_e : forall a b : Z,
             a * 2 ^ n <= b -> (inject_Z a * U <= inject_Z b * Qpow2 e)%Q).
  { intros a b Hab. rewrite <- HUe.
    rewrite (Qmult_comm (Qpow2 e)), Qmult_assoc, <- inject_Z_mult.
    apply Qmult_le_compat_r; [|apply Qlt_le_weak; apply Qpow2_pos].
    rewrite <- Zle_Qle. exact Hab. }
  assert (Hscale_e' : forall a b : Z,
             b <= a * 2 ^ n -> (inject_Z b * Qpow2 e <= inject_Z a * U)%Q).
  { intros a b Hab. rewrite <- HUe.
    rewrite (Qmult_comm (Qpow2 e)), Qmult_assoc, <- inject_Z_mult.
    apply Qmult_le_compat_r; [|apply Qlt_le_weak; apply Qpow2_pos].
    rewrite <- Zle_Qle. exact Hab. }
  assert (Hplus : (inject_Z (m0 + 1) * U == inject_Z m0 * U + U)%Q).
  { rewrite inject_Z_plus. change (inject_Z 1) with 1%Q. ring. }
  apply (rounding_error (inject_Z m0 * U) U).
  - exact HU.
  - apply Hscale. exact Hm0.
  - rewrite HV, <- Hplus. split; apply Hscale; lia.
  - rewrite <- Hplus. split.
    + eapply Qle_trans; [|exact HX1]. apply Hscale_e. lia.
    + eapply Qle_trans; [exact HX2|]. apply Hscale_e'. lia.
Qed.

(** ** Header builder *)

Lemma encode_values_returns (vs : list encoded_value) :
  (exists bs, encode_values vs = Return bs) <-> Forall encodes vs.
Proof.
  induction vs as [|v vs IH]; cbn [encode_values].
  - split; [constructor|eauto].
  - split.
    + intros (bs & Hbs). destruct (encode_value v) as [b| |] eqn:Hv; try discriminate.
      cbn [bind] in Hbs. destruct (encode_values vs) as [bs'| |]; try discriminate.
      constructor; [exists b; assumption|apply IH; eauto].
    + intros Hall. apply Forall_cons_iff in Hall as [(b & Hb) Hall].
      apply IH in Hall as (bs & Hbs). rewrite Hb, Hbs. cbn [bind]. eauto.
Qed.

Lemma encode_directives_returns (ds : list directive) :
  (exists h, encode_directives ds = Return h)
  <-> Forall (fun d => Forall encodes (snd d)) ds.
Proof.
  induction ds as [|[opcode vs] ds IH]; cbn [encode_directives].
  - split; [constructor|eauto].
  - split.
    + intros (h & Hh). destruct (encode_values vs) as [b| |] eqn:Hvs; try discriminate.
      cbn [bind] in Hh. destruct (encode_directives ds) as [bs| |]; try discriminate.
      constructor; [cbn [snd]; apply (proj1 (encode_values_returns vs)); eauto
                   |apply IH; eauto].
    + intros Hall. apply Forall_cons_iff in Hall as [Hvs Hall]. cbn [snd] in Hvs.
      apply (proj2 (encode_values_returns vs)) in Hvs as (b & Hb).
      apply IH in Hall as (bs & Hbs). rewrite Hb, Hbs. cbn [bind]. eauto.
Qed.

Lemma encode_integer_0 : encode_integer 0 false = Return [0x40; 1; 0].
Proof. reflexivity. Qed.

Lemma encode_integer_7F : encode_integer 0x7F false = Return [0x40; 2; 0; 0x7F].
Proof. reflexivity. Qed.

Lemma encode_normalized_0 : encode_normalized (PyInt 0) = Return [0x42; 4; 0; 0; 0; 0].
Proof. reflexivity. Qed.

(** Run the next call of a chain of binds, on both sides at once. *)
Ltac run_next :=
  match goal with
  | |- context [bind (int_truediv ?a ?b) _] =>
      destruct (int_truediv a b); cbn [bind]; try reflexivity
  | |- context [bind (py_mul ?a ?b) _] =>
      destruct (py_mul a b); cbn [bind]; try reflexivity
  | |- context [bind (encode_normalized ?a) _] =>
      destruct (encode_normalized a); cbn [bind]; try reflexivity
  end.

(** The header builder writes the directives of the spec, in their order;
    it raises what the first value that cannot be written raises. *)
Lemma encode_header_refines (x y width height : Z)
    (clear translation reset quantization : bool) :
  encode_header x y width height clear translation reset quantization
  = encode_directives
      (spec_header_descriptor x y width height clear translation reset quantization).
Proof.
  unfold encode_header, spec_header_descriptor, fraction, fraction_075.
  rewrite encode_integer_0, encode_integer_7F, encode_normalized_0.
  destruct reset, clear, quantization, translation;
    cbn [app encode_directives encode_values encode_value bind encode_boolean];
    rewrite ?encode_integer_0, ?encode_integer_7F, ?encode_normalized_0;
    cbn [bind];
    repeat run_next;
    unfold RTD, PDA_LOC, PDA_PAS, PDA_PPL, PDA_CPA, TME, SCA, PDA, PSA, TCA;
    repeat first [progress cbn [app]
                 |progress rewrite <- app_assoc
                 |progress rewrite app_nil_r];
    reflexivity.
Qed.

(** C4 as the spec states it, for every origin, fails at an origin right of
    the canvas: [400 / 320]
    is not a normalized fraction, and the builder emits nothing. *)
Lemma encode_header_directives_counterexample :
  encode_header 400 0 8 10 true false true false = Raise ValueError.
Proof. vm_compute. reflexivity. Qed.

(** C4 (amended).  For every origin, box and flags, the header builder
    writes, in this order, the directives reset (iff the reset flag),
    position, size, geometry, clear (iff the clear flag), quantization
    announcement (iff the quantization flag), translation mode (iff the
    translation flag), where position carries Normalized(x / 320) and
    Normalized((240 - height - y) / 240 * 0.75), size carries
    Normalized(width / 320) and Normalized(height / 240 * 0.75), and
    geometry carries Integer(0), Integer(0), Normalized(0) and
    Normalized(height / 240 * 0.75); it returns exactly when every value of
    these directives can be written, and otherwise raises what the first
    one that cannot raises. *)
Theorem encode_header_directives (x y width height : Z)
    (clear translation reset quantization : bool) :
  let ds := spec_header_descriptor x y width height clear translation reset quantization in
  encode_header x y width height clear translation reset quantization
  = encode_directives ds
  /\ ((exists h,
          encode_header x y width height clear translation reset quantization = Return h)
      <-> Forall (fun d => Forall encodes (snd d)) ds)
  /\ map fst ds
     = (if reset then [RTD] else [])
         ++ [PDA_LOC; PDA_PAS; PDA_PPL]
         ++ (if clear then [PDA_CPA] else [])
         ++ (if quantization then [SCA ++ [0x31]] else [])
         ++ (if translation then [TME] else []).
Proof.
  cbv zeta. split; [apply encode_header_refines|]. split.
  - rewrite encode_header_refines. apply encode_directives_returns.
  - unfold spec_header_descriptor.
    destruct reset, clear, quantization, translation; reflexivity.
Qed.

(** ** Conversion, division, product and comparison of binary64 numbers *)

Lemma Qpow2_mono (a b : Z) : a <= b -> (Qpow2 a <= Qpow2 b)%Q.
Proof.
  intros Hab. replace b with (a + (b - a)) by lia. rewrite Qpow2_add.
  rewrite <- (Qmult_1_r (Qpow2 a)) at 1.
  apply Qmult_le_l; [apply Qpow2_pos|].
  rewrite Qpow2_nonneg_eq by lia. change 1%Q with (inject_Z 1). rewrite <- Zle_Qle.
  pose proof (Z.pow_pos_nonneg 2 (b - a)). lia.
Qed.

Lemma SF2Q_normal_bounds (m : positive) (e : Z) :
  normal53 m e ->
  (Qpow2 (e + 52) <= SF2Q (S754_finite false m e))%Q
  /\ (SF2Q (S754_finite false m e) < Qpow2 (e + 53))%Q.
Proof.
  intros [[Hlo Hhi] _]. cbn [SF2Q cond_Zopp].
  rewrite !(Z.add_comm e), !Qpow2_add.
  rewrite (Qpow2_nonneg_eq 52), (Qpow2_nonneg_eq 53) by lia. split.
  - apply Qmult_le_compat_r; [|apply Qlt_le_weak, Qpow2_pos]. rewrite <- Zle_Qle. exact Hlo.
  - apply (proj2 (Qmult_lt_r _ _ _ (Qpow2_pos e))). rewrite <- Zlt_Qlt. exact Hhi.
Qed.

Lemma SF2Q_normal_pos (m : positive) (e : Z) :
  normal53 m e -> (0 < SF2Q (S754_finite false m e))%Q.
Proof.
  intros Hn. eapply Qlt_le_trans; [apply (Qpow2_pos (e + 52))|].
  apply SF2Q_normal_bounds. exact Hn.
Qed.

(** [<] on normal positive numbers is [<] on their values. *)
Lemma SFltb_normal (m1 : positive) (e1 : Z) (m2 : positive) (e2 : Z) :
  normal53 m1 e1 -> normal53 m2 e2 ->
  (SFltb (S754_finite false m1 e1) (S754_finite false m2 e2) = true
   <-> (SF2Q (S754_finite false m1 e1) < SF2Q (S754_finite false m2 e2))%Q).
Proof.
  intros Hn1 Hn2.
  pose proof (SF2Q_normal_bounds m1 e1 Hn1) as [Hlo1 Hhi1].
  pose proof (SF2Q_normal_bounds m2 e2 Hn2) as [Hlo2 Hhi2].
  unfold SFltb. cbn [SFcompare].
  destruct (Z.compare_spec e1 e2) as [Heq|Hlt|Hgt].
  - subst e2. change (Pos.compare_cont Eq m1 m2) with (Pos.compare m1 m2).
    cbn [SF2Q cond_Zopp].
    assert (Hiff : (inject_Z (Zpos m1) * Qpow2 e1 < inject_Z (Zpos m2) * Qpow2 e1)%Q
                   <-> (m1 < m2)%positive).
    { rewrite (Qmult_lt_r _ _ _ (Qpow2_pos e1)). rewrite <- Zlt_Qlt. reflexivity. }
    rewrite Hiff. destruct (Pos.compare_spec m1 m2) as [->|Hl|Hg].
    + split; [discriminate|]. intros Hbad. exfalso. revert Hbad. apply Pos.lt_irrefl.
    + split; [intros _; assumption|reflexivity].
    + split; [discriminate|]. intros Hbad. exfalso. lia.
  - split; [intros _|reflexivity].
    eapply Qlt_le_trans; [exact Hhi1|]. eapply Qle_trans; [|exact Hlo2].
    apply Qpow2_mono. lia.
  - split; [discriminate|]. intros Hbad. exfalso.
    assert (Hge : (SF2Q (S754_finite false m2 e2) < SF2Q (S754_finite false m1 e1))%Q).
    { eapply Qlt_le_trans; [exact Hhi2|]. eapply Qle_trans; [|exact Hlo1].
      apply Qpow2_mono. lia. }
    apply (Qlt_irrefl (SF2Q (S754_finite false m1 e1))).
    eapply Qlt_trans; eassumption.
Qed.

Lemma pos_iter_xO (w p : positive) : Zpos (Pos.iter xO w p) = Zpos w * 2 ^ Zpos p.
Proof.
  induction p as [|p IH] using Pos.peano_ind.
  - cbn [Pos.iter]. change (2 ^ 1) with 2. lia.
  - rewrite Pos.iter_succ, Pos2Z.inj_xO, IH, Pos2Z.inj_succ, Z.pow_succ_r by lia. ring.
Qed.

(** [float(W)] is exact up to 53 bits. *)
Lemma float_of_int_exact (W : Z) :
  0 < W < 2 ^ 53 ->
  exists m e,
    float_of_int W = Return (S754_finite false m e)
    /\ normal53 m e
    /\ e = Zdigits2 W - 53
    /\ (SF2Q (S754_finite false m e) == inject_Z W)%Q.
Proof.
  intros HW. destruct W as [|w|w]; try lia.
  pose proof (Zdigits2_spec (Zpos w) ltac:(lia)) as Hd.
  set (d := Zdigits2 (Zpos w)) in *.
  assert (Hd53 : 1 <= d <= 53).
  { split.
    - unfold d. cbn [Zdigits2]. lia.
    - destruct (Z.le_gt_cases d 53) as [|Hbig]; [assumption|exfalso].
      assert (2 ^ 53 <= 2 ^ (d - 1)) by (apply Z.pow_le_mono_r; lia). lia. }
  set (mz := Z.to_pos (Zpos w * 2 ^ (53 - d))).
  assert (Hpow : 0 < 2 ^ (53 - d)) by (apply Z.pow_pos_nonneg; lia).
  assert (Hmz : Zpos mz = Zpos w * 2 ^ (53 - d)) by (unfold mz; rewrite Z2Pos.id; lia).
  assert (Hnormal : 2 ^ 52 <= Zpos mz < 2 ^ 53).
  { rewrite Hmz.
    assert (E52 : 2 ^ 52 = 2 ^ (d - 1) * 2 ^ (53 - d))
      by (rewrite <- Z.pow_add_r by lia; f_equal; lia).
    assert (E53 : 2 ^ 53 = 2 ^ d * 2 ^ (53 - d))
      by (rewrite <- Z.pow_add_r by lia; f_equal; lia).
    rewrite E52, E53. split.
    - apply Z.mul_le_mono_nonneg_r; lia.
    - apply Z.mul_lt_mono_pos_r; lia. }
  assert (Hdz : Zdigits2 (Zpos mz) = 53) by (apply Zdigits2_unique; [exact Hnormal|lia]).
  assert (Halign : shl_align w 0 (fexp prec emax (Zpos (digits2_pos w) + 0)) = (mz, d - 53)).
  { change (Zpos (digits2_pos w)) with d. rewrite fexp_b64.
    replace (Z.max (d + 0 - 53) (-1074)) with (d - 53) by lia.
    unfold shl_align. rewrite Z.sub_0_r.
    destruct (d - 53) as [|p|p] eqn:Hp; try lia.
    - f_equal. apply Pos2Z.inj. rewrite Hmz.
      replace (53 - d) with 0 by lia. cbn. lia.
    - f_equal. apply Pos2Z.inj. rewrite Hmz, pos_iter_xO. do 2 f_equal. lia. }
  exists mz, (d - 53).
  split; [|split; [split; [exact Hnormal|lia]|split; [reflexivity|]]].
  - unfold float_of_int. cbn [binary_normalize]. unfold binary_round. rewrite Halign.
    rewrite (binary_round_aux_exact false mz (d - 53) (Zpos mz) 0).
    + rewrite Z.add_0_r, Pos2Z.id. reflexivity.
    + rewrite Hdz, fexp_b64. lia.
    + lia.
    + cbn. lia.
    + lia.
  - cbn [SF2Q cond_Zopp]. rewrite Hmz, inject_Z_mult.
    rewrite <- (Qpow2_nonneg_eq (53 - d)) by lia.
    rewrite <- Qmult_assoc, <- Qpow2_add.
    replace (53 - d + (d - 53)) with 0 by lia.
    change (Qpow2 0) with 1%Q. ring.
Qed.

(** The product of two normal positive numbers, away from the ends of the
    exponent range: a normal number within [eps] of the exact product. *)
Lemma SFmul_error (m1 : positive) (e1 : Z) (m2 : positive) (e2 : Z) :
  normal53 m1 e1 -> normal53 m2 e2 ->
  -1126 <= e1 + e2 <= 917 ->
  let X := (SF2Q (S754_finite false m1 e1) * SF2Q (S754_finite false m2 e2))%Q in
  exists m' e',
    SFmul prec emax (S754_finite false m1 e1) (S754_finite false m2 e2)
    = S754_finite false m' e'
    /\ normal53 m' e'
    /\ (X * (1 - eps) <= SF2Q (S754_finite false m' e') <= X * (1 + eps))%Q.
Proof.
  intros [[Hlo1 Hhi1] _] [[Hlo2 Hhi2] _] He X.
  assert (Hprod : 2 ^ 104 <= Zpos (m1 * m2) < 2 ^ 106).
  { rewrite Pos2Z.inj_mul.
    change (2 ^ 104) with (2 ^ 52 * 2 ^ 52). change (2 ^ 106) with (2 ^ 53 * 2 ^ 53).
    split; [apply Z.mul_le_mono_nonneg; lia|apply Z.mul_lt_mono_nonneg; lia]. }
  assert (Hdig : 105 <= Zdigits2 (Zpos (m1 * m2)) <= 106).
  { pose proof (Zdigits2_spec (Zpos (m1 * m2)) ltac:(lia)) as Hd.
    set (d := Zdigits2 (Zpos (m1 * m2))) in *. split.
    - destruct (Z.le_gt_cases 105 d) as [|Hsmall]; [assumption|exfalso].
      assert (2 ^ d <= 2 ^ 104) by (apply Z.pow_le_mono_r; lia). lia.
    - destruct (Z.le_gt_cases d 106) as [|Hbig]; [assumption|exfalso].
      assert (2 ^ 106 <= 2 ^ (d - 1)) by (apply Z.pow_le_mono_r; lia). lia. }
  assert (HX : (inject_Z (Zpos (m1 * m2)) * Qpow2 (e1 + e2) == X)%Q).
  { unfold X. cbn [SF2Q cond_Zopp]. rewrite Pos2Z.inj_mul, inject_Z_mult, Qpow2_add. ring. }
  destruct (binary_round_aux_error false (Zpos (m1 * m2)) (e1 + e2) loc_Exact X)
    as (m' & e' & Hres & Hnormal & _ & Herr); try lia.
  { rewrite <- HX. split; [apply Qle_refl|].
    apply Qmult_le_compat_r; [|apply Qlt_le_weak, Qpow2_pos].
    rewrite <- Zle_Qle. lia. }
  exists m', e'. split; [exact Hres|]. split; [exact Hnormal|exact Herr].
Qed.

(** The quotient of two positive integers below [2^53]: a normal number
    within [eps] of the exact quotient. *)
Lemma int_truediv_error (a b : Z) :
  0 < a < 2 ^ 53 -> 0 < b < 2 ^ 53 ->
  let X := (inject_Z a / inject_Z b)%Q in
  exists m e,
    int_truediv a b = Return (S754_finite false m e)
    /\ normal53 m e
    /\ Zdigits2 a - Zdigits2 b - 53 <= e <= Zdigits2 a - Zdigits2 b - 51
    /\ (X * (1 - eps) <= SF2Q (S754_finite false m e) <= X * (1 + eps))%Q.
Proof.
  intros Ha Hb X.
  pose proof (Zdigits2_spec a ltac:(lia)) as Hda.
  pose proof (Zdigits2_spec b ltac:(lia)) as Hdb.
  set (d1 := Zdigits2 a) in *. set (d2 := Zdigits2 b) in *.
  assert (Hd1 : 1 <= d1 <= 53).
  { split.
    - destruct (Z.le_gt_cases 1 d1) as [|H0]; [assumption|exfalso].
      assert (2 ^ d1 <= 2 ^ 0) by (apply Z.pow_le_mono_r; lia). cbn in *. lia.
    - destruct (Z.le_gt_cases d1 53) as [|Hbig]; [assumption|exfalso].
      assert (2 ^ 53 <= 2 ^ (d1 - 1)) by (apply Z.pow_le_mono_r; lia). lia. }
  assert (Hd2 : 1 <= d2 <= 53).
  { split.
    - destruct (Z.le_gt_cases 1 d2) as [|H0]; [assumption|exfalso].
      assert (2 ^ d2 <= 2 ^ 0) by (apply Z.pow_le_mono_r; lia). cbn in *. lia.
    - destruct (Z.le_gt_cases d2 53) as [|Hbig]; [assumption|exfalso].
      assert (2 ^ 53 <= 2 ^ (d2 - 1)) by (apply Z.pow_le_mono_r; lia). lia. }
  set (s := 53 + d2 - d1).
  assert (Hs : 1 <= s) by (unfold s; lia).
  set (q := (a * 2 ^ s) / b).
  assert (Hps : 0 < 2 ^ s) by (apply Z.pow_pos_nonneg; lia).
  assert (Hq : q * b <= a * 2 ^ s < (q + 1) * b).
  { pose proof (Z.div_mod (a * 2 ^ s) b ltac:(lia)) as Hdm.
    pose proof (Z.mod_pos_bound (a * 2 ^ s) b ltac:(lia)). fold q in Hdm. nia. }
  assert (Hqr : 2 ^ 52 <= q < 2 ^ 54).
  { assert (H1 : 2 ^ 52 * 2 ^ d2 <= a * 2 ^ s).
    { rewrite <- Z.pow_add_r by lia. replace (52 + d2) with ((d1 - 1) + s) by (unfold s; lia).
      rewrite Z.pow_add_r by lia. apply Z.mul_le_mono_nonneg_r; lia. }
    assert (H2 : a * 2 ^ s < 2 ^ 54 * 2 ^ (d2 - 1)).
    { rewrite <- Z.pow_add_r by lia. replace (54 + (d2 - 1)) with (d1 + s) by (unfold s; lia).
      rewrite Z.pow_add_r by lia. apply Z.mul_lt_mono_pos_r; lia. }
    unfold q. split.
    - apply Z.div_le_lower_bound; [lia|]. nia.
    - apply Z.div_lt_upper_bound; [lia|]. nia. }
  assert (Hdq : 53 <= Zdigits2 q <= 54).
  { pose proof (Zdigits2_spec q ltac:(lia)) as Hd.
    set (d := Zdigits2 q) in *. split.
    - destruct (Z.le_gt_cases 53 d) as [|Hsmall]; [assumption|exfalso].
      assert (2 ^ d <= 2 ^ 52) by (apply Z.pow_le_mono_r; lia). lia.
    - destruct (Z.le_gt_cases d 54) as [|Hbig]; [assumption|exfalso].
      assert (2 ^ 54 <= 2 ^ (d - 1)) by (apply Z.pow_le_mono_r; lia). lia. }
  (* the core of the division *)
  assert (Hcore : exists l, SFdiv_core_binary prec emax a 0 b 0 = (q, - s, l)).
  { unfold SFdiv_core_binary. fold d1 d2. rewrite fexp_b64.
    replace (Z.min (Z.max (d1 + 0 - (d2 + 0) - 53) (-1074)) (0 - 0)) with (- s)
      by (unfold s; lia).
    replace (0 - 0 - - s) with s by lia.
    destruct s as [|ps|ps] eqn:Hsp; try lia.
    rewrite Z.shiftl_mul_pow2 by lia.
    unfold q, Z.div. destruct (Z.div_eucl (a * 2 ^ Zpos ps) b) as [q0 r0].
    eexists. reflexivity. }
  destruct Hcore as (l & Hcore).
  (* the exact quotient lies between q and q + 1 units *)
  assert (HP : (Qpow2 (- s) * inject_Z (2 ^ s) == 1)%Q).
  { pose proof (Qpow2_inv (- s) ltac:(lia)) as Hinv.
    rewrite Z.opp_involutive in Hinv. exact Hinv. }
  assert (Hbq : (0 < inject_Z b)%Q) by (change 0%Q with (inject_Z 0); rewrite <- Zlt_Qlt; lia).
  assert (Hunit : forall k : Z,
             (inject_Z k * Qpow2 (- s) * inject_Z b
              == inject_Z (k * b) * Qpow2 (- s))%Q).
  { intros k. rewrite inject_Z_mult. ring. }
  assert (Ha2 : (inject_Z (a * 2 ^ s) * Qpow2 (- s) == inject_Z a)%Q).
  { rewrite inject_Z_mult, <- Qmult_assoc, (Qmult_comm (inject_Z (2 ^ s))), HP. ring. }
  assert (HXq : (inject_Z q * Qpow2 (- s) <= X <= inject_Z (q + 1) * Qpow2 (- s))%Q).
  { unfold X. split.
    - apply Qle_shift_div_l; [exact Hbq|]. rewrite Hunit, <- Ha2.
      apply Qmult_le_compat_r; [|apply Qlt_le_weak, Qpow2_pos]. rewrite <- Zle_Qle. lia.
    - apply Qle_shift_div_r; [exact Hbq|]. rewrite Hunit, <- Ha2.
      apply Qmult_le_compat_r; [|apply Qlt_le_weak, Qpow2_pos]. rewrite <- Zle_Qle. lia. }
  destruct (binary_round_aux_error false q (- s) l X) as (m & e & Hres & Hnormal & He & Herr);
    try lia; [exact HXq|].
  exists m, e. split; [|split; [exact Hnormal|split; [unfold s in He; lia|exact Herr]]].
  unfold int_truediv.
  destruct (Z.eqb_spec b 0); [lia|]. destruct (Z.eqb_spec a 0); [lia|].
  destruct (Z.ltb_spec a 0); [lia|]. destruct (Z.ltb_spec b 0); [lia|].
  rewrite !Z.abs_eq by lia.
  destruct a as [|pa|pa]; try lia. destruct b as [|pb|pb]; try lia.
  rewrite !Pos2Z.id. cbn [SFdiv xorb].
  rewrite Hcore, Hres. reflexivity.
Qed.

(** ** Image normalizer *)

Lemma Zdigits2_small (D : Z) : 1 <= D < 2 ^ 31 -> 1 <= Zdigits2 D <= 31.
Proof.
  intros HD. pose proof (Zdigits2_spec D ltac:(lia)) as Hd.
  set (d := Zdigits2 D) in *. split.
  - destruct (Z.le_gt_cases 1 d) as [|H0]; [assumption|exfalso].
    assert (2 ^ d <= 2 ^ 0) by (apply Z.pow_le_mono_r; lia). cbn in *. lia.
  - destruct (Z.le_gt_cases d 31) as [|Hbig]; [assumption|exfalso].
    assert (2 ^ 31 <= 2 ^ (d - 1)) by (apply Z.pow_le_mono_r; lia). lia.
Qed.

Lemma inject_Z_pos (D : Z) : 0 < D -> (0 < inject_Z D)%Q.
Proof. intros HD. change 0%Q with (inject_Z 0). rewrite <- Zlt_Qlt. exact HD. Qed.

Lemma fraction_times (L D : Z) : 0 < D -> (inject_Z D * (inject_Z L / inject_Z D) == inject_Z L)%Q.
Proof.
  intros HD. apply Qmult_div_r. intros Hz.
  pose proof (inject_Z_pos D HD) as Hpos. rewrite Hz in Hpos. discriminate Hpos.
Qed.

(** A dimension times the ratio, rounded: within a half, and a little, of
    the exact product; not above the dimension; not above the bound [L] of
    the exact product. *)
Lemma scaled_dimension (D L : Z) (ratio : pynum) (rho : Q) :
  1 <= D < 2 ^ 31 ->
  ratio_approx ratio rho ->
  (0 <= rho)%Q ->
  (inject_Z D * rho <= inject_Z L)%Q ->
  L <= 320 ->
  exists prod sd,
    py_mul (PyInt D) ratio = Return prod
    /\ py_round prod = Return sd
    /\ 0 <= sd <= D
    /\ sd <= L
    /\ (Qabs (inject_Z sd - inject_Z D * rho) <= (1 # 2) + Qpow2 (-40))%Q.
Proof.
  intros HD [[-> Hrho] | (m & e & -> & Hnormal & He & [Hlo Hhi] & Hle1)] Hrho0 HL HL320.
  - (* the ratio is the int 1 *)
    exists (PyInt (D * 1)), (D * 1). split; [reflexivity|]. split; [reflexivity|].
    rewrite Z.mul_1_r. split; [lia|]. split.
    + rewrite Hrho, Qmult_1_r in HL. rewrite <- Zle_Qle in HL. exact HL.
    + assert (Hzero : (inject_Z D - inject_Z D * rho == 0)%Q) by (rewrite Hrho; ring).
      rewrite Hzero. discriminate.
  - (* the ratio is a float *)
    destruct (float_of_int_exact D ltac:(change (2 ^ 53) with 9007199254740992;
                                         change (2 ^ 31) with 2147483648 in HD; lia))
      as (mD & eD & HfD & HnD & HeD & HvD).
    pose proof (Zdigits2_small D HD) as HdD.
    destruct (SFmul_error mD eD m e HnD Hnormal ltac:(lia)) as (m' & e' & Hmul & Hn' & Herr).
    cbv zeta in Herr. rewrite HvD in Herr.
    exists (PyFloat (S754_finite false m' e')), (round_half_even (Zpos m') e').
    split; [cbn [py_mul]; rewrite HfD; cbn [bind]; rewrite Hmul; reflexivity|].
    split; [reflexivity|].
    pose proof (round_half_even_value false m' e') as [Hnear _].
    cbv zeta in Hnear. cbn [cond_Zopp] in Hnear.
    apply Qabs_Qle_condition in Hnear as [Hn1 Hn2].
    pose proof (SF2Q_normal_pos m' e' Hn') as HPpos.
    pose proof (SF2Q_normal_pos m e Hnormal) as HVpos.
    set (sd := round_half_even (Zpos m') e') in *.
    set (P := SF2Q (S754_finite false m' e')) in *.
    set (V := SF2Q (S754_finite false m e)) in *.
    pose proof (inject_Z_pos D ltac:(lia)) as HDq.
    assert (HX1 : (inject_Z D * rho * (1 - eps) <= inject_Z D * V)%Q).
    { rewrite <- Qmult_assoc. apply Qmult_le_l; assumption. }
    assert (HX2 : (inject_Z D * V <= inject_Z D * rho * (1 + eps))%Q).
    { rewrite <- Qmult_assoc. apply Qmult_le_l; assumption. }
    assert (HX3 : (inject_Z D * V <= inject_Z D)%Q).
    { rewrite <- (Qmult_1_r (inject_Z D)) at 2. apply Qmult_le_l; assumption. }
    assert (HS0 : (0 <= inject_Z D * rho)%Q).
    { apply Qmult_le_0_compat; [apply Qlt_le_weak; exact HDq|exact Hrho0]. }
    assert (HL320q : (inject_Z L <= 320)%Q).
    { change 320%Q with (inject_Z 320). rewrite <- Zle_Qle. exact HL320. }
    assert (HDbig : (inject_Z D < 2147483648)%Q).
    { change 2147483648%Q with (inject_Z (2 ^ 31)). rewrite <- Zlt_Qlt. lia. }
    set (X := (inject_Z D * V)%Q) in *. set (S := (inject_Z D * rho)%Q) in *.
    destruct Herr as [HP1 HP2].
    unfold eps in *. change (Qpow2 (-52)) with (1 # 4503599627370496)%Q in *.
    change (Qpow2 (-40)) with (1 # 1099511627776)%Q.
    assert (Hsd0 : (inject_Z (-1) < inject_Z sd)%Q) by (change (inject_Z (-1)) with (-1)%Q; lra).
    assert (HsdD : (inject_Z sd < inject_Z (D + 1))%Q).
    { rewrite inject_Z_plus. change (inject_Z 1) with 1%Q. lra. }
    assert (HsdL : (inject_Z sd < inject_Z (L + 1))%Q).
    { rewrite inject_Z_plus. change (inject_Z 1) with 1%Q. lra. }
    rewrite <- Zlt_Qlt in Hsd0, HsdD, HsdL.
    split; [lia|]. split; [lia|].
    apply Qabs_Qle_condition. split; lra.
Qed.

Lemma scale_ratio_facts (ra rb : Q) :
  let rho := Qmin (Qmin ra rb) 1 in
  (rho <= ra)%Q /\ (rho <= rb)%Q /\ (rho <= 1)%Q
  /\ ((rho == ra)%Q \/ (rho == rb)%Q \/ (rho == 1)%Q).
Proof.
  cbv zeta.
  pose proof (Q.le_min_l (Qmin ra rb) 1) as H1.
  pose proof (Q.le_min_r (Qmin ra rb) 1) as H2.
  pose proof (Q.le_min_l ra rb) as H3.
  pose proof (Q.le_min_r ra rb) as H4.
  split; [exact (Qle_trans _ _ _ H1 H3)|].
  split; [exact (Qle_trans _ _ _ H1 H4)|].
  split; [exact H2|].
  destruct (Q.min_spec (Qmin ra rb) 1) as [[_ E]|[_ E]]; [|right; right; exact E].
  destruct (Q.min_spec ra rb) as [[_ E']|[_ E']].
  - left. eapply Qeq_trans; eassumption.
  - right. left. eapply Qeq_trans; eassumption.
Qed.

(** A quotient [L / D] the code finds above 1 is at least 1 exactly. *)
Lemma quotient_above_one (L D : Z) (A : Q) :
  0 < L <= 320 -> 0 < D ->
  (A <= inject_Z L / inject_Z D * (1 + eps))%Q ->
  (1 < A)%Q ->
  D <= L /\ (1 <= inject_Z L / inject_Z D)%Q.
Proof.
  intros HL HD HA Hgt.
  pose proof (inject_Z_pos D HD) as HDq.
  assert (HDL : D <= L).
  { destruct (Z.le_gt_cases D L) as [|Hbig]; [assumption|exfalso].
    assert (Hq : (inject_Z L / inject_Z D <= 320 # 321)%Q).
    { apply Qle_shift_div_r; [exact HDq|].
      assert (H1 : (inject_Z (L + 1) <= inject_Z D)%Q) by (rewrite <- Zle_Qle; lia).
      assert (H2 : (inject_Z L <= 320)%Q)
        by (change 320%Q with (inject_Z 320); rewrite <- Zle_Qle; lia).
      rewrite inject_Z_plus in H1. change (inject_Z 1) with 1%Q in H1. lra. }
    unfold eps in HA. change (Qpow2 (-52)) with (1 # 4503599627370496)%Q in HA. lra. }
  split; [exact HDL|].
  apply Qle_shift_div_l; [exact HDq|]. rewrite Qmult_1_l, <- Zle_Qle. exact HDL.
Qed.

(** The ratio [min(320 / W, 240 / H, 1)] as the code computes it. *)
Lemma ratio_computed (W H : Z) :
  1 <= W < 2 ^ 31 -> 1 <= H < 2 ^ 31 ->
  exists a b,
    int_truediv SCREEN_WIDTH W = Return a
    /\ int_truediv SCREEN_HEIGHT H = Return b
    /\ ratio_approx (py_min3 (PyFloat a) (PyFloat b) (PyInt 1)) (scale_ratio W H).
Proof.
  intros HW HH.
  assert (HW53 : 0 < W < 2 ^ 53)
    by (change (2 ^ 53) with 9007199254740992; change (2 ^ 31) with 2147483648 in HW; lia).
  assert (HH53 : 0 < H < 2 ^ 53)
    by (change (2 ^ 53) with 9007199254740992; change (2 ^ 31) with 2147483648 in HH; lia).
  destruct (int_truediv_error 320 W ltac:(split; reflexivity) HW53)
    as (ma & ea & Hdiva & Hna & Hea & Ha1 & Ha2).
  destruct (int_truediv_error 240 H ltac:(split; reflexivity) HH53)
    as (mb & eb & Hdivb & Hnb & Heb & Hb1 & Hb2).
  pose proof (Zdigits2_small W HW) as HdW. pose proof (Zdigits2_small H HH) as HdH.
  change (Zdigits2 320) with 9 in Hea. change (Zdigits2 240) with 8 in Heb.
  exists (S754_finite false ma ea), (S754_finite false mb eb).
  split; [exact Hdiva|]. split; [exact Hdivb|].
  unfold scale_ratio. change SCREEN_WIDTH with 320. change SCREEN_HEIGHT with 240.
  set (ra := (inject_Z 320 / inject_Z W)%Q) in *.
  set (rb := (inject_Z 240 / inject_Z H)%Q) in *.
  destruct (scale_ratio_facts ra rb) as (Hra & Hrb & Hr1 & Hcases).
  pose proof (Q.le_min_l (Qmin ra rb) 1) as Hmin.
  set (rho := Qmin (Qmin ra rb) 1) in *.
  set (fa := S754_finite false ma ea) in *. set (fb := S754_finite false mb eb) in *.
  assert (Hra0 : (0 < ra)%Q).
  { unfold ra. apply Qlt_shift_div_l; [apply inject_Z_pos; lia|]. rewrite Qmult_0_l. reflexivity. }
  assert (Hrb0 : (0 < rb)%Q).
  { unfold rb. apply Qlt_shift_div_l; [apply inject_Z_pos; lia|]. rewrite Qmult_0_l. reflexivity. }
  (* the smaller of the two quotients *)
  assert (Hbest : exists m e,
             (if py_lt (PyFloat fb) (PyFloat fa) then PyFloat fb else PyFloat fa)
             = PyFloat (S754_finite false m e)
             /\ normal53 m e /\ -80 <= e <= -40
             /\ (SF2Q (S754_finite false m e) <= SF2Q fa)%Q
             /\ (SF2Q (S754_finite false m e) <= SF2Q fb)%Q
             /\ (Qmin ra rb * (1 - eps) <= SF2Q (S754_finite false m e))%Q).
  { cbn [py_lt]. pose proof (SFltb_normal mb eb ma ea Hnb Hna) as Hlt. fold fa fb in Hlt.
    pose proof (Q.le_min_l ra rb) as Hm1. pose proof (Q.le_min_r ra rb) as Hm2.
    unfold eps in *. change (Qpow2 (-52)) with (1 # 4503599627370496)%Q in *.
    destruct (SFltb fb fa).
    - exists mb, eb. split; [reflexivity|]. split; [exact Hnb|]. split; [lia|].
      assert (Hba : (SF2Q fb < SF2Q fa)%Q) by (apply Hlt; reflexivity).
      fold fb. split; [lra|]. split; [lra|]. lra.
    - exists ma, ea. split; [reflexivity|]. split; [exact Hna|]. split; [lia|].
      assert (Hab : (SF2Q fa <= SF2Q fb)%Q).
      { apply Qnot_lt_le. intros Hbad. apply Hlt in Hbad. discriminate. }
      fold fa. split; [lra|]. split; [lra|]. lra. }
  destruct Hbest as (m & e & Hbest & Hn & He & HRa & HRb & HRlow).
  unfold py_min3. rewrite Hbest. cbn [py_lt].
  rewrite cmp_int_float_value by reflexivity. change (inject_Z 1) with 1%Q.
  set (R := SF2Q (S754_finite false m e)) in *.
  destruct (Qcompare 1 R) eqn:Hcmp.
  - (* the smaller quotient is 1 *)
    right. exists m, e. split; [reflexivity|]. split; [exact Hn|]. split; [exact He|].
    apply Qeq_alt in Hcmp.
    unfold eps in *. change (Qpow2 (-52)) with (1 # 4503599627370496)%Q in *.
    fold R. clearbody R rho.
    split; [split|]; [| |lra]; destruct Hcases as [E|[E|E]]; lra.
  - (* both quotients are above 1: the ratio is the int 1 *)
    left. split; [reflexivity|].
    apply Qlt_alt in Hcmp.
    assert (HA : (1 < SF2Q fa)%Q) by lra. assert (HB : (1 < SF2Q fb)%Q) by lra.
    destruct (quotient_above_one 320 W (SF2Q fa) ltac:(lia) ltac:(lia) Ha2 HA) as [_ Hqa].
    destruct (quotient_above_one 240 H (SF2Q fb) ltac:(lia) ltac:(lia) Hb2 HB) as [_ Hqb].
    fold ra in Hqa. fold rb in Hqb.
    unfold rho. apply Q.min_r. apply Q.min_glb; assumption.
  - (* the smaller quotient is below 1 *)
    right. exists m, e. split; [reflexivity|]. split; [exact Hn|]. split; [exact He|].
    apply Qgt_alt in Hcmp.
    unfold eps in *. change (Qpow2 (-52)) with (1 # 4503599627370496)%Q in *.
    fold R. clearbody R rho.
    split; [split|]; [| |lra]; destruct Hcases as [E|[E|E]]; lra.
Qed.

Lemma nearest_multiple (s k : Z) :
  0 < k ->
  let w := (s + k / 2) / k * k in
  w mod k = 0 /\ s - (k - k / 2) < w <= s + k / 2.
Proof.
  intros Hk w. unfold w. split; [apply Z.mod_mul; lia|].
  pose proof (Z.div_mod (s + k / 2) k ltac:(lia)) as Hdm.
  pose proof (Z.mod_pos_bound (s + k / 2) k Hk) as Hr.
  lia.
Qed.

(** C8 as the spec states it, rounding up, fails on a 9 x 10 image: the ratio is 1, the scaled
    width is 9, and the width asked of the resampling is 8, below it: the
    width is rounded to the nearest multiple of 8, not up to the next. *)
Lemma resize_image_spec_counterexample :
  resize_image 9 10 = Return (Resample 8 10)
  /\ ~ 9 <= fst (resized_size 9 10 (Resample 8 10)).
Proof. split; [vm_compute; reflexivity|cbn; lia]. Qed.

(** C8 (amended).  For every image of width [W] and height [H] (both at
    least 1 and below [2^31]) the normalizer returns.  With [rho = min(320/W,
    240/H, 1)], the scaled width [sw] and height [sh] are the integers the
    code rounds [W * rho] and [H * rho] to, within a half (and the rounding
    error of the floats, under [2^-40]) of them, and never above [W] and
    [H].  The width is [sw] rounded to the nearest multiple of 8 (halves
    up), the height [sh] rounded to the nearest multiple of 10 (halves up).
    The image is returned as it is when these are its dimensions, and
    resampled to them otherwise.  The dimensions that result are at most
    320 and 240, and divisible by 8 and by 10. *)
Theorem resize_image_spec (W H : Z) (HW : 1 <= W < 2 ^ 31) (HH : 1 <= H < 2 ^ 31) :
  exists sw sh,
    let w := (sw + 4) / 8 * 8 in
    let h := (sh + 5) / 10 * 10 in
    let r := if (W =? w) && (H =? h) then Unchanged else Resample w h in
    resize_image W H = Return r
    /\ resized_size W H r = (w, h)
    /\ (Qabs (inject_Z sw - inject_Z W * scale_ratio W H) <= (1 # 2) + Qpow2 (-40))%Q
    /\ (Qabs (inject_Z sh - inject_Z H * scale_ratio W H) <= (1 # 2) + Qpow2 (-40))%Q
    /\ 0 <= sw <= W
    /\ 0 <= sh <= H
    /\ w mod 8 = 0 /\ sw - 4 < w <= sw + 4
    /\ h mod 10 = 0 /\ sh - 5 < h <= sh + 5
    /\ w <= 320 /\ h <= 240.
Proof.
  destruct (ratio_computed W H HW HH) as (a & b & Ha & Hb & Hratio).
  set (ratio := py_min3 (PyFloat a) (PyFloat b) (PyInt 1)) in *.
  (* the exact ratio *)
  assert (Hrho : (0 <= scale_ratio W H)%Q
                 /\ (inject_Z W * scale_ratio W H <= inject_Z 320)%Q
                 /\ (inject_Z H * scale_ratio W H <= inject_Z 240)%Q).
  { unfold scale_ratio. change SCREEN_WIDTH with 320. change SCREEN_HEIGHT with 240.
    destruct (scale_ratio_facts (inject_Z 320 / inject_Z W) (inject_Z 240 / inject_Z H))
      as (Hra & Hrb & Hr1 & Hcases).
    set (rho := Qmin (Qmin (inject_Z 320 / inject_Z W) (inject_Z 240 / inject_Z H)) 1) in *.
    pose proof (inject_Z_pos W ltac:(lia)) as HWq.
    pose proof (inject_Z_pos H ltac:(lia)) as HHq.
    assert (Hra0 : (0 < inject_Z 320 / inject_Z W)%Q).
    { apply Qlt_shift_div_l; [exact HWq|]. rewrite Qmult_0_l. reflexivity. }
    assert (Hrb0 : (0 < inject_Z 240 / inject_Z H)%Q).
    { apply Qlt_shift_div_l; [exact HHq|]. rewrite Qmult_0_l. reflexivity. }
    split; [destruct Hcases as [E|[E|E]]; rewrite E; [lra|lra|discriminate]|].
    split.
    - rewrite <- (fraction_times 320 W) by lia. apply Qmult_le_l; assumption.
    - rewrite <- (fraction_times 240 H) by lia. apply Qmult_le_l; assumption. }
  destruct Hrho as (Hrho0 & HSw & HSh).
  destruct (scaled_dimension W 320 ratio (scale_ratio W H) HW Hratio Hrho0 HSw ltac:(lia))
    as (pw & sw & Hmw & Hrw & Hsw & Hsw320 & Hnearw).
  destruct (scaled_dimension H 240 ratio (scale_ratio W H) HH Hratio Hrho0 HSh ltac:(lia))
    as (ph & sh & Hmh & Hrh & Hsh & Hsh240 & Hnearh).
  exists sw, sh. cbv zeta.
  destruct (nearest_multiple sw 8 ltac:(lia)) as [Hw8 Hwn].
  destruct (nearest_multiple sh 10 ltac:(lia)) as [Hh10 Hhn].
  cbv zeta in Hw8, Hwn, Hh10, Hhn.
  change (8 / 2) with 4 in *. change (10 / 2) with 5 in *.
  set (w := (sw + 4) / 8 * 8) in *. set (h := (sh + 5) / 10 * 10) in *.
  split.
  { unfold resize_image. rewrite Ha. cbn [bind]. rewrite Hb. cbn [bind]. cbv zeta.
    fold ratio. rewrite Hmw. cbn [bind]. rewrite Hrw. cbn [bind].
    rewrite Hmh. cbn [bind]. rewrite Hrh. cbn [bind]. fold w h.
    destruct ((W =? w) && (H =? h)); reflexivity. }
  split.
  { destruct ((W =? w) && (H =? h)) eqn:Hsame; [|reflexivity].
    apply andb_true_iff in Hsame as [E1 E2].
    apply Z.eqb_eq in E1. apply Z.eqb_eq in E2. cbn [resized_size]. congruence. }
  split; [exact Hnearw|]. split; [exact Hnearh|].
  split; [exact Hsw|]. split; [exact Hsh|].
  split; [exact Hw8|]. split; [lia|]. split; [exact Hh10|]. split; [lia|].
  assert (Hq8 : (sw + 4) / 8 < 41) by (apply Z.div_lt_upper_bound; lia).
  assert (Hq10 : (sh + 5) / 10 < 25) by (apply Z.div_lt_upper_bound; lia).
  unfold w, h. lia.
Qed.

Lemma resize_image_spec_witness :
  exists sw sh,
    let w := (sw + 4) / 8 * 8 in
    let h := (sh + 5) / 10 * 10 in
    let r := if (1000 =? w) && (333 =? h) then Unchanged else Resample w h in
    resize_image 1000 333 = Return r
    /\ resized_size 1000 333 r = (w, h)
    /\ (Qabs (inject_Z sw - inject_Z 1000 * scale_ratio 1000 333) <= (1 # 2) + Qpow2 (-40))%Q
    /\ (Qabs (inject_Z sh - inject_Z 333 * scale_ratio 1000 333) <= (1 # 2) + Qpow2 (-40))%Q
    /\ 0 <= sw <= 1000
    /\ 0 <= sh <= 333
    /\ w mod 8 = 0 /\ sw - 4 < w <= sw + 4
    /\ h mod 10 = 0 /\ sh - 5 < h <= sh + 5
    /\ w <= 320 /\ h <= 240.
Proof.
  apply (resize_image_spec 1000 333).
  - split; [lia|apply Z.ltb_lt; vm_compute; reflexivity].
  - split; [lia|apply Z.ltb_lt; vm_compute; reflexivity].
Defined.

(* ================================================================== *)
(** * The JPEG section reader *)
(* ================================================================== *)

Lemma item_at_app (pre rest : bytes) (k : Z) :
  0 <= k -> Jpeg.item_at (pre ++ rest) (len pre + k) = Jpeg.item_at rest k.
Proof.
  intros Hk. unfold Jpeg.item_at, len.
  replace (Z.to_nat (Z.of_nat (length pre) + k)) with (length pre + Z.to_nat k)%nat by lia.
  rewrite nth_error_app2 by lia. f_equal. lia.
Qed.

Lemma item_at_app0 (pre rest : bytes) :
  Jpeg.item_at (pre ++ rest) (len pre) = Jpeg.item_at rest 0.
Proof.
  rewrite <- (item_at_app pre rest 0) by lia. f_equal. lia.
Qed.

Lemma slice_app {A : Type} (pre rest : list A) (a b : Z) :
  0 <= a -> slice (pre ++ rest) (len pre + a) (len pre + b) = slice rest a b.
Proof.
  intros Ha. unfold slice, len.
  replace (Z.of_nat (length pre) + b - (Z.of_nat (length pre) + a)) with (b - a) by lia.
  replace (Z.to_nat (Z.of_nat (length pre) + a)) with (length pre + Z.to_nat a)%nat by lia.
  rewrite skipn_app.
  rewrite (skipn_all2 pre) by lia.
  replace (length pre + Z.to_nat a - length pre)%nat with (Z.to_nat a) by lia.
  reflexivity.
Qed.

Lemma slice_app0 {A : Type} (pre rest : list A) (b : Z) :
  slice (pre ++ rest) (len pre) (len pre + b) = slice rest 0 b.
Proof.
  rewrite <- (slice_app pre rest 0 b) by lia. f_equal. lia.
Qed.

Lemma slice_whole_prefix {A : Type} (s rest : list A) :
  slice (s ++ rest) 0 (len s) = s.
Proof.
  unfold slice, len. cbn [Z.to_nat skipn].
  replace (Z.to_nat (Z.of_nat (length s) - 0)) with (length s + 0)%nat by lia.
  rewrite firstn_app_2. cbn [firstn]. apply app_nil_r.
Qed.

Lemma slice_to_end {A : Type} (pre rest : list A) :
  slice (pre ++ rest) (len pre) (len (pre ++ rest)) = rest.
Proof.
  unfold slice, len. rewrite length_app.
  replace (Z.to_nat (Z.of_nat (length pre))) with (length pre + 0)%nat by lia.
  rewrite skipn_app, skipn_all2 by lia.
  replace (length pre + 0 - length pre)%nat with 0%nat by lia.
  cbn [skipn app].
  apply firstn_all2. lia.
Qed.

Lemma len_app {A : Type} (l1 l2 : list A) : len (l1 ++ l2) = len l1 + len l2.
Proof. unfold len. rewrite length_app. lia. Qed.

Lemma len_nonneg {A : Type} (l : list A) : 0 <= len l.
Proof. unfold len. lia. Qed.

(** The 16-bit big-endian number of two bytes. *)
Lemma be16 (hi lo : Z) :
  0 <= hi -> is_byte lo -> Z.lor (Z.shiftl hi 8) lo = hi * 256 + lo.
Proof.
  intros Hhi Hlo.
  rewrite Z.shiftl_mul_pow2 by lia. change (2 ^ 8) with 256.
  assert (E : Z.land (hi * 256) lo = 0).
  { apply Z.bits_inj'. intros n Hn. rewrite Z.land_spec, Z.bits_0.
    destruct (Z.ltb_spec n 8).
    - change 256 with (2 ^ 8). rewrite Z.mul_pow2_bits_low by lia. reflexivity.
    - replace lo with (lo mod 2 ^ 8) by (apply Z.mod_small; exact Hlo).
      rewrite Z.mod_pow2_bits_high by lia. apply andb_false_r. }
  rewrite <- Z.lxor_lor by exact E.
  symmetry. apply Z.add_nocarry_lxor. exact E.
Qed.

Lemma last2_app (pre s : bytes) :
  (2 <= length s)%nat -> Jpeg.last2 (pre ++ s) = Jpeg.last2 s.
Proof.
  intros H. unfold Jpeg.last2. rewrite length_app, skipn_app.
  rewrite (skipn_all2 pre) by lia. cbn [app]. f_equal. lia.
Qed.

(** Reading the segments [segs] takes one turn of the loop each and
    yields their spans; the reader goes on from the byte after them. *)
Lemma sections_from_segments (segs : list bytes) :
  forall (fuel : nat) (pre rest : bytes),
    Forall Jpeg.is_segment segs ->
    Jpeg.sections_from (length segs + fuel) (pre ++ concat segs ++ rest) (len pre)
    = (Jpeg.segment_spans (len pre) segs
         ++ fst (Jpeg.sections_from fuel (pre ++ concat segs ++ rest)
                   (len pre + len (concat segs))),
       snd (Jpeg.sections_from fuel (pre ++ concat segs ++ rest)
              (len pre + len (concat segs)))).
Proof.
  induction segs as [|s segs IH]; intros fuel pre rest Hsegs.
  - cbn [concat length Nat.add Jpeg.segment_spans app].
    change (len (@nil Z)) with 0. rewrite Z.add_0_r.
    destruct (Jpeg.sections_from fuel (pre ++ rest) (len pre)); reflexivity.
  - inversion Hsegs as [|? ? Hs Hsegs']; subst.
    destruct Hs as (m & hi & lo & body & Es & Hm & Hlen).
    cbn [concat length Nat.add Jpeg.sections_from Jpeg.segment_spans].
    rewrite <- (app_assoc s).
    assert (R0 : Jpeg.item_at (pre ++ s ++ concat segs ++ rest) (len pre) = Some 0xFF).
    { rewrite item_at_app0, Es. reflexivity. }
    assert (R1 : Jpeg.item_at (pre ++ s ++ concat segs ++ rest) (len pre + 1) = Some m).
    { rewrite item_at_app by lia. rewrite Es. reflexivity. }
    assert (R2 : Jpeg.item_at (pre ++ s ++ concat segs ++ rest) (len pre + 2) = Some hi).
    { rewrite item_at_app by lia. rewrite Es. reflexivity. }
    assert (R3 : Jpeg.item_at (pre ++ s ++ concat segs ++ rest) (len pre + 3) = Some lo).
    { rewrite item_at_app by lia. rewrite Es. reflexivity. }
    rewrite R0, R1, R2, R3.
    change (0xFF =? 0xFF) with true. cbv iota.
    replace (m =? 0xDA) with false by (symmetry; apply Z.eqb_neq; exact Hm).
    cbn [negb].
    replace (len pre + Z.lor (Z.shiftl hi 8) lo + 2) with (len pre + len s) by lia.
    replace (len pre + len s) with (len (pre ++ s)) by apply len_app.
    specialize (IH fuel (pre ++ s) rest Hsegs').
    rewrite <- !app_assoc in IH. rewrite IH.
    rewrite (len_app s), (len_app pre). rewrite Z.add_assoc.
    reflexivity.
Qed.

Lemma scan_section_scan (pre scan : bytes) :
  Jpeg.is_scan scan ->
  Jpeg.scan_section (pre ++ scan) (len pre)
  = if list_eq_dec Z.eq_dec (Jpeg.last2 scan) [0xFF; 0xD9]
    then ([(len pre, len (pre ++ scan))], Jpeg.Stop)
    else ([], Jpeg.Throw Jpeg.Invalid_JPEG).
Proof.
  intros (body & ->). unfold Jpeg.scan_section.
  rewrite slice_app0. change (slice (0xFF :: 0xDA :: body) 0 2) with [0xFF; 0xDA].
  destruct (list_eq_dec Z.eq_dec [0xFF; 0xDA] [0xFF; 0xDA]) as [_|N]; [|congruence].
  rewrite last2_app by (cbn [length]; lia). reflexivity.
Qed.

Lemma sections_from_scan (fuel : nat) (pre scan : bytes) :
  Jpeg.is_scan scan ->
  Jpeg.sections_from (S fuel) (pre ++ scan) (len pre)
  = Jpeg.scan_section (pre ++ scan) (len pre).
Proof.
  intros (body & ->). cbn [Jpeg.sections_from].
  rewrite item_at_app0. change (Jpeg.item_at (0xFF :: 0xDA :: body) 0) with (Some 0xFF).
  change (0xFF =? 0xFF) with true. cbv iota.
  rewrite item_at_app by lia.
  change (Jpeg.item_at (0xFF :: 0xDA :: body) 1) with (Some 0xDA).
  reflexivity.
Qed.

Lemma sections_from_end (fuel : nat) (data : bytes) :
  Jpeg.sections_from (S fuel) data (len data) = ([], Jpeg.Throw Jpeg.IndexError).
Proof.
  cbn [Jpeg.sections_from]. unfold Jpeg.item_at, len. rewrite Nat2Z.id.
  replace (nth_error data (length data)) with (@None Z); [reflexivity|].
  symmetry. apply nth_error_None. lia.
Qed.

Lemma item_at_skipn (data : bytes) (pos k : Z) :
  0 <= pos -> 0 <= k ->
  Jpeg.item_at data (pos + k) = nth_error (skipn (Z.to_nat pos) data) (Z.to_nat k).
Proof.
  intros Hpos Hk. unfold Jpeg.item_at. rewrite nth_error_skipn. f_equal. lia.
Qed.

Lemma wf_bytes_skipn (data : bytes) (n : nat) : wf_bytes data -> wf_bytes (skipn n data).
Proof.
  intros H. unfold wf_bytes in *. rewrite <- (firstn_skipn n data) in H.
  apply Forall_app in H. apply H.
Qed.

Lemma wf_bytes_firstn (data : bytes) (n : nat) : wf_bytes data -> wf_bytes (firstn n data).
Proof.
  intros H. unfold wf_bytes in *. rewrite <- (firstn_skipn n data) in H.
  apply Forall_app in H. apply H.
Qed.

Lemma sections_start (segs : list bytes) (scan : bytes) :
  Forall Jpeg.is_segment segs -> Jpeg.is_scan scan ->
  exists tl, concat segs ++ scan = 0xFF :: tl.
Proof.
  intros Hsegs (body & ->). destruct Hsegs as [|s segs Hs _].
  - exists (0xDA :: body). reflexivity.
  - destruct Hs as (m & hi & lo & b & -> & _). cbn [concat app]. eexists. reflexivity.
Qed.

Lemma scan_section_stop (data : bytes) (pos : Z) (secs : list (Z * Z)) :
  0 <= pos ->
  Jpeg.scan_section data pos = (secs, Jpeg.Stop) ->
  Jpeg.is_scan (skipn (Z.to_nat pos) data)
  /\ Jpeg.last2 data = [0xFF; 0xD9]
  /\ secs = [(pos, len data)].
Proof.
  intros Hpos. unfold Jpeg.scan_section.
  destruct (list_eq_dec Z.eq_dec (slice data pos (pos + 2)) [0xFF; 0xDA]) as [E|];
    [|discriminate].
  destruct (list_eq_dec Z.eq_dec (Jpeg.last2 data) [0xFF; 0xD9]) as [E2|]; [|discriminate].
  intros H. injection H as <-.
  split; [|split; [exact E2|reflexivity]].
  unfold slice in E. replace (Z.to_nat (pos + 2 - pos)) with 2%nat in E by lia.
  destruct (skipn (Z.to_nat pos) data) as [|a [|b body]]; cbn in E; try discriminate.
  injection E as -> ->. exists body. reflexivity.
Qed.

(** A run of the reader that ends well has read marker segments, then a
    scan, and the data ends with the end marker. *)
Lemma sections_from_sound (fuel : nat) :
  forall (data : bytes) (pos : Z) (secs : list (Z * Z)),
    wf_bytes data -> 0 <= pos ->
    Jpeg.sections_from fuel data pos = (secs, Jpeg.Stop) ->
    exists segs scan,
      skipn (Z.to_nat pos) data = concat segs ++ scan
      /\ Forall Jpeg.is_segment segs
      /\ Jpeg.is_scan scan
      /\ Jpeg.last2 data = [0xFF; 0xD9]
      /\ secs = Jpeg.segment_spans pos segs ++ [(pos + len (concat segs), len data)].
Proof.
  induction fuel as [|fuel IH]; intros data pos secs Hwf Hpos H; [discriminate|].
  cbn [Jpeg.sections_from] in H.
  assert (Hscan : forall secs',
             Jpeg.scan_section data pos = (secs', Jpeg.Stop) ->
             exists segs scan,
               skipn (Z.to_nat pos) data = concat segs ++ scan
               /\ Forall Jpeg.is_segment segs
               /\ Jpeg.is_scan scan
               /\ Jpeg.last2 data = [0xFF; 0xD9]
               /\ secs' = Jpeg.segment_spans pos segs
                            ++ [(pos + len (concat segs), len data)]).
  { intros secs' Hs. apply scan_section_stop in Hs; [|exact Hpos].
    destruct Hs as (Hsc & Hl & ->).
    exists [], (skipn (Z.to_nat pos) data).
    split; [reflexivity|]. split; [constructor|]. split; [exact Hsc|].
    split; [exact Hl|].
    cbn [Jpeg.segment_spans concat app]. change (len (@nil Z)) with 0.
    rewrite Z.add_0_r. reflexivity. }
  destruct (Jpeg.item_at data pos) as [b0|] eqn:R0; [|discriminate].
  destruct (b0 =? 0xFF) eqn:E0; [|apply Hscan; exact H].
  destruct (Jpeg.item_at data (pos + 1)) as [b1|] eqn:R1; [|discriminate].
  destruct (b1 =? 0xDA) eqn:E1; cbn [negb] in H; [apply Hscan; exact H|].
  destruct (Jpeg.item_at data (pos + 2)) as [hi|] eqn:R2; [|discriminate].
  destruct (Jpeg.item_at data (pos + 3)) as [lo|] eqn:R3; [|discriminate].
  remember (Z.lor (Z.shiftl hi 8) lo) as L eqn:EL.
  destruct (Jpeg.sections_from fuel data (pos + L + 2)) as [rest e] eqn:Hrec.
  injection H as <- ->.
  assert (R0' : Jpeg.item_at data (pos + 0) = Some b0) by (rewrite Z.add_0_r; exact R0).
  rewrite item_at_skipn in R0', R1, R2, R3 by lia.
  pose proof (wf_bytes_skipn data (Z.to_nat pos) Hwf) as Hwfs.
  destruct (skipn (Z.to_nat pos) data) as [|x0 [|x1 [|x2 [|x3 s4]]]] eqn:Es;
    cbn in R0', R1, R2, R3; try discriminate.
  injection R0' as ->. injection R1 as ->. injection R2 as ->. injection R3 as ->.
  apply Z.eqb_eq in E0. apply Z.eqb_neq in E1. subst b0.
  assert (Hhi : is_byte hi).
  { apply (proj1 (Forall_forall _ _) Hwfs). cbn [In]. auto. }
  assert (Hlo : is_byte lo).
  { apply (proj1 (Forall_forall _ _) Hwfs). cbn [In]. auto. }
  assert (HL : L = hi * 256 + lo).
  { rewrite EL. apply be16; [apply Hhi | exact Hlo]. }
  unfold is_byte in Hhi, Hlo.
  destruct (IH data (pos + L + 2) rest Hwf ltac:(lia) Hrec)
    as (segs & scan & Hskip & Hsegs & Hscn & Hlast & Hrest).
  destruct (sections_start segs scan Hsegs Hscn) as (tl & Htl).
  assert (Hskip' : skipn (Z.to_nat (L + 2)) (0xFF :: b1 :: hi :: lo :: s4)
                   = concat segs ++ scan).
  { rewrite <- Hskip, <- Es, skipn_skipn. f_equal. lia. }
  assert (HL2 : 2 <= L).
  { destruct (Z.lt_ge_cases L 2) as [Hlt|]; [|assumption]. exfalso.
    assert (C : L = 0 \/ L = 1) by lia.
    destruct C as [C|C]; rewrite C, Htl in Hskip'; cbn in Hskip';
      injection Hskip' as E _; lia. }
  set (s := 0xFF :: b1 :: hi :: lo :: s4) in *.
  assert (Hlen : (Z.to_nat (L + 2) < length s)%nat).
  { assert (E : length (skipn (Z.to_nat (L + 2)) s) = length (0xFF :: tl))
      by (rewrite Hskip', Htl; reflexivity).
    rewrite length_skipn in E. cbn [length] in E. lia. }
  exists (firstn (Z.to_nat (L + 2)) s :: segs), scan.
  assert (Hseglen : len (firstn (Z.to_nat (L + 2)) s) = L + 2).
  { unfold len. rewrite firstn_length_le by lia. lia. }
  split.
  { cbn [concat]. rewrite <- app_assoc, <- Hskip'. symmetry. apply firstn_skipn. }
  split.
  { constructor; [|exact Hsegs].
    exists b1, hi, lo, (firstn (Z.to_nat (L - 2)) s4).
    split; [|split; [exact E1|]].
    - unfold s. replace (Z.to_nat (L + 2)) with (4 + Z.to_nat (L - 2))%nat by lia.
      reflexivity.
    - rewrite Hseglen, EL. reflexivity. }
  split; [exact Hscn|]. split; [exact Hlast|].
  cbn [Jpeg.segment_spans concat]. rewrite len_app, Hseglen, Hrest.
  rewrite !Z.add_assoc. reflexivity.
Qed.

(** The data [iter_jpeg_sections] accepts, and the sections it yields. *)
Lemma iter_jpeg_sections_sound (data : bytes) (secs : list (Z * Z)) :
  wf_bytes data ->
  Jpeg.iter_jpeg_sections data = (secs, Jpeg.Stop) ->
  exists segs scan,
    data = [0xFF; 0xD8] ++ concat segs ++ scan
    /\ Forall Jpeg.is_segment segs
    /\ Jpeg.is_scan scan
    /\ Jpeg.last2 data = [0xFF; 0xD9]
    /\ secs = Jpeg.segment_spans 2 segs ++ [(2 + len (concat segs), len data)].
Proof.
  intros Hwf. unfold Jpeg.iter_jpeg_sections.
  destruct (list_eq_dec Z.eq_dec (slice data 0 2) [0xFF; 0xD8]) as [E|]; [|discriminate].
  intros H. apply sections_from_sound in H; [|exact Hwf|lia].
  destruct H as (segs & scan & Hskip & Hsegs & Hscn & Hlast & Hsecs).
  exists segs, scan. split; [|auto].
  rewrite <- Hskip. change (Z.to_nat 2) with 2%nat.
  unfold slice in E. cbn in E.
  destruct data as [|a [|b rest]]; cbn in E; try discriminate.
  injection E as -> ->. reflexivity.
Qed.

Lemma iter_jpeg_sections_complete (segs : list bytes) (scan : bytes) :
  Forall Jpeg.is_segment segs ->
  Jpeg.is_scan scan ->
  Jpeg.last2 scan = [0xFF; 0xD9] ->
  let data := [0xFF; 0xD8] ++ concat segs ++ scan in
  Jpeg.iter_jpeg_sections data
  = (Jpeg.segment_spans 2 segs ++ [(2 + len (concat segs), len data)], Jpeg.Stop).
Proof.
  intros Hsegs Hscn Hlast data. unfold Jpeg.iter_jpeg_sections.
  destruct (list_eq_dec Z.eq_dec (slice data 0 2) [0xFF; 0xD8]) as [_|N];
    [|exfalso; apply N; reflexivity].
  assert (Hfuel : exists fuel, S (length data) = (length segs + S fuel)%nat).
  { exists (length data - length segs)%nat.
    assert (length segs <= length (concat segs))%nat.
    { clear - Hsegs. induction Hsegs as [|s segs Hs _ IH]; cbn [concat length]; [lia|].
      destruct Hs as (m & hi & lo & body & -> & _). rewrite length_app. cbn [length]. lia. }
    unfold data. rewrite !length_app. cbn [length]. lia. }
  destruct Hfuel as (fuel & ->).
  unfold data.
  change (Jpeg.sections_from (length segs + S fuel) ([0xFF; 0xD8] ++ concat segs ++ scan) 2)
    with (Jpeg.sections_from (length segs + S fuel) ([0xFF; 0xD8] ++ concat segs ++ scan)
            (len [0xFF; 0xD8])).
  rewrite (sections_from_segments segs (S fuel) [0xFF; 0xD8] scan Hsegs).
  change (len [0xFF; 0xD8]) with 2.
  replace (2 + len (concat segs)) with (len ([0xFF; 0xD8] ++ concat segs))
    by (rewrite len_app; reflexivity).
  rewrite !(app_assoc [0xFF; 0xD8]).
  rewrite sections_from_scan, scan_section_scan by exact Hscn.
  destruct (list_eq_dec Z.eq_dec (Jpeg.last2 scan) [0xFF; 0xD9]) as [_|N];
    [|contradiction].
  reflexivity.
Qed.

Lemma segment_marker (s rest : bytes) :
  Jpeg.is_segment s -> slice (s ++ rest) 0 2 = Jpeg.marker s.
Proof.
  intros (m & hi & lo & body & -> & _). reflexivity.
Qed.

Lemma segment_not_scan (s : bytes) :
  Jpeg.is_segment s -> Jpeg.marker s <> [0xFF; 0xDA].
Proof.
  intros (m & hi & lo & body & -> & Hm & _). cbn. congruence.
Qed.

Lemma trim_sections_cons (data : bytes) (b e : Z) (xs : list (Z * Z)) (res : bytes) :
  Jpeg.trim_sections data ((b, e) :: xs) res
  = Jpeg.trim_sections data xs
      (if Jpeg.kept (slice data b (b + 2)) then res ++ slice data b e else res).
Proof. reflexivity. Qed.

(** The loop of [trim_jpeg] over marker segments adds the ones kept. *)
Lemma trim_sections_segments (data : bytes) (segs : list bytes) :
  forall (pre rest res : bytes),
    Forall Jpeg.is_segment segs ->
    data = pre ++ concat segs ++ rest ->
    Jpeg.trim_sections data (Jpeg.segment_spans (len pre) segs) res
    = res ++ concat (filter (fun s => Jpeg.kept (Jpeg.marker s)) segs).
Proof.
  induction segs as [|s segs IH]; intros pre rest res Hsegs Hdata.
  - cbn. symmetry. apply app_nil_r.
  - pose proof (Forall_inv Hsegs) as Hs. pose proof (Forall_inv_tail Hsegs) as Hsegs'.
    cbn [concat] in Hdata. rewrite <- app_assoc in Hdata.
    cbn [Jpeg.segment_spans]. rewrite trim_sections_cons.
    assert (E1 : slice data (len pre) (len pre + 2) = Jpeg.marker s).
    { rewrite Hdata, slice_app0. apply segment_marker. exact Hs. }
    assert (E2 : slice data (len pre) (len pre + len s) = s).
    { rewrite Hdata, slice_app0. apply slice_whole_prefix. }
    rewrite E1, E2.
    replace (len pre + len s) with (len (pre ++ s)) by apply len_app.
    rewrite (IH (pre ++ s) rest _ Hsegs')
      by (rewrite Hdata, <- app_assoc; reflexivity).
    cbn [filter]. destruct (Jpeg.kept (Jpeg.marker s)).
    + cbn [concat]. apply eq_sym, app_assoc.
    + reflexivity.
Qed.

Lemma trim_sections_app (data : bytes) (xs ys : list (Z * Z)) (res : bytes) :
  Jpeg.trim_sections data (xs ++ ys) res
  = Jpeg.trim_sections data ys (Jpeg.trim_sections data xs res).
Proof. unfold Jpeg.trim_sections. apply fold_left_app. Qed.

(** [any] over marker segments answers as soon as one holds tables. *)
Lemma any_dqt_segments (data : bytes) (segs : list bytes) :
  forall (pre rest : bytes) (more : list (Z * Z)) (e : Jpeg.ending),
    Forall Jpeg.is_segment segs ->
    data = pre ++ concat segs ++ rest ->
    Jpeg.any_dqt data (Jpeg.segment_spans (len pre) segs ++ more) e
    = if existsb (fun s => Jpeg.is_dqt (Jpeg.marker s)) segs
      then Jpeg.Done true
      else Jpeg.any_dqt data more e.
Proof.
  induction segs as [|s segs IH]; intros pre rest more e Hsegs Hdata.
  - reflexivity.
  - pose proof (Forall_inv Hsegs) as Hs. pose proof (Forall_inv_tail Hsegs) as Hsegs'.
    cbn [concat] in Hdata. rewrite <- app_assoc in Hdata.
    cbn [Jpeg.segment_spans app Jpeg.any_dqt existsb].
    assert (E1 : slice data (len pre) (len pre + 2) = Jpeg.marker s).
    { rewrite Hdata, slice_app0. apply segment_marker. exact Hs. }
    rewrite E1. destruct (Jpeg.is_dqt (Jpeg.marker s)); [reflexivity|].
    cbn [orb].
    replace (len pre + len s) with (len (pre ++ s)) by apply len_app.
    apply (IH (pre ++ s) rest more e Hsegs').
    rewrite Hdata, <- app_assoc. reflexivity.
Qed.

Lemma scan_is_kept (pre scan : bytes) :
  Jpeg.is_scan scan ->
  slice (pre ++ scan) (len pre) (len pre + 2) = [0xFF; 0xDA].
Proof.
  intros (body & ->). rewrite slice_app0. reflexivity.
Qed.

(** What [trim_jpeg] and [has_qtables] return on data made of the start
    marker, marker segments and a scan that ends with the end marker. *)
Lemma jpeg_accepted (segs : list bytes) (scan : bytes) :
  Forall Jpeg.is_segment segs ->
  Jpeg.is_scan scan ->
  Jpeg.last2 scan = [0xFF; 0xD9] ->
  let data := [0xFF; 0xD8] ++ concat segs ++ scan in
  Jpeg.trim_jpeg data
  = Jpeg.Done ([0xFF; 0xD8]
                 ++ concat (filter (fun s => Jpeg.kept (Jpeg.marker s)) segs) ++ scan)
  /\ Jpeg.has_qtables data
     = Jpeg.Done (existsb (fun s => Jpeg.is_dqt (Jpeg.marker s)) segs).
Proof.
  intros Hsegs Hscn Hlast data.
  pose proof (iter_jpeg_sections_complete segs scan Hsegs Hscn Hlast) as Hiter.
  cbv zeta in Hiter. fold data in Hiter.
  change 2 with (len [0xFF; 0xD8]) in Hiter.
  rewrite <- len_app in Hiter.
  assert (Hpre : data = ([0xFF; 0xD8] ++ concat segs) ++ scan)
    by (unfold data; rewrite <- app_assoc; reflexivity).
  assert (K1 : slice data (len ([0xFF; 0xD8] ++ concat segs))
                 (len ([0xFF; 0xD8] ++ concat segs) + 2) = [0xFF; 0xDA])
    by (rewrite Hpre; apply scan_is_kept; exact Hscn).
  assert (K2 : slice data (len ([0xFF; 0xD8] ++ concat segs)) (len data) = scan)
    by (rewrite Hpre; apply slice_to_end).
  split.
  - unfold Jpeg.trim_jpeg. rewrite Hiter. f_equal.
    rewrite trim_sections_app.
    rewrite (trim_sections_segments data segs [0xFF; 0xD8] scan _ Hsegs eq_refl).
    rewrite trim_sections_cons, K1, K2.
    change (Jpeg.kept [0xFF; 0xDA]) with true. cbv iota.
    unfold Jpeg.trim_sections. cbn [fold_left].
    rewrite <- app_assoc. reflexivity.
  - unfold Jpeg.has_qtables. rewrite Hiter.
    rewrite (any_dqt_segments data segs [0xFF; 0xD8] scan _ _ Hsegs eq_refl).
    destruct (existsb (fun s => Jpeg.is_dqt (Jpeg.marker s)) segs); [reflexivity|].
    cbn [Jpeg.any_dqt]. rewrite K1. reflexivity.
Qed.

Lemma last2_scan (segs : list bytes) (scan : bytes) :
  Jpeg.is_scan scan ->
  Jpeg.last2 ([0xFF; 0xD8] ++ concat segs ++ scan) = Jpeg.last2 scan.
Proof.
  intros (body & ->). rewrite app_assoc. apply last2_app. cbn [length]. lia.
Qed.

Lemma filter_segments (f : bytes -> bool) (segs : list bytes) :
  Forall Jpeg.is_segment segs -> Forall Jpeg.is_segment (filter f segs).
Proof.
  intros H. apply Forall_forall. intros s Hs. apply filter_In in Hs.
  apply (proj1 (Forall_forall _ _) H). apply Hs.
Qed.

Lemma filter_twice {A : Type} (f : A -> bool) (l : list A) :
  filter f (filter f l) = filter f l.
Proof.
  induction l as [|a l IH]; [reflexivity|]. cbn [filter].
  destruct (f a) eqn:E; [|exact IH]. cbn [filter]. rewrite E, IH. reflexivity.
Qed.

Lemma dqt_is_kept (s : bytes) : Jpeg.is_dqt s = true -> Jpeg.kept s = true.
Proof.
  unfold Jpeg.is_dqt, Jpeg.kept.
  destruct (list_eq_dec Z.eq_dec s [0xFF; 0xDB]) as [->|]; [|discriminate].
  reflexivity.
Qed.

Lemma existsb_dqt_kept (segs : list bytes) :
  existsb (fun s => Jpeg.is_dqt (Jpeg.marker s))
    (filter (fun s => Jpeg.kept (Jpeg.marker s)) segs)
  = existsb (fun s => Jpeg.is_dqt (Jpeg.marker s)) segs.
Proof.
  induction segs as [|s segs IH]; [reflexivity|]. cbn [filter existsb].
  destruct (Jpeg.kept (Jpeg.marker s)) eqn:Ek.
  - cbn [existsb]. rewrite IH. reflexivity.
  - destruct (Jpeg.is_dqt (Jpeg.marker s)) eqn:Ed.
    + apply dqt_is_kept in Ed. congruence.
    + exact IH.
Qed.

(** The loop of the reader ends: each turn moves [pos] forward. *)
Lemma sections_from_fuel (fuel : nat) :
  forall (data : bytes) (pos : Z),
    wf_bytes data -> 0 <= pos ->
    (length data - Z.to_nat pos < fuel)%nat ->
    snd (Jpeg.sections_from fuel data pos) <> Jpeg.Starved.
Proof.
  induction fuel as [|fuel IH]; intros data pos Hwf Hpos Hfuel; [lia|].
  cbn [Jpeg.sections_from].
  assert (Hscan : snd (Jpeg.scan_section data pos) <> Jpeg.Starved).
  { unfold Jpeg.scan_section.
    destruct (list_eq_dec Z.eq_dec (slice data pos (pos + 2)) [0xFF; 0xDA]);
      [|discriminate].
    destruct (list_eq_dec Z.eq_dec (Jpeg.last2 data) [0xFF; 0xD9]); discriminate. }
  destruct (Jpeg.item_at data pos) as [b0|] eqn:R0; [|discriminate].
  destruct (b0 =? 0xFF); [|exact Hscan].
  destruct (Jpeg.item_at data (pos + 1)) as [b1|] eqn:R1; [|discriminate].
  destruct (negb (b1 =? 0xDA)); [|exact Hscan].
  destruct (Jpeg.item_at data (pos + 2)) as [hi|] eqn:R2; [|discriminate].
  destruct (Jpeg.item_at data (pos + 3)) as [lo|] eqn:R3; [|discriminate].
  assert (Hhi : is_byte hi).
  { apply (proj1 (Forall_forall _ _) Hwf). eapply nth_error_In. exact R2. }
  assert (Hlo : is_byte lo).
  { apply (proj1 (Forall_forall _ _) Hwf). eapply nth_error_In. exact R3. }
  pose proof (be16 hi lo (proj1 Hhi) Hlo) as HL.
  unfold is_byte in Hhi, Hlo.
  assert (Hin : (Z.to_nat pos < length data)%nat).
  { apply nth_error_Some. unfold Jpeg.item_at in R0. congruence. }
  specialize (IH data (pos + Z.lor (Z.shiftl hi 8) lo + 2) Hwf ltac:(lia) ltac:(lia)).
  destruct (Jpeg.sections_from fuel data (pos + Z.lor (Z.shiftl hi 8) lo + 2)).
  exact IH.
Qed.

Lemma iter_jpeg_sections_fuel (data : bytes) :
  wf_bytes data -> snd (Jpeg.iter_jpeg_sections data) <> Jpeg.Starved.
Proof.
  intros Hwf. unfold Jpeg.iter_jpeg_sections.
  destruct (list_eq_dec Z.eq_dec (slice data 0 2) [0xFF; 0xD8]); [|discriminate].
  apply sections_from_fuel; [exact Hwf|lia|lia].
Qed.

Lemma any_dqt_finished (data : bytes) (secs : list (Z * Z)) (e : Jpeg.ending) :
  e <> Jpeg.Starved -> Jpeg.any_dqt data secs e <> Jpeg.Unfinished.
Proof.
  intros He. induction secs as [|[b e'] secs IH]; cbn [Jpeg.any_dqt].
  - destruct e; congruence.
  - destruct (Jpeg.is_dqt (slice data b (b + 2))); [discriminate|exact IH].
Qed.

Lemma segments_length (segs : list bytes) :
  Forall Jpeg.is_segment segs -> (length segs <= length (concat segs))%nat.
Proof.
  intros Hsegs. induction Hsegs as [|s segs Hs _ IH]; cbn [concat length]; [lia|].
  destruct Hs as (m & hi & lo & body & -> & _). rewrite length_app. cbn [length]. lia.
Qed.

Lemma trim_jpeg_stop (data out : bytes) :
  Jpeg.trim_jpeg data = Jpeg.Done out ->
  exists secs, Jpeg.iter_jpeg_sections data = (secs, Jpeg.Stop).
Proof.
  unfold Jpeg.trim_jpeg. destruct (Jpeg.iter_jpeg_sections data) as [secs [|e|]];
    try discriminate.
  intros _. exists secs. reflexivity.
Qed.

Lemma trim_jpeg_done (data out : bytes) :
  wf_bytes data ->
  Jpeg.trim_jpeg data = Jpeg.Done out ->
  exists segs scan,
    data = [0xFF; 0xD8] ++ concat segs ++ scan
    /\ Forall Jpeg.is_segment segs
    /\ Jpeg.is_scan scan
    /\ Jpeg.last2 scan = [0xFF; 0xD9]
    /\ out = [0xFF; 0xD8]
               ++ concat (filter (fun s => Jpeg.kept (Jpeg.marker s)) segs) ++ scan.
Proof.
  intros Hwf H. destruct (trim_jpeg_stop data out H) as (secs & Hiter).
  destruct (iter_jpeg_sections_sound data secs Hwf Hiter)
    as (segs & scan & Hdata & Hsegs & Hscn & Hlast & _).
  assert (Hlast' : Jpeg.last2 scan = [0xFF; 0xD9]).
  { rewrite <- (last2_scan segs scan Hscn), <- Hdata. exact Hlast. }
  exists segs, scan. split; [exact Hdata|]. split; [exact Hsegs|].
  split; [exact Hscn|]. split; [exact Hlast'|].
  destruct (jpeg_accepted segs scan Hsegs Hscn Hlast') as [Ht _].
  cbv zeta in Ht. rewrite <- Hdata, H in Ht. injection Ht as ->. reflexivity.
Qed.

(** X1.  [trim_jpeg] returns exactly on the data made of the start marker
    [FF D8], marker segments (a marker other than [FF DA], a 16-bit
    big-endian length and the bytes it counts) and a scan that begins with
    [FF DA] and ends the data with [FF D9].  It then returns the start
    marker, the segments whose marker is [FF C0] or [FF DB], in their
    order, and the scan; every other segment is dropped. *)
Theorem trim_jpeg_sections (data out : bytes) (Hwf : wf_bytes data) :
  Jpeg.trim_jpeg data = Jpeg.Done out
  <-> exists segs scan,
        data = [0xFF; 0xD8] ++ concat segs ++ scan
        /\ Forall Jpeg.is_segment segs
        /\ Jpeg.is_scan scan
        /\ Jpeg.last2 data = [0xFF; 0xD9]
        /\ out = [0xFF; 0xD8]
                   ++ concat (filter (fun s => Jpeg.kept (Jpeg.marker s)) segs) ++ scan.
Proof.
  split.
  - intros H. destruct (trim_jpeg_done data out Hwf H)
      as (segs & scan & Hdata & Hsegs & Hscn & Hlast & Hout).
    exists segs, scan. split; [exact Hdata|]. split; [exact Hsegs|].
    split; [exact Hscn|]. split; [|exact Hout].
    rewrite Hdata, (last2_scan segs scan Hscn). exact Hlast.
  - intros (segs & scan & Hdata & Hsegs & Hscn & Hlast & Hout).
    rewrite Hdata, (last2_scan segs scan Hscn) in Hlast.
    destruct (jpeg_accepted segs scan Hsegs Hscn Hlast) as [Ht _].
    cbv zeta in Ht. rewrite Hdata, Hout. exact Ht.
Qed.

Lemma trim_jpeg_sections_witness :
  Jpeg.trim_jpeg
    [0xFF; 0xD8; 0xFF; 0xE0; 0; 4; 1; 2; 0xFF; 0xDB; 0; 3; 9; 0xFF; 0xDA; 0; 0xFF; 0xD9]
  = Jpeg.Done [0xFF; 0xD8; 0xFF; 0xDB; 0; 3; 9; 0xFF; 0xDA; 0; 0xFF; 0xD9]
  <-> exists segs scan,
        [0xFF; 0xD8; 0xFF; 0xE0; 0; 4; 1; 2; 0xFF; 0xDB; 0; 3; 9; 0xFF; 0xDA; 0; 0xFF; 0xD9]
        = [0xFF; 0xD8] ++ concat segs ++ scan
        /\ Forall Jpeg.is_segment segs
        /\ Jpeg.is_scan scan
        /\ Jpeg.last2
             [0xFF; 0xD8; 0xFF; 0xE0; 0; 4; 1; 2; 0xFF; 0xDB; 0; 3; 9;
              0xFF; 0xDA; 0; 0xFF; 0xD9]
           = [0xFF; 0xD9]
        /\ [0xFF; 0xD8; 0xFF; 0xDB; 0; 3; 9; 0xFF; 0xDA; 0; 0xFF; 0xD9]
           = [0xFF; 0xD8]
               ++ concat (filter (fun s => Jpeg.kept (Jpeg.marker s)) segs) ++ scan.
Proof.
  apply (trim_jpeg_sections
           [0xFF; 0xD8; 0xFF; 0xE0; 0; 4; 1; 2; 0xFF; 0xDB; 0; 3; 9; 0xFF; 0xDA; 0; 0xFF; 0xD9]
           [0xFF; 0xD8; 0xFF; 0xDB; 0; 3; 9; 0xFF; 0xDA; 0; 0xFF; 0xD9]).
  repeat constructor; unfold is_byte; lia.
Defined.

(** X2.  [trim_jpeg] is idempotent: what it returns, it returns unchanged
    when called on it again. *)
Theorem trim_jpeg_idempotent (data out : bytes)
    (Hwf : wf_bytes data) (Hout : Jpeg.trim_jpeg data = Jpeg.Done out) :
  Jpeg.trim_jpeg out = Jpeg.Done out.
Proof.
  destruct (trim_jpeg_done data out Hwf Hout)
    as (segs & scan & _ & Hsegs & Hscn & Hlast & ->).
  destruct (jpeg_accepted (filter (fun s => Jpeg.kept (Jpeg.marker s)) segs) scan
              (filter_segments _ segs Hsegs) Hscn Hlast) as [Ht _].
  cbv zeta in Ht. rewrite filter_twice in Ht. exact Ht.
Qed.

Lemma trim_jpeg_idempotent_witness :
  Jpeg.trim_jpeg [0xFF; 0xD8; 0xFF; 0xDB; 0; 3; 9; 0xFF; 0xDA; 0; 0xFF; 0xD9]
  = Jpeg.Done [0xFF; 0xD8; 0xFF; 0xDB; 0; 3; 9; 0xFF; 0xDA; 0; 0xFF; 0xD9].
Proof.
  apply (trim_jpeg_idempotent
           [0xFF; 0xD8; 0xFF; 0xE0; 0; 4; 1; 2; 0xFF; 0xDB; 0; 3; 9; 0xFF; 0xDA; 0; 0xFF; 0xD9]).
  - repeat constructor; unfold is_byte; lia.
  - reflexivity.
Defined.

(** X3.  Once [trim_jpeg] has returned, [has_qtables] returns on its
    result as on the data, and with the same answer: trimming neither adds
    nor removes a quantization table segment, and [has_qtables(jpeg)] in
    [convert_images] cannot raise on what [export_image] returned. *)
Theorem has_qtables_after_trim (data out : bytes)
    (Hwf : wf_bytes data) (Hout : Jpeg.trim_jpeg data = Jpeg.Done out) :
  exists q, Jpeg.has_qtables data = Jpeg.Done q /\ Jpeg.has_qtables out = Jpeg.Done q.
Proof.
  destruct (trim_jpeg_done data out Hwf Hout)
    as (segs & scan & -> & Hsegs & Hscn & Hlast & ->).
  exists (existsb (fun s => Jpeg.is_dqt (Jpeg.marker s)) segs).
  split.
  - apply (jpeg_accepted segs scan Hsegs Hscn Hlast).
  - destruct (jpeg_accepted (filter (fun s => Jpeg.kept (Jpeg.marker s)) segs) scan
                (filter_segments _ segs Hsegs) Hscn Hlast) as [_ Hq].
    cbv zeta in Hq. rewrite existsb_dqt_kept in Hq. exact Hq.
Qed.

Lemma has_qtables_after_trim_witness :
  exists q,
    Jpeg.has_qtables
      [0xFF; 0xD8; 0xFF; 0xE0; 0; 4; 1; 2; 0xFF; 0xDB; 0; 3; 9; 0xFF; 0xDA; 0; 0xFF; 0xD9]
    = Jpeg.Done q
    /\ Jpeg.has_qtables [0xFF; 0xD8; 0xFF; 0xDB; 0; 3; 9; 0xFF; 0xDA; 0; 0xFF; 0xD9]
       = Jpeg.Done q.
Proof.
  apply (has_qtables_after_trim
           [0xFF; 0xD8; 0xFF; 0xE0; 0; 4; 1; 2; 0xFF; 0xDB; 0; 3; 9; 0xFF; 0xDA; 0; 0xFF; 0xD9]).
  - repeat constructor; unfold is_byte; lia.
  - reflexivity.
Defined.

Lemma iter_jpeg_sections_segments (segs : list bytes) (rest : bytes) :
  Forall Jpeg.is_segment segs ->
  let data := [0xFF; 0xD8] ++ concat segs ++ rest in
  exists fuel,
    Jpeg.iter_jpeg_sections data
    = (Jpeg.segment_spans (len [0xFF; 0xD8]) segs
         ++ fst (Jpeg.sections_from (S fuel) data (len ([0xFF; 0xD8] ++ concat segs))),
       snd (Jpeg.sections_from (S fuel) data (len ([0xFF; 0xD8] ++ concat segs)))).
Proof.
  intros Hsegs data. pose proof (segments_length segs Hsegs) as Hlen.
  exists (length data - length segs)%nat.
  unfold Jpeg.iter_jpeg_sections.
  destruct (list_eq_dec Z.eq_dec (slice data 0 2) [0xFF; 0xD8]) as [_|N];
    [|exfalso; apply N; reflexivity].
  replace (S (length data)) with (length segs + S (length data - length segs))%nat.
  2:{ unfold data. rewrite !length_app. cbn [length]. lia. }
  change (Jpeg.sections_from (length segs + S (length data - length segs)) data 2)
    with (Jpeg.sections_from (length segs + S (length data - length segs))
            ([0xFF; 0xD8] ++ concat segs ++ rest) (len [0xFF; 0xD8])).
  rewrite (sections_from_segments segs _ [0xFF; 0xD8] rest Hsegs).
  rewrite <- len_app. reflexivity.
Qed.

(** X4.  [has_qtables] stops at the first quantization table segment: when
    one of the marker segments after the start marker has the marker
    [FF DB], it returns [True] whatever follows those segments, be it no
    scan at all or bytes that are no JPEG. *)
Theorem has_qtables_first_table (segs : list bytes) (rest : bytes)
    (Hsegs : Forall Jpeg.is_segment segs)
    (Htable : existsb (fun s => Jpeg.is_dqt (Jpeg.marker s)) segs = true) :
  Jpeg.has_qtables ([0xFF; 0xD8] ++ concat segs ++ rest) = Jpeg.Done true.
Proof.
  destruct (iter_jpeg_sections_segments segs rest Hsegs) as (fuel & Hiter).
  cbv zeta in Hiter. unfold Jpeg.has_qtables. rewrite Hiter.
  rewrite (any_dqt_segments _ segs [0xFF; 0xD8] rest _ _ Hsegs eq_refl).
  rewrite Htable. reflexivity.
Qed.

Lemma has_qtables_first_table_witness :
  Jpeg.has_qtables
    ([0xFF; 0xD8] ++ concat [[0xFF; 0xE0; 0; 4; 1; 2]; [0xFF; 0xDB; 0; 3; 9]] ++ [1; 2; 3])
  = Jpeg.Done true.
Proof.
  apply (has_qtables_first_table [[0xFF; 0xE0; 0; 4; 1; 2]; [0xFF; 0xDB; 0; 3; 9]] [1; 2; 3]).
  - constructor; [|constructor; [|constructor]].
    + exists 0xE0, 0, 4, [1; 2]. split; [reflexivity|]. split; [discriminate|reflexivity].
    + exists 0xDB, 0, 3, [9]. split; [reflexivity|]. split; [discriminate|reflexivity].
  - reflexivity.
Defined.

(** X5.  Data that stops after its marker segments, with no scan, makes
    [trim_jpeg] raise [IndexError], not the [ValueError] of an invalid
    JPEG; [has_qtables] raises it too, unless it has seen a quantization
    table segment by then, in which case it returns [True]. *)
Theorem trim_jpeg_truncated (segs : list bytes) (Hsegs : Forall Jpeg.is_segment segs) :
  Jpeg.trim_jpeg ([0xFF; 0xD8] ++ concat segs) = Jpeg.Failed Jpeg.IndexError
  /\ Jpeg.has_qtables ([0xFF; 0xD8] ++ concat segs)
     = if existsb (fun s => Jpeg.is_dqt (Jpeg.marker s)) segs
       then Jpeg.Done true
       else Jpeg.Failed Jpeg.IndexError.
Proof.
  destruct (iter_jpeg_sections_segments segs [] Hsegs) as (fuel & Hiter).
  cbv zeta in Hiter. rewrite !app_nil_r in Hiter.
  rewrite sections_from_end in Hiter. cbn [fst snd] in Hiter.
  split.
  - unfold Jpeg.trim_jpeg. rewrite Hiter. reflexivity.
  - unfold Jpeg.has_qtables. rewrite Hiter.
    rewrite (any_dqt_segments _ segs [0xFF; 0xD8] [] _ _ Hsegs)
      by (rewrite app_nil_r; reflexivity).
    reflexivity.
Qed.

Lemma trim_jpeg_truncated_witness :
  Jpeg.trim_jpeg ([0xFF; 0xD8] ++ concat [[0xFF; 0xE0; 0; 4; 1; 2]])
  = Jpeg.Failed Jpeg.IndexError
  /\ Jpeg.has_qtables ([0xFF; 0xD8] ++ concat [[0xFF; 0xE0; 0; 4; 1; 2]])
     = if existsb (fun s => Jpeg.is_dqt (Jpeg.marker s)) [[0xFF; 0xE0; 0; 4; 1; 2]]
       then Jpeg.Done true
       else Jpeg.Failed Jpeg.IndexError.
Proof.
  apply (trim_jpeg_truncated [[0xFF; 0xE0; 0; 4; 1; 2]]).
  constructor; [|constructor].
  exists 0xE0, 0, 4, [1; 2]. split; [reflexivity|]. split; [discriminate|reflexivity].
Defined.

(** X6.  Data whose marker segments are followed by a scan that does not
    end with the end marker [FF D9] makes [trim_jpeg] raise
    [ValueError("Invalid JPEG")]: the sections read before the check are
    lost with it. *)
Theorem trim_jpeg_no_end_marker (segs : list bytes) (scan : bytes)
    (Hsegs : Forall Jpeg.is_segment segs) (Hscan : Jpeg.is_scan scan)
    (Hend : Jpeg.last2 scan <> [0xFF; 0xD9]) :
  Jpeg.trim_jpeg ([0xFF; 0xD8] ++ concat segs ++ scan) = Jpeg.Failed Jpeg.Invalid_JPEG.
Proof.
  destruct (iter_jpeg_sections_segments segs scan Hsegs) as (fuel & Hiter).
  cbv zeta in Hiter.
  rewrite !(app_assoc [0xFF; 0xD8]) in Hiter.
  rewrite sections_from_scan, scan_section_scan in Hiter by exact Hscan.
  destruct (list_eq_dec Z.eq_dec (Jpeg.last2 scan) [0xFF; 0xD9]) as [E|_];
    [contradiction|].
  cbn [fst snd] in Hiter.
  unfold Jpeg.trim_jpeg. rewrite app_assoc, Hiter. reflexivity.
Qed.

Lemma trim_jpeg_no_end_marker_witness :
  Jpeg.trim_jpeg ([0xFF; 0xD8] ++ concat [[0xFF; 0xDB; 0; 3; 9]] ++ [0xFF; 0xDA; 0; 0xFF])
  = Jpeg.Failed Jpeg.Invalid_JPEG.
Proof.
  apply (trim_jpeg_no_end_marker [[0xFF; 0xDB; 0; 3; 9]] [0xFF; 0xDA; 0; 0xFF]).
  - constructor; [|constructor].
    exists 0xDB, 0, 3, [9]. split; [reflexivity|]. split; [discriminate|reflexivity].
  - exists [0; 0xFF]. reflexivity.
  - discriminate.
Defined.

(** X7.  On every byte string the section reader ends: [trim_jpeg] and
    [has_qtables] return or raise, as each turn of the loop of
    [iter_jpeg_sections] moves its position forward. *)
Theorem jpeg_reader_terminates (data : bytes) (Hwf : wf_bytes data) :
  Jpeg.trim_jpeg data <> Jpeg.Unfinished /\ Jpeg.has_qtables data <> Jpeg.Unfinished.
Proof.
  pose proof (iter_jpeg_sections_fuel data Hwf) as H.
  split.
  - unfold Jpeg.trim_jpeg. destruct (Jpeg.iter_jpeg_sections data) as [secs [|e|]];
      cbn [snd] in H; congruence.
  - unfold Jpeg.has_qtables. destruct (Jpeg.iter_jpeg_sections data) as [secs e].
    apply any_dqt_finished. exact H.
Qed.

Lemma jpeg_reader_terminates_witness :
  Jpeg.trim_jpeg [0xFF; 0xD8; 0xFF; 0xE0; 0xFF; 0xFF; 0xFF] <> Jpeg.Unfinished
  /\ Jpeg.has_qtables [0xFF; 0xD8; 0xFF; 0xE0; 0xFF; 0xFF; 0xFF] <> Jpeg.Unfinished.
Proof.
  apply (jpeg_reader_terminates [0xFF; 0xD8; 0xFF; 0xE0; 0xFF; 0xFF; 0xFF]).
  repeat constructor; unfold is_byte; lia.
Defined.

(* ================================================================== *)
(** * Byte concatenation *)
(* ================================================================== *)

Lemma item_induction (P : item -> Prop) :
  (forall b, P (Bytes b)) ->
  (forall n, P (Int n)) ->
  (forall es, Forall P es -> P (Items es)) ->
  forall e, P e.
Proof.
  intros Hb Hn Hi. fix IH 1. intros [b|n|es].
  - apply Hb.
  - apply Hn.
  - apply Hi. induction es as [|e es IHes]; constructor; [apply IH|exact IHes].
Qed.

Lemma bytescat_item_items (es : list item) :
  forall r,
    (fix loop (data : list item) (r : bytes) {struct data} : outcome bytes :=
       match data with
       | [] => Return r
       | e :: data' => x <- bytescat_item e ;; loop data' (r ++ x)
       end) es r
    = bytescat_loop es r.
Proof.
  induction es as [|e es IH]; intros r; [reflexivity|].
  cbn [bytescat_loop]. destruct (bytescat_item e); cbn [bind]; [apply IH|reflexivity..].
Qed.

Lemma bytescat_loop_flatten (es : list item) :
  Forall (fun e => bytescat_item e
                   = if ints_in_range e then Return (flatten e) else Raise ValueError) es ->
  forall r,
    bytescat_loop es r
    = if forallb ints_in_range es
      then Return (r ++ concat (map flatten es))
      else Raise ValueError.
Proof.
  induction 1 as [|e es He _ IH]; intros r.
  - cbn. rewrite app_nil_r. reflexivity.
  - cbn [bytescat_loop forallb map concat]. rewrite He.
    destruct (ints_in_range e); cbn [bind andb]; [|reflexivity].
    rewrite IH, app_assoc. reflexivity.
Qed.

Lemma bytescat_item_flatten (e : item) :
  bytescat_item e = if ints_in_range e then Return (flatten e) else Raise ValueError.
Proof.
  induction e as [b|n|es IH] using item_induction.
  - reflexivity.
  - reflexivity.
  - cbn [bytescat_item ints_in_range flatten].
    rewrite bytescat_item_items. apply (bytescat_loop_flatten es IH).
Qed.

Lemma bytescat_loop_all (es : list item) (r : bytes) :
  bytescat_loop es r
  = if forallb ints_in_range es
    then Return (r ++ concat (map flatten es))
    else Raise ValueError.
Proof.
  apply bytescat_loop_flatten. apply Forall_forall. intros e _.
  apply bytescat_item_flatten.
Qed.

(** X8.  [bytescat] returns the bytes of its arguments read left to right,
    however they are nested; it raises [ValueError] when one of the
    integers among them is outside [range(256)], and only then. *)
Theorem bytescat_flatten (data : list item) :
  bytescat data
  = if forallb ints_in_range data
    then Return (concat (map flatten data))
    else Raise ValueError.
Proof.
  unfold bytescat. apply (bytescat_loop_all data []).
Qed.

(** X9.  [bytescat] of arguments put side by side is the concatenation of
    [bytescat] of each part, and fails when one part does; an iterable
    among the arguments counts as its items in its place. *)
Theorem bytescat_app (xs ys : list item) :
  bytescat (xs ++ ys) = (x <- bytescat xs ;; y <- bytescat ys ;; Return (x ++ y))
  /\ bytescat (xs ++ [Items ys]) = bytescat (xs ++ ys).
Proof.
  unfold bytescat. rewrite !bytescat_loop_all.
  rewrite !forallb_app, !map_app, !concat_app.
  cbn [forallb map concat ints_in_range flatten].
  rewrite andb_true_r, !app_nil_r.
  destruct (forallb ints_in_range xs), (forallb ints_in_range ys); cbn; split; reflexivity.
Qed.

(* ================================================================== *)
(** * Sending a page line by line *)
(* ================================================================== *)

Lemma newlines_app (a b : bytes) : newlines (a ++ b) = newlines a + newlines b.
Proof. unfold newlines. rewrite filter_app. apply len_app. Qed.

Lemma newlines_nonneg (a : bytes) : 0 <= newlines a.
Proof. apply len_nonneg. Qed.

Lemma split_lines_join (data : bytes) :
  concat (map (fun l => l ++ [0x0A]) (split_lines data)) = data ++ [0x0A].
Proof.
  induction data as [|b rest IH]; [reflexivity|].
  cbn [split_lines]. destruct (Z.eqb_spec b 0x0A) as [->|Hb].
  - cbn [map concat app]. rewrite IH. reflexivity.
  - destruct (split_lines rest) as [|line lines].
    + cbn in IH. destruct rest; discriminate.
    + cbn [map concat] in *. rewrite <- !app_comm_cons, <- app_assoc.
      cbn [app]. f_equal. rewrite <- IH, <- app_assoc. reflexivity.
Qed.

Lemma split_lines_no_newline (data : bytes) :
  Forall (fun l => newlines l = 0) (split_lines data).
Proof.
  induction data as [|b rest IH]; [repeat constructor|].
  cbn [split_lines]. destruct (Z.eqb_spec b 0x0A) as [->|Hb].
  - constructor; [reflexivity|exact IH].
  - destruct (split_lines rest) as [|line lines].
    + repeat constructor. unfold newlines. cbn [filter].
      replace (0x0A =? b) with false by (symmetry; apply Z.eqb_neq; congruence).
      reflexivity.
    + inversion IH as [|? ? Hl Hls]; subst. constructor; [|exact Hls].
      unfold newlines in *. cbn [filter].
      replace (0x0A =? b) with false by (symmetry; apply Z.eqb_neq; congruence).
      exact Hl.
Qed.

Lemma send_vdt_loop_cons (line : bytes) (lines : list bytes)
    (chunk : bytes) (count : Z) (sent : list bytes) :
  fold_left send_vdt_step (line :: lines) (chunk, count, sent)
  = fold_left send_vdt_step lines
      (if 10 <=? count + 1
       then ([], 0, sent ++ [chunk ++ line ++ [0x0A]])
       else (chunk ++ line ++ [0x0A], count + 1, sent)).
Proof. reflexivity. Qed.

(** The loop of [send_vdt]: what is sent and what is pending hold the
    lines read so far; a message holds ten lines, the pending chunk fewer. *)
Lemma send_vdt_loop (lines : list bytes) :
  forall (chunk : bytes) (count : Z) (sent : list bytes),
    Forall (fun l => newlines l = 0) lines ->
    newlines chunk = count ->
    0 <= count < 10 ->
    (count = 0 -> chunk = []) ->
    exists chunk' count' new,
      fold_left send_vdt_step lines (chunk, count, sent) = (chunk', count', sent ++ new)
      /\ concat new ++ chunk' = chunk ++ concat (map (fun l => l ++ [0x0A]) lines)
      /\ newlines chunk' = count'
      /\ 0 <= count' < 10
      /\ (count' = 0 -> chunk' = [])
      /\ Forall (fun m => newlines m = 10) new.
Proof.
  induction lines as [|line lines IH]; intros chunk count sent Hlines Hn Hc H0.
  - exists chunk, count, []. cbn [fold_left map concat app].
    rewrite !app_nil_r. repeat split; try assumption; try lia. constructor.
  - pose proof (Forall_inv Hlines) as Hl. pose proof (Forall_inv_tail Hlines) as Hls.
    cbv beta in Hl. subst count.
    rewrite send_vdt_loop_cons. cbn [map concat].
    assert (Hn' : newlines (chunk ++ line ++ [0x0A]) = newlines chunk + 1).
    { rewrite !newlines_app, Hl. reflexivity. }
    destruct (Z.leb_spec 10 (newlines chunk + 1)) as [Hfull|Hless]; cbv iota.
    + destruct (IH [] 0 (sent ++ [chunk ++ line ++ [0x0A]]) Hls eq_refl ltac:(lia)
                  (fun _ => eq_refl))
        as (chunk' & count' & new & Hf & Hcat & Hn2 & Hc2 & H02 & Hnew).
      exists chunk', count', ((chunk ++ line ++ [0x0A]) :: new).
      split; [etransitivity; [exact Hf|]; rewrite <- app_assoc; reflexivity|].
      split.
      { cbn [concat]. rewrite <- !app_assoc. rewrite Hcat. reflexivity. }
      split; [exact Hn2|]. split; [exact Hc2|]. split; [exact H02|].
      constructor; [|exact Hnew]. lia.
    + destruct (IH (chunk ++ line ++ [0x0A]) (newlines chunk + 1) sent Hls Hn'
                  ltac:(lia) ltac:(lia))
        as (chunk' & count' & new & Hf & Hcat & Hn2 & Hc2 & H02 & Hnew).
      exists chunk', count', new.
      split; [exact Hf|].
      split; [rewrite Hcat, <- !app_assoc; reflexivity|].
      auto.
Qed.

(** X10.  [send_vdt] sends the data cut after every tenth line end and
    followed by one more line end, which the data does not hold: the
    messages, put end to end, are the data and a byte [0x0A].  Every
    message but the last holds ten line ends, the last one at least one
    and at most ten, so no message is empty and one is always sent, also
    for empty data. *)
Theorem send_vdt_messages (data : bytes) :
  concat (send_vdt data) = data ++ [0x0A]
  /\ exists full last,
       send_vdt data = full ++ [last]
       /\ Forall (fun m => newlines m = 10) full
       /\ 1 <= newlines last <= 10.
Proof.
  unfold send_vdt.
  destruct (send_vdt_loop (split_lines data) [] 0 [] (split_lines_no_newline data)
              eq_refl ltac:(lia) (fun _ => eq_refl))
    as (chunk & count & new & Hf & Hcat & Hn & Hc & H0 & Hnew).
  match goal with
  | |- context [fold_left ?f ?l ?i] =>
      assert (E : fold_left f l i = (chunk, count, new)) by exact Hf; rewrite E
  end.
  cbn [app] in *. rewrite split_lines_join in Hcat.
  destruct chunk as [|c chunk].
  - rewrite app_nil_r in Hcat. split; [exact Hcat|].
    destruct (exists_last (l := new)) as (full & last & ->).
    { intros ->. destruct data; discriminate. }
    apply Forall_app in Hnew. destruct Hnew as [Hfull Hlast].
    inversion Hlast as [|? ? Hl _]; subst.
    exists full, last. split; [reflexivity|]. split; [exact Hfull|]. lia.
  - split.
    + rewrite concat_app. cbn [concat]. rewrite app_nil_r. exact Hcat.
    + exists new, (c :: chunk). split; [reflexivity|]. split; [exact Hnew|].
      assert (count <> 0) by (intros E0; specialize (H0 E0); discriminate).
      lia.
Qed.

(* ================================================================== *)
(** * The artifact: frames written back to back *)
(* ================================================================== *)

Lemma segment_frames (code : bool -> Z) (tr : bytes -> outcome bytes) (tr' : bytes -> bytes)
    (chunks : list (bytes * bool)) (frames : list bytes) :
  Forall2 (fun '(chunk, final) fr =>
             exists body,
               tr chunk = Return body
               /\ is_frame (code final) body fr
               /\ parse_frame fr = Some (code final, body))
    chunks frames ->
  (forall chunk, tr chunk = Return (tr' chunk)) ->
  Forall2 (fun fr f => is_frame (fst f) (snd f) fr /\ parse_frame fr = Some f)
    frames (map (fun c => (code (snd c), tr' (fst c))) chunks).
Proof.
  intros HF Htr. induction HF as [|[chunk final] fr chunks frames H _ IH]; cbn [map].
  - constructor.
  - destruct H as (body & Hb & Hf & Hp). rewrite Htr in Hb. injection Hb as <-.
    constructor; [|exact IH]. split; assumption.
Qed.

Lemma framed_parse_frames (frames : list bytes) (fs : list (Z * bytes)) :
  Forall2 (fun fr f => is_frame (fst f) (snd f) fr /\ parse_frame fr = Some f) frames fs ->
  parse_frames frames = Some fs.
Proof.
  induction 1 as [|fr f frames fs [_ Hp] _ IH]; [reflexivity|].
  cbn [parse_frames]. rewrite Hp, IH. reflexivity.
Qed.

Lemma firstn_exact {A : Type} (l r : list A) : firstn (length l) (l ++ r) = l.
Proof.
  induction l as [|a l IH]; [reflexivity|]. cbn [length app firstn]. rewrite IH. reflexivity.
Qed.

Lemma skipn_exact {A : Type} (l r : list A) : skipn (length l) (l ++ r) = r.
Proof.
  induction l as [|a l IH]; [reflexivity|]. exact IH.
Qed.

(** The reader of an artifact takes one frame off the front. *)
Lemma parse_stream_frame (fuel : nat) (code : Z) (chunk fr rest : bytes) :
  is_frame code chunk fr ->
  parse_stream (S fuel) (fr ++ rest)
  = match parse_stream fuel rest with
    | Some fs => Some ((code, chunk) :: fs)
    | None => None
    end.
Proof.
  intros (l & Hl & ->).
  destruct (encode_length_positive (len chunk + 1)) as (bs & Hbs & _ & Hdec).
  { pose proof (len_nonneg chunk). lia. }
  rewrite Hl in Hbs. injection Hbs as <-.
  cbn [app parse_stream].
  change ((0x1B =? 0x1B) && (0x70 =? 0x70) && (0x23 =? PM) && (0x40 =? PI)) with true.
  cbv iota.
  replace ((l ++ code :: chunk) ++ rest) with (l ++ code :: chunk ++ rest)
    by (rewrite <- app_assoc; reflexivity).
  rewrite Hdec.
  assert (Hlen : len (code :: chunk ++ rest) = len chunk + 1 + len rest).
  { unfold len. cbn [length]. rewrite length_app. lia. }
  replace ((1 <=? len chunk + 1) && (len chunk + 1 <=? len (code :: chunk ++ rest)))
    with true.
  2:{ symmetry. apply andb_true_iff. split; apply Z.leb_le.
      - pose proof (len_nonneg chunk). lia.
      - rewrite Hlen. pose proof (len_nonneg rest). lia. }
  replace (Z.to_nat (len chunk + 1)) with (S (length chunk)) by (unfold len; lia).
  cbn [firstn skipn]. rewrite firstn_exact, skipn_exact. reflexivity.
Qed.

Lemma framed_parse_stream (frames : list bytes) (fs : list (Z * bytes)) :
  Forall2 (fun fr f => is_frame (fst f) (snd f) fr /\ parse_frame fr = Some f) frames fs ->
  forall fuel, (length frames < fuel)%nat -> parse_stream fuel (concat frames) = Some fs.
Proof.
  induction 1 as [|fr [code chunk] frames fs [Hf _] _ IH]; intros fuel Hfuel.
  - destruct fuel; [lia|]. reflexivity.
  - destruct fuel as [|fuel]; [cbn [length] in Hfuel; lia|].
    cbn [concat]. rewrite (parse_stream_frame fuel code chunk fr _ Hf).
    rewrite IH by (cbn [length] in Hfuel; lia). reflexivity.
Qed.

Lemma translate_data_returns (translation : bool) (chunk : bytes) :
  (if translation then translate_data chunk else Return chunk)
  = Return (if translation then translate_groups chunk else chunk).
Proof. destruct translation; [apply translate_data_groups|reflexivity]. Qed.

(** The frames of [encode_image] and what a reader finds in them. *)
Lemma encode_image_framed (header image : bytes) (chunk_size : Z) (translation : bool) :
  exists frames,
    encode_image header image chunk_size translation = Return frames
    /\ Forall2 (fun fr f => is_frame (fst f) (snd f) fr /\ parse_frame fr = Some f)
         frames
         (map (fun c => (header_code (snd c), fst c)) (split_chunks header (chunk_size - 1))
            ++ map (fun c => (image_code (snd c),
                              if translation then translate_groups (fst c) else fst c))
                 (split_chunks image
                    (if translation then (chunk_size - 1) * 3 / 4 + 1 else chunk_size))).
Proof.
  destruct (encode_image_returns header image chunk_size translation)
    as (hframes & pframes & Hrun & HF1 & HF2).
  exists (hframes ++ pframes). split; [exact Hrun|].
  apply Forall2_app.
  - apply (segment_frames header_code (fun chunk => Return chunk) (fun chunk => chunk)
             _ _ HF1).
    reflexivity.
  - apply (segment_frames image_code
             (fun chunk => if translation then translate_data chunk else Return chunk)
             (fun chunk => if translation then translate_groups chunk else chunk)
             _ _ HF2).
    apply translate_data_returns.
Qed.

Lemma untranslated_payload_app (fs1 fs2 : list (Z * bytes)) :
  untranslated_payload (fs1 ++ fs2) = untranslated_payload fs1 ++ untranslated_payload fs2.
Proof.
  unfold untranslated_payload. rewrite filter_app, map_app, concat_app. reflexivity.
Qed.

Lemma untranslated_payload_header (chunks : list (bytes * bool)) :
  untranslated_payload (map (fun c => (header_code (snd c), fst c)) chunks) = [].
Proof.
  unfold untranslated_payload.
  induction chunks as [|[chunk []] chunks IH]; [reflexivity|exact IH..].
Qed.

Lemma untranslated_payload_image (chunks : list (bytes * bool)) :
  Forall wf_bytes (map fst chunks) ->
  untranslated_payload (map (fun c => (image_code (snd c), translate_groups (fst c))) chunks)
  = concat (map fst chunks).
Proof.
  unfold untranslated_payload.
  induction chunks as [|[chunk final] chunks IH]; intros Hwf; [reflexivity|].
  cbn [map fst] in Hwf.
  pose proof (Forall_inv Hwf) as Hc. pose proof (Forall_inv_tail Hwf) as Hcs.
  specialize (IH Hcs).
  destruct final; cbn [map filter fst snd existsb image_code concat] in *;
    change (0x53 =? 0x52) with false; change (0x53 =? 0x53) with true;
    change (0x52 =? 0x52) with true; cbn [orb map concat snd];
    rewrite IH, (untranslate_translate_groups chunk Hc); reflexivity.
Qed.

Lemma split_chunks_wf (data : bytes) (chunk_size : Z) :
  wf_bytes data -> Forall wf_bytes (map fst (split_chunks data chunk_size)).
Proof.
  intros Hwf. apply Forall_concat. rewrite split_chunks_concat. exact Hwf.
Qed.

(** X11.  The frames [encode_image] returns are self-delimiting: from
    the artifact [convert_images] writes, the frames back to back with
    nothing between them, a reader that follows the Length fields gets
    each frame's opcode and chunk back, the same as from the frames one by
    one; the header frames' chunks give the header, and without
    translation the payload frames' chunks give the image. *)
Theorem artifact_self_delimiting (header image : bytes) (chunk_size : Z)
    (translation : bool) :
  exists frames parsed,
    encode_image header image chunk_size translation = Return frames
    /\ parse_stream (S (length frames)) (concat frames) = Some parsed
    /\ parse_frames frames = Some parsed
    /\ payload_of [0x50; 0x51] parsed = header
    /\ (translation = false -> payload_of [0x52; 0x53] parsed = image).
Proof.
  destruct (encode_image_framed header image chunk_size translation)
    as (frames & Hrun & HF).
  exists frames. eexists. split; [exact Hrun|].
  split; [apply (framed_parse_stream _ _ HF); lia|].
  split; [apply (framed_parse_frames _ _ HF)|].
  split.
  - rewrite payload_of_app.
    rewrite (payload_of_segment header_code) by (intros []; reflexivity).
    rewrite split_chunks_concat.
    rewrite <- (app_nil_r header) at 2. f_equal.
    generalize (split_chunks image
                  (if translation then (chunk_size - 1) * 3 / 4 + 1 else chunk_size)).
    intros chunks. unfold payload_of.
    induction chunks as [|[chunk []] chunks IH]; [reflexivity|exact IH..].
  - intros ->. rewrite payload_of_app.
    rewrite (payload_of_other header_code) by (intros []; reflexivity).
    rewrite (payload_of_segment image_code) by (intros []; reflexivity).
    apply split_chunks_concat.
Qed.

(** X12.  With translation, what [encode_image] returns can be undone:
    the chunk of every payload frame holds bytes of [[0x40, 0x7F]] only,
    and the chunks, each put through the inverse of the 6-bit-safe
    transform and then put end to end, are the image.  The image is cut
    before it is translated, every chunk on its own. *)
Theorem encode_image_translation_undone (header image : bytes) (chunk_size : Z)
    (Hwf : wf_bytes image) :
  exists frames parsed,
    encode_image header image chunk_size true = Return frames
    /\ parse_stream (S (length frames)) (concat frames) = Some parsed
    /\ payload_of [0x50; 0x51] parsed = header
    /\ untranslated_payload parsed = image
    /\ Forall (fun b => 0x40 <= b <= 0x7F) (payload_of [0x52; 0x53] parsed).
Proof.
  destruct (encode_image_framed header image chunk_size true) as (frames & Hrun & HF).
  cbv iota in HF.
  pose proof (split_chunks_wf image ((chunk_size - 1) * 3 / 4 + 1) Hwf) as Hchunks.
  exists frames. eexists. split; [exact Hrun|].
  split; [apply (framed_parse_stream _ _ HF); lia|].
  split; [|split].
  - rewrite payload_of_app.
    rewrite (payload_of_segment header_code) by (intros []; reflexivity).
    rewrite split_chunks_concat.
    rewrite <- (app_nil_r header) at 2. f_equal.
    generalize (split_chunks image ((chunk_size - 1) * 3 / 4 + 1)).
    intros chunks. unfold payload_of.
    induction chunks as [|[chunk []] chunks IH]; [reflexivity|exact IH..].
  - rewrite untranslated_payload_app, untranslated_payload_header.
    rewrite (untranslated_payload_image _ Hchunks). apply split_chunks_concat.
  - rewrite payload_of_app.
    rewrite (payload_of_other header_code) by (intros []; reflexivity).
    cbn [app].
    revert Hchunks. generalize (split_chunks image ((chunk_size - 1) * 3 / 4 + 1)).
    intros chunks Hchunks. unfold payload_of.
    induction chunks as [|[chunk final] chunks IH]; [constructor|].
    cbn [map fst] in Hchunks.
    pose proof (Forall_inv Hchunks) as Hc. pose proof (Forall_inv_tail Hchunks) as Hcs.
    specialize (IH Hcs).
    destruct final; cbn [map filter fst snd existsb image_code concat] in *;
      change (0x53 =? 0x52) with false; change (0x53 =? 0x53) with true;
      change (0x52 =? 0x52) with true; cbn [orb map concat snd];
      (apply Forall_app; split; [apply translate_groups_range; exact Hc|exact IH]).
Qed.

Lemma encode_image_translation_undone_witness :
  exists frames parsed,
    encode_image [1; 2; 3] [0xFF; 0xD8; 0xFF; 0xDA; 0x80; 0xFF; 0xD9] 4 true = Return frames
    /\ parse_stream (S (length frames)) (concat frames) = Some parsed
    /\ payload_of [0x50; 0x51] parsed = [1; 2; 3]
    /\ untranslated_payload parsed = [0xFF; 0xD8; 0xFF; 0xDA; 0x80; 0xFF; 0xD9]
    /\ Forall (fun b => 0x40 <= b <= 0x7F) (payload_of [0x52; 0x53] parsed).
Proof.
  apply (encode_image_translation_undone [1; 2; 3]
           [0xFF; 0xD8; 0xFF; 0xDA; 0x80; 0xFF; 0xD9] 4).
  repeat constructor; unfold is_byte; lia.
Defined.

(* ================================================================== *)
(** * Images inside the canvas *)
(* ================================================================== *)

Lemma range_cases (P : Z -> bool) (n : nat) :
  forallb P (map Z.of_nat (seq 0 (S n))) = true ->
  forall z, 0 <= z <= Z.of_nat n -> P z = true.
Proof.
  intros H z Hz. rewrite forallb_forall in H. apply H.
  apply in_map_iff. exists (Z.to_nat z). split; [lia|]. apply in_seq. lia.
Qed.

Lemma is_one_eq (f : spec_float) : is_one f = true -> f = float_one.
Proof.
  destruct f as [| | |[] m e]; try discriminate. cbn [is_one].
  intros H. apply andb_true_iff in H. destruct H as [Hm He].
  apply Z.eqb_eq in Hm, He. unfold float_one. congruence.
Qed.

Lemma width_fits (W : Z) : 1 <= W <= 320 -> side_fits SCREEN_WIDTH W = true.
Proof.
  intros HW.
  pose proof (range_cases (fun z => (z =? 0) || side_fits SCREEN_WIDTH z) 320%nat
                ltac:(vm_compute; reflexivity) W ltac:(lia)) as H.
  cbv beta in H.
  replace (W =? 0) with false in H by (symmetry; apply Z.eqb_neq; lia). exact H.
Qed.

Lemma height_fits (H : Z) : 1 <= H <= 240 -> side_fits SCREEN_HEIGHT H = true.
Proof.
  intros HH.
  pose proof (range_cases (fun z => (z =? 0) || side_fits SCREEN_HEIGHT z) 240%nat
                ltac:(vm_compute; reflexivity) H ltac:(lia)) as E.
  cbv beta in E.
  replace (H =? 0) with false in E by (symmetry; apply Z.eqb_neq; lia). exact E.
Qed.

Lemma side_fits_inv (L D : Z) :
  side_fits L D = true ->
  exists a,
    int_truediv L D = Return a
    /\ (a = float_one \/ py_lt (PyInt 1) (PyFloat a) = true)
    /\ (s <- py_mul (PyInt D) (PyFloat float_one) ;; py_round s) = Return D.
Proof.
  unfold side_fits. intros H. apply andb_true_iff in H. destruct H as [H1 H2].
  destruct (int_truediv L D) as [a| |]; try discriminate.
  exists a. split; [reflexivity|]. split.
  - apply orb_true_iff in H1. destruct H1 as [H1|H1]; [left; apply is_one_eq|right]; exact H1.
  - destruct (s <- py_mul (PyInt D) (PyFloat float_one) ;; py_round s) as [z| |];
      try discriminate.
    apply Z.eqb_eq in H2. congruence.
Qed.

(** The ratio of an image that fits the canvas is 1, as an [int] or as
    the float [1.0]. *)
Lemma ratio_of_fitting (a b : spec_float) :
  a = float_one \/ py_lt (PyInt 1) (PyFloat a) = true ->
  b = float_one \/ py_lt (PyInt 1) (PyFloat b) = true ->
  py_min3 (PyFloat a) (PyFloat b) (PyInt 1) = PyInt 1
  \/ py_min3 (PyFloat a) (PyFloat b) (PyInt 1) = PyFloat float_one.
Proof.
  intros Ha Hb. unfold py_min3.
  destruct (py_lt (PyFloat b) (PyFloat a)).
  - destruct Hb as [->|Hb]; [right; reflexivity|left; rewrite Hb; reflexivity].
  - destruct Ha as [->|Ha]; [right; reflexivity|left; rewrite Ha; reflexivity].
Qed.

Lemma scaled_by_one (D : Z) (ratio : pynum) :
  (s <- py_mul (PyInt D) (PyFloat float_one) ;; py_round s) = Return D ->
  ratio = PyInt 1 \/ ratio = PyFloat float_one ->
  (s <- py_mul (PyInt D) ratio ;; py_round s) = Return D.
Proof.
  intros H [->| ->]; [|exact H].
  cbn [py_mul bind py_round]. rewrite Z.mul_1_r. reflexivity.
Qed.

Lemma bind_assoc_round (D : Z) (ratio : pynum) (z : Z) {A : Type} (k : Z -> outcome A) :
  (s <- py_mul (PyInt D) ratio ;; py_round s) = Return z ->
  (s <- py_mul (PyInt D) ratio ;; w <- py_round s ;; k w) = k z.
Proof.
  destruct (py_mul (PyInt D) ratio) as [s| |]; cbn [bind]; try discriminate.
  intros ->. reflexivity.
Qed.

(** X13.  An image that fits the canvas is not scaled: [resize_image]
    takes its width to the nearest multiple of 8 and its height to the
    nearest multiple of 10, a half going up, and returns the image itself,
    without resampling it, exactly when both already are such multiples. *)
Theorem resize_image_within_canvas (W H : Z)
    (HW : 1 <= W <= SCREEN_WIDTH) (HH : 1 <= H <= SCREEN_HEIGHT) :
  let w := (W + 4) / 8 * 8 in
  let h := (H + 5) / 10 * 10 in
  resize_image W H
  = Return (if (W mod 8 =? 0) && (H mod 10 =? 0) then Unchanged else Resample w h)
  /\ resized_size W H (if (W mod 8 =? 0) && (H mod 10 =? 0) then Unchanged else Resample w h)
     = (w, h).
Proof.
  intros w h. unfold SCREEN_WIDTH in HW. unfold SCREEN_HEIGHT in HH.
  destruct (side_fits_inv _ _ (width_fits W HW)) as (a & Ha & Ha1 & HaW).
  destruct (side_fits_inv _ _ (height_fits H HH)) as (b & Hb & Hb1 & HbH).
  pose proof (ratio_of_fitting a b Ha1 Hb1) as Hr.
  assert (Ew : (W =? w) = (W mod 8 =? 0)).
  { unfold w. apply eq_true_iff_eq. rewrite !Z.eqb_eq.
    pose proof (Z.div_mod W 8 ltac:(lia)). pose proof (Z.mod_pos_bound W 8 ltac:(lia)).
    pose proof (Z.div_mod (W + 4) 8 ltac:(lia)).
    pose proof (Z.mod_pos_bound (W + 4) 8 ltac:(lia)). lia. }
  assert (Eh : (H =? h) = (H mod 10 =? 0)).
  { unfold h. apply eq_true_iff_eq. rewrite !Z.eqb_eq.
    pose proof (Z.div_mod H 10 ltac:(lia)). pose proof (Z.mod_pos_bound H 10 ltac:(lia)).
    pose proof (Z.div_mod (H + 5) 10 ltac:(lia)).
    pose proof (Z.mod_pos_bound (H + 5) 10 ltac:(lia)). lia. }
  split.
  - unfold resize_image. rewrite Ha, Hb. cbn [bind].
    rewrite (bind_assoc_round W _ W) by (apply scaled_by_one; assumption).
    rewrite (bind_assoc_round H _ H) by (apply scaled_by_one; assumption).
    fold w h. rewrite Ew, Eh.
    destruct ((W mod 8 =? 0) && (H mod 10 =? 0)); reflexivity.
  - destruct ((W mod 8 =? 0) && (H mod 10 =? 0)) eqn:E; [|reflexivity].
    rewrite <- Ew, <- Eh in E. apply andb_true_iff in E. destruct E as [E1 E2].
    apply Z.eqb_eq in E1, E2. cbn [resized_size]. congruence.
Qed.

Lemma resize_image_within_canvas_witness :
  let w := (317 + 4) / 8 * 8 in
  let h := (15 + 5) / 10 * 10 in
  resize_image 317 15
  = Return (if (317 mod 8 =? 0) && (15 mod 10 =? 0) then Unchanged else Resample w h)
  /\ resized_size 317 15
       (if (317 mod 8 =? 0) && (15 mod 10 =? 0) then Unchanged else Resample w h)
     = (w, h).
Proof.
  apply (resize_image_within_canvas 317 15); unfold SCREEN_WIDTH, SCREEN_HEIGHT; lia.
Defined.

Lemma fraction_fits_inv (a L : Z) :
  fraction_fits a L = true ->
  exists f bs,
    int_truediv a L = Return f
    /\ encode_normalized (PyFloat f) = Return bs
    /\ length bs = 6%nat.
Proof.
  unfold fraction_fits, fraction.
  destruct (int_truediv a L) as [f| |]; cbn [bind]; try discriminate.
  destruct (encode_normalized (PyFloat f)) as [bs| |] eqn:E; try discriminate.
  intros H. apply Z.eqb_eq in H. exists f, bs. unfold len in H.
  split; [reflexivity|]. split; [exact E|lia].
Qed.

Lemma fraction_075_fits_inv (a L : Z) :
  fraction_075_fits a L = true ->
  exists f g bs,
    int_truediv a L = Return f
    /\ py_mul (PyFloat f) (PyFloat float_0_75) = Return g
    /\ encode_normalized g = Return bs
    /\ length bs = 6%nat.
Proof.
  unfold fraction_075_fits, fraction_075.
  destruct (int_truediv a L) as [f| |]; cbn [bind]; try discriminate.
  destruct (py_mul (PyFloat f) (PyFloat float_0_75)) as [g| |] eqn:Eg; cbn [bind];
    try discriminate.
  destruct (encode_normalized g) as [bs| |] eqn:E; try discriminate.
  intros H. apply Z.eqb_eq in H. exists f, g, bs. unfold len in H.
  split; [reflexivity|]. split; [exact Eg|]. split; [exact E|lia].
Qed.

Lemma abscissa_fits (a : Z) : -320 <= a <= 320 -> fraction_fits a 320 = true.
Proof.
  intros Ha.
  pose proof (range_cases (fun z => fraction_fits (z - 320) 320) 640%nat
                ltac:(vm_compute; reflexivity) (a + 320) ltac:(lia)) as H.
  cbv beta in H. replace (a + 320 - 320) with a in H by lia. exact H.
Qed.

Lemma ordinate_fits (a : Z) : -320 <= a <= 320 -> fraction_075_fits a 240 = true.
Proof.
  intros Ha.
  pose proof (range_cases (fun z => fraction_075_fits (z - 320) 240) 640%nat
                ltac:(vm_compute; reflexivity) (a + 320) ltac:(lia)) as H.
  cbv beta in H. replace (a + 320 - 320) with a in H by lia. exact H.
Qed.

(** The header of an image placed inside the canvas, or no further out
    than the guard of [encode_normalized] lets it. *)
Lemma encode_header_fits (x y width height : Z)
    (clear translation reset quantization : bool) :
  -320 <= x <= 320 -> -320 <= width <= 320 -> -320 <= height <= 320 ->
  -320 <= 240 - height - y <= 320 ->
  exists hdr,
    encode_header x y width height clear translation reset quantization = Return hdr
    /\ len hdr = 48 + (if reset then 5 else 0) + (if clear then 5 else 0)
                 + (if quantization then 12 else 0) + (if translation then 5 else 0).
Proof.
  intros Hx Hw Hh Hy.
  destruct (fraction_fits_inv _ _ (abscissa_fits x Hx)) as (fx & nx & Efx & Enx & Lnx).
  destruct (fraction_fits_inv _ _ (abscissa_fits width Hw)) as (fw & nw & Efw & Enw & Lnw).
  destruct (fraction_075_fits_inv _ _ (ordinate_fits (240 - height - y) ltac:(lia)))
    as (fy & gy & ny & Efy & Egy & Eny & Lny).
  destruct (fraction_075_fits_inv _ _ (ordinate_fits height ltac:(lia)))
    as (fh & gh & nh & Efh & Egh & Enh & Lnh).
  unfold encode_header, SCREEN_WIDTH, SCREEN_HEIGHT.
  destruct reset, clear, quantization, translation; cbn [bind];
    rewrite Efx; cbn [bind]; rewrite Enx; cbn [bind];
    rewrite Efy; cbn [bind]; rewrite Egy; cbn [bind]; rewrite Eny; cbn [bind];
    rewrite Efw; cbn [bind]; rewrite Enw; cbn [bind];
    rewrite Efh; cbn [bind]; rewrite Egh; cbn [bind]; rewrite Enh; cbn [bind];
    rewrite ?encode_integer_0, ?encode_normalized_0, ?encode_integer_7F; cbn [bind];
    (eexists; split; [reflexivity|]);
    unfold len; rewrite !length_app, Lnx, Lny, Lnw, Lnh; reflexivity.
Qed.

(** X14.  [encode_header] returns whenever [x], [width], [height] and
    [240 - height - y] all lie in [[-320, 320]]: for every image placed
    inside the canvas, and also for one of up to 320 rows, taller than the
    canvas.  The header has 48 bytes, 5 more with [reset], 5 with [clear],
    12 with [quantization], 5 with [translation]; so with the chunk size
    [0x100] of [convert_images] it goes into one frame, of opcode [0x51],
    the first that [encode_image] returns. *)
Theorem encode_header_in_canvas (x y width height : Z)
    (clear translation reset quantization : bool) (image : bytes)
    (Hx : -320 <= x <= 320) (Hw : -320 <= width <= 320) (Hh : -320 <= height <= 320)
    (Hy : -320 <= 240 - height - y <= 320) :
  exists hdr,
    encode_header x y width height clear translation reset quantization = Return hdr
    /\ len hdr = 48 + (if reset then 5 else 0) + (if clear then 5 else 0)
                 + (if quantization then 12 else 0) + (if translation then 5 else 0)
    /\ exists fr pframes,
         encode_image hdr image 0x100 translation = Return (fr :: pframes)
         /\ is_frame 0x51 hdr fr.
Proof.
  destruct (encode_header_fits x y width height clear translation reset quantization
              Hx Hw Hh Hy) as (hdr & Hhdr & Hlen).
  exists hdr. split; [exact Hhdr|]. split; [exact Hlen|].
  destruct (encode_image_returns hdr image 0x100 translation)
    as (hframes & pframes & Hrun & HF1 & _).
  rewrite split_chunks_last in HF1
    by (rewrite Hlen; destruct reset, clear, quantization, translation; lia).
  inversion HF1 as [|c fr cs frs Hfr Hnil]; subst.
  inversion Hnil; subst.
  destruct Hfr as (body & Hb & Hf & _). injection Hb as <-.
  exists fr, pframes. split; [exact Hrun|exact Hf].
Qed.

Lemma encode_header_in_canvas_witness :
  exists hdr,
    encode_header 0 0 320 240 true false true true = Return hdr
    /\ len hdr = 48 + 5 + 5 + 12 + 0
    /\ exists fr pframes,
         encode_image hdr [0xFF; 0xD8; 0xFF; 0xDA; 0xFF; 0xD9] 0x100 false
         = Return (fr :: pframes)
         /\ is_frame 0x51 hdr fr.
Proof.
  apply (encode_header_in_canvas 0 0 320 240 true false true true
           [0xFF; 0xD8; 0xFF; 0xDA; 0xFF; 0xD9]); lia.
Defined.

(* ================================================================== *)
(** * Chunks, frames and the batch as a whole *)
(* ================================================================== *)

Lemma split_chunks_full (chunk_size : Z) :
  0 < chunk_size ->
  forall (n : nat) (data : bytes),
    (length data <= n)%nat ->
    data <> [] ->
    exists full last,
      split_chunks data chunk_size = map (fun c => (c, false)) full ++ [(last, true)]
      /\ Forall (fun c => len c = chunk_size) full
      /\ 1 <= len last <= chunk_size
      /\ len data = chunk_size * len full + len last.
Proof.
  intros Hcs. induction n as [|n IH]; intros data Hn Hdata.
  - destruct data; [contradiction|cbn in Hn; lia].
  - destruct (Z.le_gt_cases (len data) chunk_size) as [Hfit|Hmore].
    + rewrite split_chunks_last by assumption.
      exists [], data. split; [reflexivity|]. split; [constructor|].
      assert (1 <= len data) by (destruct data; [contradiction|unfold len; cbn; lia]).
      change (len (@nil bytes)) with 0. lia.
    + rewrite split_chunks_step by lia.
      set (c := Z.to_nat chunk_size).
      assert (Hrest : len (skipn c data) = len data - chunk_size).
      { unfold len in *. rewrite length_skipn. lia. }
      destruct (IH (skipn c data)) as (full & last & Hsplit & Hfull & Hlast & Hlen).
      { rewrite length_skipn. unfold len in Hmore. lia. }
      { intros E. rewrite E in Hrest. change (len (@nil Z)) with 0 in Hrest. lia. }
      assert (Hfirst : len (firstn c data) = chunk_size).
      { unfold len in *. rewrite length_firstn. lia. }
      exists (firstn c data :: full), last. rewrite Hsplit.
      split; [reflexivity|]. split; [constructor; assumption|]. split; [exact Hlast|].
      unfold len in *. cbn [length]. lia.
Qed.

(** X15.  [split_chunks] cuts data that is not empty, with a positive
    chunk size, into chunks of exactly that size and a last chunk of 1 to
    that size; only the last is flagged final.  There are
    [ceil(len(data) / chunk_size)] chunks and none is empty. *)
Theorem split_chunks_sizes (data : bytes) (chunk_size : Z)
    (Hsize : 0 < chunk_size) (Hdata : data <> []) :
  exists full last,
    split_chunks data chunk_size = map (fun c => (c, false)) full ++ [(last, true)]
    /\ Forall (fun c => len c = chunk_size) full
    /\ 1 <= len last <= chunk_size
    /\ len data = chunk_size * len full + len last
    /\ len (split_chunks data chunk_size) = (len data + chunk_size - 1) / chunk_size.
Proof.
  destruct (split_chunks_full chunk_size Hsize (length data) data ltac:(lia) Hdata)
    as (full & last & Hsplit & Hfull & Hlast & Hlen).
  exists full, last. split; [exact Hsplit|]. split; [exact Hfull|].
  split; [exact Hlast|]. split; [exact Hlen|].
  rewrite Hsplit, len_app. unfold len at 1 2. rewrite length_map. cbn [length].
  fold (len full). change (Z.of_nat 1) with 1.
  apply Z.div_unique with (r := len last - 1); lia.
Qed.

Lemma split_chunks_sizes_witness :
  exists full last,
    split_chunks [1; 2; 3; 4; 5; 6; 7] 3 = map (fun c => (c, false)) full ++ [(last, true)]
    /\ Forall (fun c => len c = 3) full
    /\ 1 <= len last <= 3
    /\ len [1; 2; 3; 4; 5; 6; 7] = 3 * len full + len last
    /\ len (split_chunks [1; 2; 3; 4; 5; 6; 7] 3) = (len [1; 2; 3; 4; 5; 6; 7] + 3 - 1) / 3.
Proof.
  apply (split_chunks_sizes [1; 2; 3; 4; 5; 6; 7] 3); [lia|discriminate].
Defined.

Lemma translated_size (n chunk_size : Z) :
  2 <= chunk_size -> 0 <= n <= (chunk_size - 1) * 3 / 4 + 1 ->
  4 * (n / 3) + (if n mod 3 =? 0 then 0 else n mod 3 + 1) <= chunk_size + 1.
Proof.
  intros Hcs Hn.
  pose proof (Z.div_mod n 3 ltac:(lia)). pose proof (Z.mod_pos_bound n 3 ltac:(lia)).
  pose proof (Z.div_mod ((chunk_size - 1) * 3) 4 ltac:(lia)).
  pose proof (Z.mod_pos_bound ((chunk_size - 1) * 3) 4 ltac:(lia)).
  destruct (Z.eqb_spec (n mod 3) 0); lia.
Qed.

(** X16.  With a chunk size of 2 or more, the chunk of a header frame has
    one byte less than the chunk size at most, so that the frame's Length
    field, which counts the opcode too, stays within the chunk size.  The
    chunk of a payload frame has up to the chunk size without translation
    and up to one byte more with it: there the Length field goes past the
    chunk size. *)
Theorem encode_image_chunk_bounds (header image : bytes) (chunk_size : Z)
    (translation : bool) (Hsize : 2 <= chunk_size) :
  exists frames parsed,
    encode_image header image chunk_size translation = Return frames
    /\ parse_frames frames = Some parsed
    /\ Forall (fun f =>
                 if existsb (Z.eqb (fst f)) [0x50; 0x51]
                 then len (snd f) <= chunk_size - 1
                 else len (snd f) <= (if translation then chunk_size + 1 else chunk_size))
         parsed.
Proof.
  destruct (encode_image_framed header image chunk_size translation)
    as (frames & Hrun & HF).
  exists frames. eexists. split; [exact Hrun|].
  split; [apply (framed_parse_frames _ _ HF)|].
  clear HF Hrun. apply Forall_app. split.
  - pose proof (proj2 (proj2 (split_chunks_spec (chunk_size - 1) (length header) header
                                ltac:(lia))) ltac:(lia)) as Hh.
    induction Hh as [|[chunk final] chunks Hc _ IH]; [constructor|].
    cbn [map]. constructor; [|exact IH].
    cbn [fst snd] in *. destruct final; exact Hc.
  - set (c := if translation then (chunk_size - 1) * 3 / 4 + 1 else chunk_size).
    assert (Hc0 : 0 < c).
    { unfold c. destruct translation; [|lia].
      pose proof (Z.div_pos ((chunk_size - 1) * 3) 4 ltac:(lia) ltac:(lia)). lia. }
    pose proof (proj2 (proj2 (split_chunks_spec c (length image) image ltac:(lia))) Hc0)
      as Hp.
    induction Hp as [|[chunk final] chunks Hc _ IH]; [constructor|].
    cbn [map]. constructor; [|exact IH].
    cbn [fst snd] in *.
    replace (existsb (Z.eqb (image_code final)) [0x50; 0x51]) with false
      by (destruct final; reflexivity).
    unfold c in Hc. destruct translation; [|exact Hc].
    rewrite translate_groups_length. apply translated_size; [exact Hsize|].
    pose proof (len_nonneg chunk). lia.
Qed.

Lemma encode_image_chunk_bounds_witness :
  exists frames parsed,
    encode_image [1; 2; 3] [10; 20; 30; 40; 50; 60; 70; 80] 5 true = Return frames
    /\ parse_frames frames = Some parsed
    /\ Forall (fun f =>
                 if existsb (Z.eqb (fst f)) [0x50; 0x51]
                 then len (snd f) <= 5 - 1
                 else len (snd f) <= (if true then 5 + 1 else 5))
         parsed.
Proof.
  apply (encode_image_chunk_bounds [1; 2; 3] [10; 20; 30; 40; 50; 60; 70; 80] 5 true).
  lia.
Defined.

(** X17.  The raw form of [encode_integer] is written for every integer:
    at least one 7-bit group, each a byte, which read as a two's-complement
    number of 7 bits a group give the integer back.  The form with a
    header is the tag [0x40], the number of groups and the same groups; it
    raises [ValueError] exactly when there are 256 groups or more. *)
Theorem encode_integer_raw_form (number : Z) :
  exists ds,
    encode_integer number true = Return ds
    /\ wf_bytes ds
    /\ 1 <= len ds
    /\ encode_integer number false
       = (if len ds <? 256 then Return (0x40 :: len ds :: ds) else Raise ValueError)
    /\ (let u := be7_value ds in
        if u <? 2 ^ (7 * len ds - 1) then u else u - 2 ^ (7 * len ds)) = number.
Proof.
  destruct (encode_integer_with number true) as (k & Hk & Hrange & Hmin & Hraw).
  destruct (encode_integer_with number false) as (k' & Hk' & Hrange' & Hmin' & Hhdr).
  cbv zeta in *.
  assert (Ek : k' = k).
  { assert (7 * Z.of_nat k <= 7 * Z.of_nat k').
    { apply Hmin; [|exact Hrange'].
      rewrite Z.mul_comm. apply Z.mod_mul. lia. }
    assert (7 * Z.of_nat k' <= 7 * Z.of_nat k).
    { apply Hmin'; [|exact Hrange].
      rewrite Z.mul_comm. apply Z.mod_mul. lia. }
    lia. }
  subst k'.
  set (u := if number <? 0 then number + 2 ^ (7 * Z.of_nat k) else number) in *.
  set (ds := map (fun i => Z.land (Z.shiftr u i) 0x7F)
               (rev (map (fun j => Z.of_nat j * 7) (seq 0 k)))) in *.
  assert (Hlen : len ds = Z.of_nat k).
  { unfold ds, len. rewrite length_map, length_rev, length_map, length_seq. reflexivity. }
  destruct (twos_complement_wrap number (7 * Z.of_nat k) ltac:(lia) Hrange) as [Hu Hback].
  fold u in Hu, Hback.
  exists ds. cbn [negb bind app] in Hraw. split; [exact Hraw|].
  split; [apply be7_digits_bytes|]. split; [lia|]. split.
  - rewrite Hhdr. cbn [negb].
    replace (7 * Z.of_nat k / 7) with (Z.of_nat k)
      by (rewrite Z.mul_comm, Z.div_mul; lia).
    rewrite Hlen. unfold bytes_of_int.
    replace (0 <=? Z.of_nat k) with true by (symmetry; apply Z.leb_le; lia).
    cbn [andb]. destruct (Z.of_nat k <? 256); reflexivity.
  - assert (Hval : be7_value ds = u).
    { unfold be7_value, ds. rewrite be7_digits. rewrite Z.mul_0_l, Z.add_0_l.
      apply Z.mod_small. exact Hu. }
    rewrite Hval, Hlen. exact Hback.
Qed.

Section BatchOutcomes.

Variable P : platform.


End BatchOutcomes.

(* ================================================================== *)
(** * The Length field *)
(* ================================================================== *)

Lemma low5_cases (v : Z) : exists k, (k < 32)%nat /\ Z.land v 31 = Z.of_nat k.
Proof.
  pose proof (land31_bounds v). exists (Z.to_nat (Z.land v 31)). lia.
Qed.

Lemma last_digit_range (v : Z) :
  0x40 <= Z.lor (Z.land v 31) (Z.shiftl 1 6) <= 0x5F.
Proof.
  destruct (low5_cases v) as (k & Hk & ->).
  do 32 (destruct k as [|k]; [cbn; lia|]). lia.
Qed.

Lemma cont_digit_range (v : Z) :
  0x60 <= Z.lor (Z.lor (Z.land v 31) (Z.shiftl 1 6)) (Z.shiftl 1 5) <= 0x7F.
Proof.
  destruct (low5_cases v) as (k & Hk & ->).
  do 32 (destruct k as [|k]; [cbn; lia|]). lia.
Qed.

(** The number of base-32 digits of a length. *)
Lemma digits_step (value : Z) :
  0 < value ->
  (if Z.shiftr value 5 =? 0 then 0 else Z.log2 (Z.shiftr value 5) / 5 + 1) + 1
  = Z.log2 value / 5 + 1.
Proof.
  intros Hv. rewrite Z.shiftr_div_pow2 by lia. change (2 ^ 5) with 32.
  destruct (Z.lt_ge_cases value 32) as [Hlt|Hge].
  - rewrite Z.div_small by lia. cbn [Z.eqb].
    assert (Z.log2 value < 5) by (apply Z.log2_lt_pow2; [lia|]; cbn; lia).
    pose proof (Z.log2_nonneg value). rewrite Z.div_small by lia. reflexivity.
  - assert (H32 : 1 <= value / 32) by (apply Z.div_le_lower_bound; lia).
    destruct (Z.eqb_spec (value / 32) 0) as [E|_]; [lia|].
    assert (Hl : 5 <= Z.log2 value) by (apply Z.log2_le_pow2; [lia|]; cbn; lia).
    replace (value / 32) with (Z.shiftr value 5)
      by (rewrite Z.shiftr_div_pow2 by lia; reflexivity).
    rewrite Z.log2_shiftr by lia. rewrite Z.max_r by lia.
    pose proof (Z.div_mod (Z.log2 value) 5 ltac:(lia)).
    pose proof (Z.mod_pos_bound (Z.log2 value) 5 ltac:(lia)).
    pose proof (Z.div_mod (Z.log2 value - 5) 5 ltac:(lia)).
    pose proof (Z.mod_pos_bound (Z.log2 value - 5) 5 ltac:(lia)).
    lia.
Qed.

(** The loop of [encode_length] after its first turn: the digits it adds
    all carry the continuation bit, one for each base-32 digit left. *)
Lemma encode_length_loop_digits :
  forall n value out,
    0 <= value < 32 ^ Z.of_nat n ->
    exists ds,
      while (S n) encode_length_cond encode_length_body (value, false, out)
        = Return (0, false, out ++ ds)
      /\ Forall (fun b => 0x60 <= b <= 0x7F) ds
      /\ len ds = (if value =? 0 then 0 else Z.log2 value / 5 + 1).
Proof.
  induction n as [|n IH]; intros value out Hv.
  - assert (value = 0) by (cbn in Hv; lia). subst value.
    exists []. cbn. rewrite app_nil_r. repeat split. constructor.
  - destruct (Z.eq_dec value 0) as [->|Hnz].
    + exists []. cbn. rewrite app_nil_r. repeat split. constructor.
    + assert (Hstep : while (S (S n)) encode_length_cond encode_length_body (value, false, out)
                      = while (S n) encode_length_cond encode_length_body
                          (encode_length_body (value, false, out))).
      { change (while (S (S n)) encode_length_cond encode_length_body (value, false, out))
          with (if encode_length_cond (value, false, out)
                then while (S n) encode_length_cond encode_length_body
                       (encode_length_body (value, false, out))
                else Return (value, false, out)).
        unfold encode_length_cond at 1.
        destruct (Z.eqb_spec value 0); [contradiction|reflexivity]. }
      rewrite Hstep. unfold encode_length_body at 2.
      set (d := Z.lor (Z.lor (Z.land value 31) (Z.shiftl 1 6)) (Z.shiftl 1 5)).
      cbn [negb].
      assert (Hq : 0 <= Z.shiftr value 5 < 32 ^ Z.of_nat n).
      { rewrite Z.shiftr_div_pow2 by lia. change (2 ^ 5) with 32.
        rewrite Nat2Z.inj_succ, Z.pow_succ_r in Hv by lia.
        split; [apply Z.div_pos; lia|apply Z.div_lt_upper_bound; lia]. }
      destruct (IH (Z.shiftr value 5) (out ++ [d]) Hq) as (ds & Hrun & Hrange & Hlen).
      exists (d :: ds). split; [|split].
      * etransitivity; [exact Hrun|]. f_equal. f_equal. rewrite <- app_assoc. reflexivity.
      * constructor; [apply cont_digit_range|assumption].
      * destruct (Z.eqb_spec value 0) as [|_]; [contradiction|].
        rewrite <- (digits_step value) by lia. rewrite <- Hlen.
        unfold len. cbn [length]. lia.
Qed.

(** X19.  The Length field of a positive length is the sentinel [0xFF],
    a digit in [[0x60, 0x7F]] for every base-32 digit above the lowest,
    most significant first, and a last digit in [[0x40, 0x5F]]: neither
    the sentinel nor a byte below [0x40] occurs among the digits, and only
    the last one lacks the continuation bit.  Hence a decoder reads the
    length back from the head of any stream and stops where the field
    ends. *)
Theorem encode_length_field (value : Z) (Hpos : 0 < value) :
  exists conts last,
    encode_length value = Return ([0xFF] ++ conts ++ [last])
    /\ Forall (fun b => 0x60 <= b <= 0x7F) conts
    /\ 0x40 <= last <= 0x5F
    /\ len conts = Z.log2 value / 5
    /\ forall tail,
         decode_length (([0xFF] ++ conts ++ [last]) ++ tail) = Some (value, tail).
Proof.
  destruct (encode_length_positive value Hpos) as (bs & Hbs & _ & Hdec).
  assert (Hform : exists conts,
             encode_length value
             = Return ([0xFF] ++ conts ++ [Z.lor (Z.land value 31) (Z.shiftl 1 6)])
             /\ Forall (fun b => 0x60 <= b <= 0x7F) conts
             /\ len conts = Z.log2 value / 5).
  { unfold encode_length, encode_length_fuel.
    set (n := S (Z.to_nat (Z.log2 value))).
    change (while (S n) encode_length_cond encode_length_body (value, true, []))
      with (if encode_length_cond (value, true, [])
            then while n encode_length_cond encode_length_body
                   (encode_length_body (value, true, []))
            else Return (value, true, [])).
    unfold encode_length_cond at 1. destruct (Z.eqb_spec value 0) as [|_]; [lia|].
    cbn [negb]. unfold encode_length_body at 2. cbn [negb app].
    set (d0 := Z.lor (Z.land value 31) (Z.shiftl 1 6)).
    assert (Hq : 0 <= Z.shiftr value 5 < 32 ^ Z.of_nat (Z.to_nat (Z.log2 value))).
    { rewrite Z.shiftr_div_pow2 by lia. change (2 ^ 5) with 32.
      pose proof (log2_fuel value ltac:(lia)) as Hub.
      rewrite Nat2Z.inj_succ, Z.pow_succ_r in Hub by lia.
      split; [apply Z.div_pos; lia|apply Z.div_lt_upper_bound; lia]. }
    destruct (encode_length_loop_digits _ (Z.shiftr value 5) [d0] Hq)
      as (ds & Hrun & Hrange & Hlen).
    exists (rev ds). unfold n.
    match goal with
    | |- context [while ?f ?c ?b ?s] =>
        assert (E : while f c b s = Return (0, false, [d0] ++ ds)) by exact Hrun;
        rewrite E
    end.
    cbn [bind]. split; [|split].
    - rewrite rev_app_distr. reflexivity.
    - apply Forall_rev. exact Hrange.
    - unfold len in *. rewrite length_rev.
      pose proof (digits_step value Hpos). lia. }
  destruct Hform as (conts & Hrun & Hrange & Hlen).
  exists conts, (Z.lor (Z.land value 31) (Z.shiftl 1 6)).
  split; [exact Hrun|]. split; [exact Hrange|]. split; [apply last_digit_range|].
  split; [exact Hlen|].
  rewrite Hrun in Hbs. injection Hbs as <-. exact Hdec.
Qed.

Lemma encode_length_field_witness :
  exists conts last,
    encode_length 257 = Return ([0xFF] ++ conts ++ [last])
    /\ Forall (fun b => 0x60 <= b <= 0x7F) conts
    /\ 0x40 <= last <= 0x5F
    /\ len conts = Z.log2 257 / 5
    /\ forall tail,
         decode_length (([0xFF] ++ conts ++ [last]) ++ tail) = Some (257, tail).
Proof.
  apply (encode_length_field 257). lia.
Defined.

(* ================================================================== *)
(** * The header past the edges *)
(* ================================================================== *)

Lemma guard_rejects (x : pynum) (q : Q) :
  pyval x = Some q -> (1 < q)%Q -> encode_normalized x = Raise ValueError.
Proof.
  intros Hval Hq. unfold encode_normalized.
  destruct (py_le (PyInt (-1)) x && py_le x (PyInt 1)) eqn:G; [|reflexivity].
  apply (normalized_guard x q Hval) in G. lra.
Qed.

Lemma quotient_past (a L : Z) :
  0 < L -> L < a ->
  (inject_Z L * (inject_Z a / inject_Z L) == inject_Z a)%Q
  /\ (inject_Z L + 1 <= inject_Z a)%Q.
Proof.
  intros HL Ha. split; [apply fraction_times; exact HL|].
  change 1%Q with (inject_Z 1). rewrite <- inject_Z_plus, <- Zle_Qle. lia.
Qed.

Lemma fraction_rejects (a : Z) :
  320 < a < 2 ^ 31 ->
  exists f,
    int_truediv a 320 = Return f
    /\ encode_normalized (PyFloat f) = Raise ValueError.
Proof.
  intros Ha.
  destruct (int_truediv_error a 320 ltac:(lia) ltac:(lia)) as (m & e & Hdiv & _ & _ & Herr).
  cbv zeta in Herr. destruct Herr as [Hlow _].
  exists (S754_finite false m e). split; [exact Hdiv|].
  apply (guard_rejects _ (SF2Q (S754_finite false m e))); [reflexivity|].
  destruct (quotient_past a 320 ltac:(lia) ltac:(lia)) as [Hq Hq'].
  change (inject_Z 320) with (320 # 1)%Q in Hq at 1, Hq'.
  unfold eps in Hlow. change (Qpow2 (-52)) with (1 # 4503599627370496)%Q in Hlow.
  set (X := (inject_Z a / inject_Z 320)%Q) in *.
  set (F := SF2Q (S754_finite false m e)) in *.
  set (A := inject_Z a) in *. clearbody X F A. lra.
Qed.

Lemma fraction_075_rejects (a : Z) :
  320 < a < 2 ^ 31 ->
  exists f g,
    int_truediv a 240 = Return f
    /\ py_mul (PyFloat f) (PyFloat float_0_75) = Return g
    /\ encode_normalized g = Raise ValueError.
Proof.
  intros Ha.
  destruct (int_truediv_error a 240 ltac:(lia) ltac:(lia)) as (m & e & Hdiv & Hn & He & Herr).
  cbv zeta in Herr. destruct Herr as [Hlow _].
  pose proof (Zdigits2_small a ltac:(lia)) as Hda.
  change (Zdigits2 240) with 8 in He.
  assert (Hn75 : normal53 6755399441055744 (-53)) by (split; cbn; lia).
  destruct (SFmul_error m e 6755399441055744 (-53) Hn Hn75 ltac:(lia))
    as (m' & e' & Hmul & _ & Hlow' & _).
  exists (S754_finite false m e), (PyFloat (S754_finite false m' e')).
  split; [exact Hdiv|]. split.
  { cbn [py_mul]. unfold float_0_75. rewrite Hmul. reflexivity. }
  apply (guard_rejects _ (SF2Q (S754_finite false m' e'))); [reflexivity|].
  destruct (quotient_past a 240 ltac:(lia) ltac:(lia)) as [Hq Hq'].
  change (inject_Z 240) with (240 # 1)%Q in Hq at 1, Hq'.
  assert (Hbig : (inject_Z 321 <= inject_Z a)%Q) by (rewrite <- Zle_Qle; lia).
  change (inject_Z 321) with (321 # 1)%Q in Hbig.
  assert (H75 : (SF2Q (S754_finite false 6755399441055744 (-53)) == 3 # 4)%Q)
    by reflexivity.
  unfold eps in Hlow, Hlow'.
  change (Qpow2 (-52)) with (1 # 4503599627370496)%Q in Hlow, Hlow'.
  rewrite H75 in Hlow'.
  set (X := (inject_Z a / inject_Z 240)%Q) in *.
  set (F := SF2Q (S754_finite false m e)) in *.
  set (G := SF2Q (S754_finite false m' e')) in *.
  set (A := inject_Z a) in *. clearbody X F G A. lra.
Qed.

(** X20.  [encode_header] refuses what is past the right or the bottom
    edge by more than the guard allows: with [x], [width] or [height]
    above 320 it raises [ValueError], whatever the flags.  With the
    theorem before, it returns exactly when the three are 320 at most. *)
Theorem encode_header_past_edge (x y width height : Z)
    (clear translation reset quantization : bool)
    (Hx : -320 <= x < 2 ^ 31) (Hw : -320 <= width < 2 ^ 31)
    (Hh : -320 <= height < 2 ^ 31) (Hy : -320 <= 240 - height - y <= 320)
    (Hpast : 320 < x \/ 320 < width \/ 320 < height) :
  encode_header x y width height clear translation reset quantization = Raise ValueError.
Proof.
  destruct (fraction_075_fits_inv _ _ (ordinate_fits (240 - height - y) Hy))
    as (fy & gy & ny & Efy & Egy & Eny & _).
  unfold encode_header, SCREEN_WIDTH, SCREEN_HEIGHT.
  destruct (Z.le_gt_cases x 320) as [Hx1|Hx1].
  2:{ destruct (fraction_rejects x ltac:(lia)) as (fx & Efx & Enx).
      destruct reset; cbn [bind]; rewrite Efx; cbn [bind]; rewrite Enx; reflexivity. }
  destruct (fraction_fits_inv _ _ (abscissa_fits x ltac:(lia))) as (fx & nx & Efx & Enx & _).
  destruct (Z.le_gt_cases width 320) as [Hw1|Hw1].
  2:{ destruct (fraction_rejects width ltac:(lia)) as (fw & Efw & Enw).
      destruct reset; cbn [bind];
        rewrite Efx; cbn [bind]; rewrite Enx; cbn [bind];
        rewrite Efy; cbn [bind]; rewrite Egy; cbn [bind]; rewrite Eny; cbn [bind];
        rewrite Efw; cbn [bind]; rewrite Enw; reflexivity. }
  destruct (fraction_fits_inv _ _ (abscissa_fits width ltac:(lia)))
    as (fw & nw & Efw & Enw & _).
  destruct (fraction_075_rejects height ltac:(lia)) as (fh & gh & Efh & Egh & Enh).
  destruct reset; cbn [bind];
    rewrite Efx; cbn [bind]; rewrite Enx; cbn [bind];
    rewrite Efy; cbn [bind]; rewrite Egy; cbn [bind]; rewrite Eny; cbn [bind];
    rewrite Efw; cbn [bind]; rewrite Enw; cbn [bind];
    rewrite Efh; cbn [bind]; rewrite Egh; cbn [bind]; rewrite Enh; reflexivity.
Qed.

Lemma encode_header_past_edge_witness :
  encode_header 0 0 8 330 true false true false = Raise ValueError.
Proof.
  apply (encode_header_past_edge 0 0 8 330 true false true false); lia.
Defined.

(** X21.  On a negative value [encode_length] never returns: shifting a
    negative value right keeps it negative, so the condition of the loop
    holds at every turn and no fuel is enough. *)
Theorem encode_length_negative (value : Z) (Hneg : value < 0) :
  (forall fuel, encode_length_fuel fuel value = Diverge)
  /\ encode_length value = Diverge.
Proof.
  split.
  - intros fuel. apply encode_length_negative_diverges. exact Hneg.
  - apply encode_length_negative_diverges. exact Hneg.
Qed.

Lemma encode_length_negative_witness :
  (forall fuel, encode_length_fuel fuel (-1) = Diverge)
  /\ encode_length (-1) = Diverge.
Proof.
  apply (encode_length_negative (-1)). lia.
Defined.
